(** * Prioritized experience replay: priority tree and prioritized store

    A shallow embedding of
      - learningALE/handlers/binarysearch.py  (classes [Node], [BinaryTree])
      - learningALE/handlers/prioritizedexperiencehandler.py
        (class [PrioritizedExperienceHandler])
    and the properties of the priority tree and of batch assembly.

    The store imports [BinaryTree] from [learningALE.handlers.binarytree];
    the class embedded here is the one of binarysearch.py.

    Python objects are mutated in place; here every method takes the object
    and returns the object after the call next to its result.  A child slot
    holding [None] is [None] of [option Node]; the truth test [if self.right:]
    is the match on that option, since a [Node] defines neither [__bool__] nor
    [__len__] and is therefore always true. *)

From stdpp Require Import base numbers list gmap sorting.
From Stdlib Require Import QArith Qpower Lqa.
Close Scope Q_scope.

(** ** The priority tree (binarysearch.py) *)

Section PriorityTree.
(** [P] is the type of priorities ([value]), [E] of payloads
    ([extra_vals]); [geb a b] is Python's [a >= b] on priorities.  The
    tree code never inspects a payload. *)
Context {P E : Type}.
Variable geb : P → P → bool.

#[local] Unset Elimination Schemes.
Inductive Node : Type :=
  mkNode (left : option Node) (value : P) (extra_vals : E) (right : option Node).
#[local] Set Elimination Schemes.

(** Induction over a node, with a hypothesis for each child slot. *)
Definition slot_holds (Q : Node → Prop) (o : option Node) : Prop :=
  match o with Some n => Q n | None => True end.

Definition Node_ind' (Q : Node → Prop)
    (step : ∀ l v e r, slot_holds Q l → slot_holds Q r → Q (mkNode l v e r)) :
    ∀ n, Q n :=
  fix go (n : Node) : Q n :=
    match n with
    | mkNode l v e r =>
        step l v e r
          (match l as o return slot_holds Q o with Some l0 => go l0 | None => I end)
          (match r as o return slot_holds Q o with Some r0 => go r0 | None => I end)
    end.

(** [Node.insert]: the node after the call. *)
Fixpoint Node_insert (self : Node) (new_val : P) (extra_vals : E) : Node :=
  match self with
  | mkNode self_left self_value self_extra_vals self_right =>
      if geb new_val self_value then
        match self_right with
        | Some r =>
            mkNode self_left self_value self_extra_vals
              (Some (Node_insert r new_val extra_vals))
        | None =>
            mkNode self_left self_value self_extra_vals
              (Some (mkNode None new_val extra_vals None))
        end
      else
        match self_left with
        | Some l =>
            mkNode (Some (Node_insert l new_val extra_vals))
              self_value self_extra_vals self_right
        | None =>
            mkNode (Some (mkNode None new_val extra_vals None))
              self_value self_extra_vals self_right
        end
  end.

(** [Node.pop_max]: the returned 4-tuple [(ret_val, extra_vals,
    hanging_left, term)] and the node after the call.  When [term] is 1 the
    node itself was the maximum and is left as it was; its caller unlinks
    it. *)
Fixpoint Node_pop_max (self : Node) : (P * E * option Node * bool) * Node :=
  match self with
  | mkNode self_left self_value self_extra_vals self_right =>
      match self_right with
      | Some r =>
          let '((ret_val, extra_vals, hanging_left, term), r') := Node_pop_max r in
          if term
          then ((ret_val, extra_vals, hanging_left, false),
                mkNode self_left self_value self_extra_vals hanging_left)
          else ((ret_val, extra_vals, hanging_left, false),
                mkNode self_left self_value self_extra_vals (Some r'))
      | None => ((self_value, self_extra_vals, self_left, true), self)
      end
  end.

(** [BinaryTree]: one attribute, [root]. *)
Record BinaryTree : Type := mkBinaryTree { root : option Node }.

Definition BinaryTree_init : BinaryTree := mkBinaryTree None.

Definition BinaryTree_insert (self : BinaryTree) (val : P) (extra_vals : E) : BinaryTree :=
  match root self with
  | Some r => mkBinaryTree (Some (Node_insert r val extra_vals))
  | None => mkBinaryTree (Some (mkNode None val extra_vals None))
  end.

(** [BinaryTree.pop_max]: on an empty tree [self.root] is [None] and the
    attribute access raises; that is [None] here, and the tree is left as
    it was. *)
Definition BinaryTree_pop_max (self : BinaryTree) : option ((P * E) * BinaryTree) :=
  match root self with
  | None => None
  | Some r =>
      let '((val, extra_vals, hanging_left, term), r') := Node_pop_max r in
      if term then Some ((val, extra_vals), mkBinaryTree hanging_left)
      else Some ((val, extra_vals), mkBinaryTree (Some r'))
  end.

(** [k] pop_max calls in a row; [None] when one of them meets the empty
    tree. *)
Fixpoint pop_n (k : nat) (t : BinaryTree) : option (list (P * E) * BinaryTree) :=
  match k with
  | 0 => Some ([], t)
  | S k' =>
      match BinaryTree_pop_max t with
      | None => None
      | Some (pe, t') =>
          match pop_n k' t' with
          | None => None
          | Some (popped, t'') => Some (pe :: popped, t'')
          end
      end
  end.

(** *** Observations used in the statements *)

(** The entries of a subtree, left to right. *)
Fixpoint Node_entries (n : Node) : list (P * E) :=
  match n with
  | mkNode l v e r =>
      match l with Some l0 => Node_entries l0 | None => [] end
      ++ (v, e) ::
      match r with Some r0 => Node_entries r0 | None => [] end
  end.

Definition slot_entries (o : option Node) : list (P * E) :=
  match o with Some n => Node_entries n | None => [] end.

Definition entries (t : BinaryTree) : list (P * E) := slot_entries (root t).

(** An invariant scheme: at every node, each entry of the left subtree is
    in relation [L] with the node's entry and each entry of the right subtree
    is in relation [R] with it. *)
Fixpoint Node_inv (L R : P * E → P * E → Prop) (n : Node) : Prop :=
  match n with
  | mkNode l v e r =>
      Forall (L (v, e)) (slot_entries l)
      ∧ Forall (R (v, e)) (slot_entries r)
      ∧ match l with Some l0 => Node_inv L R l0 | None => True end
      ∧ match r with Some r0 => Node_inv L R r0 | None => True end
  end.

Definition slot_inv (L R : P * E → P * E → Prop) (o : option Node) : Prop :=
  match o with Some n => Node_inv L R n | None => True end.

(** The ordering invariant of the search tree: at every node the priorities
    of the left subtree are [<=] the node's priority ([below]) and the
    priorities of the right subtree are [>=] it ([above]). *)
Definition below (x y : P * E) : Prop := geb x.1 y.1 = true.
Definition above (x y : P * E) : Prop := geb y.1 x.1 = true.

Definition ordered (t : BinaryTree) : Prop := slot_inv below above (root t).

(** The rightmost path: the ancestors of a slot, from the root down, each
    with its left slot, priority and payload; [plug path o] rebuilds the
    tree with [o] in the right-child slot of the last ancestor (in the root
    slot when there is no ancestor). *)
Fixpoint plug (path : list (option Node * P * E)) (o : option Node) : option Node :=
  match path with
  | [] => o
  | (l, v, e) :: path' => Some (mkNode l v e (plug path' o))
  end.

Fixpoint path_entries (path : list (option Node * P * E)) : list (P * E) :=
  match path with
  | [] => []
  | (l, v, e) :: path' => slot_entries l ++ (v, e) :: path_entries path'
  end.

(** Trees built by insert calls only, and trees reachable by insert and
    pop_max calls.  A pop_max on the empty tree raises and ends the run. *)
Definition inserts (ops : list (P * E)) : BinaryTree :=
  foldl (λ t pe, BinaryTree_insert t pe.1 pe.2) BinaryTree_init ops.

Inductive reachable : BinaryTree → Prop :=
  | reachable_init : reachable BinaryTree_init
  | reachable_insert t p e :
      reachable t → reachable (BinaryTree_insert t p e)
  | reachable_pop_max t pe t' :
      reachable t → BinaryTree_pop_max t = Some (pe, t') → reachable t'.

End PriorityTree.


Arguments Node : clear implicits.
Arguments BinaryTree : clear implicits.

(** ** Insertion stamps

    The tree code never looks at a payload, so the order in which entries
    were inserted can be observed by running the same code with every payload
    paired with the number of insert calls made before it. *)

Section Stamps.
Context {P E : Type}.
Variable geb : P → P → bool.

(** [stamped k t]: [t] is reachable by insert and pop_max calls, [k] of
    which were inserts, each inserted payload carrying its stamp. *)
Inductive stamped : nat → BinaryTree P (nat * E) → Prop :=
  | stamped_init : stamped 0 BinaryTree_init
  | stamped_insert k t p e :
      stamped k t → stamped (S k) (BinaryTree_insert geb t p (k, e))
  | stamped_pop_max k t pe t' :
      stamped k t → BinaryTree_pop_max t = Some (pe, t') → stamped k t'.

(** Forgetting the stamps. *)
Fixpoint Node_erase (n : Node P (nat * E)) : Node P E :=
  match n with
  | mkNode l v e r =>
      mkNode (match l with Some l0 => Some (Node_erase l0) | None => None end)
        v e.2
        (match r with Some r0 => Some (Node_erase r0) | None => None end)
  end.

Definition erase_slot (o : option (Node P (nat * E))) : option (Node P E) :=
  match o with Some n => Some (Node_erase n) | None => None end.

Definition erase (t : BinaryTree P (nat * E)) : BinaryTree P E :=
  mkBinaryTree (erase_slot (root t)).

(** The invariant of a stamped tree: left entries have a strictly smaller
    priority than the node; right entries have a priority [>=] the node's
    and were inserted after it. *)
Definition strictly_below (x y : P * (nat * E)) : Prop := geb y.1 x.1 = false.
Definition above_later (x y : P * (nat * E)) : Prop :=
  geb y.1 x.1 = true ∧ x.2.1 < y.2.1.

End Stamps.

(** ** Python values used by the store *)

Inductive exn : Set := AttributeError | IndexError | ValueError.

Inductive result (A : Type) : Type :=
  | Ok (a : A)
  | Raise (e : exn).
Arguments Ok {A} a.
Arguments Raise {A} e.

(** [l[i]] on a Python list: a negative index counts from the end, an
    index outside [-len(l) .. len(l)-1] raises IndexError ([None] here). *)
Definition py_getitem {A : Type} (l : list A) (i : Z) : option A :=
  if bool_decide (0 ≤ i)%Z then l !! Z.to_nat i
  else if bool_decide (- Z.of_nat (length l) ≤ i)%Z
       then l !! Z.to_nat (Z.of_nat (length l) + i)
       else None.

(** ** The prioritized store (prioritizedexperiencehandler.py) *)

Section Store.
(** [P]: priorities (td errors); [geb]: Python's [>=] on them; [inf]:
    [np.inf].  [state] and [reward] are the stored observations and rewards,
    and [np_dtype] the numpy element types that the [dtype] argument of
    [get_prioritized_experience] ranges over.  [zeros_like dtype s] is one row
    of [np.zeros((mini_batch,) + s.shape, dtype=dtype)].  A batch array holds
    elements of its [dtype]: [astype_state dtype s] is what a row of such an
    array holds after [arr[k] = s], and [astype_reward dtype r] what
    [np.asarray(lst, dtype=dtype)] makes of the item [r]; both round where
    [dtype] cannot hold the value.  The states of a buffer are taken to share
    one shape.  Payloads and actions are Python integers. *)
Context {P state reward np_dtype : Type}.
Variable geb : P → P → bool.
Variable inf : P.
Variable zeros_like : np_dtype → state → state.
Variable astype_state : np_dtype → state → state.
Variable astype_reward : np_dtype → reward → reward.

(** The attributes the store inherits from [ExperienceHandler] and uses. *)
Record ExperienceHandler : Type := mkExperienceHandler {
  states : list state;
  actions : list Z;
  rewards : list reward;
  term_states : gset Z;
  size : Z;
  max_len : Z
}.

(** The store: the inherited attributes and the tree.  [num_actions],
    [dtype], [discount] and [costList] are set by [__init__] and used by no
    method of the class. *)
Record PrioritizedExperienceHandler : Type := mkPrioritizedExperienceHandler {
  buffer : ExperienceHandler;
  tree : BinaryTree P Z
}.

(** The methods of the base class, which is not part of the sources at
    hand: they act on the inherited attributes only. *)
Variable super_add_experience :
  ExperienceHandler → state → Z → reward → Z * ExperienceHandler.
Variable super_add_terminal : ExperienceHandler → ExperienceHandler.
Variable super_trim : ExperienceHandler → ExperienceHandler.

Definition add_experience (self : PrioritizedExperienceHandler)
    (st : state) (action : Z) (rw : reward) : PrioritizedExperienceHandler :=
  let '(insert_ind, b) := super_add_experience (buffer self) st action rw in
  if bool_decide (insert_ind > 1)%Z
  then mkPrioritizedExperienceHandler b
         (BinaryTree_insert geb (tree self) inf (insert_ind - 2)%Z)
  else mkPrioritizedExperienceHandler b (tree self).

Definition add_terminal (self : PrioritizedExperienceHandler) :
    PrioritizedExperienceHandler :=
  let b := super_add_terminal (buffer self) in
  mkPrioritizedExperienceHandler b
    (BinaryTree_insert geb (tree self) inf (size b - 1)%Z).

Definition set_new_td_errors (self : PrioritizedExperienceHandler)
    (td_errors : list P) (state_inds : list Z) : PrioritizedExperienceHandler :=
  foldl (λ s '(td_error, ind),
           mkPrioritizedExperienceHandler (buffer s)
             (BinaryTree_insert geb (tree s) td_error ind))
        self (zip td_errors state_inds).

Definition trim (self : PrioritizedExperienceHandler) : PrioritizedExperienceHandler :=
  mkPrioritizedExperienceHandler (super_trim (buffer self)) (tree self).

(** Computations that may raise and that change the store. *)
Definition M (A : Type) : Type :=
  PrioritizedExperienceHandler → result A * PrioritizedExperienceHandler.

Definition ret {A : Type} (a : A) : M A := λ self, (Ok a, self).
Definition raise {A : Type} (e : exn) : M A := λ self, (Raise e, self).
Definition bind {A B : Type} (m : M A) (k : A → M B) : M B :=
  λ self,
    match m self with
    | (Ok a, self') => k a self'
    | (Raise e, self') => (Raise e, self')
    end.

Notation "'let*' x ':=' c1 'in' c2" := (bind c1 (λ x, c2))
  (at level 10, x pattern, c1 at level 100, c2 at level 200).

(** [self.tree.pop_max()]. *)
Definition tree_pop_max : M (P * Z) :=
  λ self,
    match BinaryTree_pop_max (tree self) with
    | Some (pe, t') => (Ok pe, mkPrioritizedExperienceHandler (buffer self) t')
    | None => (Raise AttributeError, self)
    end.

(** [lst[i]] on one of the lists of the buffer. *)
Definition getitem {A : Type} (lst : ExperienceHandler → list A) (i : Z) : M A :=
  λ self,
    match py_getitem (lst (buffer self)) i with
    | Some x => (Ok x, self)
    | None => (Raise IndexError, self)
    end.

Definition in_term_states (i : Z) : M bool :=
  λ self, (Ok (bool_decide (i ∈ term_states (buffer self))), self).

(** The local variables of [get_prioritized_experience]. *)
Record locals : Type := mkLocals {
  mb_states : list state;
  mb_states_tp1 : list state;
  mb_actions : list Z;
  mb_rewards : list reward;
  mb_terminal : list Z;
  mb_inds_poped : list Z
}.

(** [np.asarray(lst, dtype=int)] on a list of Python integers: the same
    integers.  The actions are the ids of emulator actions and the flags are
    0 and 1, all within the range of numpy's [int]. *)
Definition asarray_int (lst : list Z) : list Z := lst.

(** One turn of [for exp in range(mini_batch)]; [mb_states] and
    [mb_states_tp1] are arrays of [dtype]. *)
Definition loop_body (dtype : np_dtype) (exp : nat) (loc : locals) : M locals :=
  let* (td_error, exp_ind) := tree_pop_max in
  let inds := mb_inds_poped loc ++ [exp_ind] in
  let* s := getitem states exp_ind in
  let mbs := <[exp := astype_state dtype s]> (mb_states loc) in
  let* is_term := in_term_states exp_ind in
  let* (term, tp1) :=
     (if is_term : bool then ret (mb_terminal loc ++ [1%Z], mb_states_tp1 loc)
      else
        let* s1 := getitem states (exp_ind + 1)%Z in
        ret (mb_terminal loc ++ [0%Z],
             <[exp := astype_state dtype s1]> (mb_states_tp1 loc))) in
  let* a := getitem actions exp_ind in
  let* r := getitem rewards exp_ind in
  ret (mkLocals mbs tp1 (mb_actions loc ++ [a]) (mb_rewards loc ++ [r]) term inds).

Fixpoint for_each (exps : list nat) (body : nat → locals → M locals)
    (loc : locals) : M locals :=
  match exps with
  | [] => ret loc
  | exp :: exps' => let* loc' := body exp loc in for_each exps' body loc'
  end.

(** An index that one turn of the loop resolves without raising: the
    three lists have an item there, and the state list has one at the next
    index unless the index is marked terminal. *)
Definition resolves (b : ExperienceHandler) (i : Z) : bool :=
  bool_decide (is_Some (py_getitem (states b) i))
  && bool_decide (is_Some (py_getitem (actions b) i))
  && bool_decide (is_Some (py_getitem (rewards b) i))
  && (bool_decide (i ∈ term_states b)
      || bool_decide (is_Some (py_getitem (states b) (i + 1)%Z))).

(** The loop invariant of batch assembly after [j] turns, for a buffer [b],
    batch arrays of [dtype] with [n] rows and the zero row [z]: the rows not
    yet reached are zero, and each turn done has written its flag and its
    next state. *)
Definition assembled (dtype : np_dtype) (b : ExperienceHandler) (z : state)
    (n j : nat) (loc : locals) : Prop :=
  length (mb_inds_poped loc) = j
  ∧ length (mb_terminal loc) = j
  ∧ length (mb_states_tp1 loc) = n
  ∧ (∀ k, j ≤ k → k < n → mb_states_tp1 loc !! k = Some z)
  ∧ (∀ k i, mb_inds_poped loc !! k = Some i →
       if bool_decide (i ∈ term_states b)
       then mb_terminal loc !! k = Some 1%Z ∧ mb_states_tp1 loc !! k = Some z
       else mb_terminal loc !! k = Some 0%Z
            ∧ ∃ s1, py_getitem (states b) (i + 1)%Z = Some s1
                    ∧ mb_states_tp1 loc !! k = Some (astype_state dtype s1)).

(** The loop invariant for the rows copied from the buffer, after [j]
    turns on batch arrays of [dtype] with [n] rows: each turn done has stored
    the state found at its index in its row, and appended the action and the
    reward found there. *)
Definition collected (dtype : np_dtype) (b : ExperienceHandler) (n j : nat)
    (loc : locals) : Prop :=
  length (mb_inds_poped loc) = j
  ∧ length (mb_actions loc) = j
  ∧ length (mb_rewards loc) = j
  ∧ length (mb_states loc) = n
  ∧ (∀ k i, mb_inds_poped loc !! k = Some i →
       ∃ s a r,
         py_getitem (states b) i = Some s
         ∧ mb_states loc !! k = Some (astype_state dtype s)
         ∧ py_getitem (actions b) i = Some a ∧ mb_actions loc !! k = Some a
         ∧ py_getitem (rewards b) i = Some r ∧ mb_rewards loc !! k = Some r).

(** The returned 6-tuple [(mb_states, mb_actions, mb_rewards, mb_states_tp1,
    mb_terminal, mb_inds_poped)]; a component is [None] or an array. *)
Definition returned : Type :=
  option (list state) * option (list Z) * option (list reward)
  * option (list state) * option (list Z) * option (list Z).

Definition all_None : returned := (None, None, None, None, None, None).

(** [get_prioritized_experience(mini_batch, dtype)]; [np.zeros] raises
    ValueError on a negative number of rows. *)
Definition get_prioritized_experience (mini_batch : Z) (dtype : np_dtype) :
    M returned :=
  λ self,
    if bool_decide (size (buffer self) ≤ mini_batch)%Z then (Ok all_None, self)
    else
      (let* s0 := getitem states 0%Z in
       if bool_decide (mini_batch < 0)%Z then raise ValueError
       else
         let rows := replicate (Z.to_nat mini_batch) (zeros_like dtype s0) in
         let* loc := for_each (seq 0 (Z.to_nat mini_batch)) (loop_body dtype)
                       (mkLocals rows rows [] [] [] []) in
         ret (Some (mb_states loc), Some (asarray_int (mb_actions loc)),
              Some (astype_reward dtype <$> mb_rewards loc),
              Some (mb_states_tp1 loc), Some (asarray_int (mb_terminal loc)),
              Some (mb_inds_poped loc))) self.

End Store.

Arguments ExperienceHandler : clear implicits.
Arguments PrioritizedExperienceHandler : clear implicits.
Arguments locals : clear implicits.
Arguments returned : clear implicits.

(** ** The base class

    [learningALE/handlers/experiencehandler.py] is not among the sources at
    hand.  The statements about the store take its three methods as
    parameters; the definitions below give them a body for the runs that need
    one. *)

Section Base.
Context {state reward : Type}.

(** Modelled from the spec: [ExperienceHandler.add_experience], "appends to
    the sequence; returns the newly assigned index".  The comment at the call
    in [PrioritizedExperienceHandler.add_experience] says the returned
    [insert_ind] "is len(list)": the length after the append. *)
Definition ExperienceHandler_add_experience (self : ExperienceHandler state reward)
    (st : state) (action : Z) (rw : reward) : Z * ExperienceHandler state reward :=
  let self' :=
    mkExperienceHandler (states self ++ [st]) (actions self ++ [action])
      (rewards self ++ [rw]) (term_states self) (size self + 1)%Z (max_len self) in
  (Z.of_nat (length (states self')), self').

(** Modelled from the spec: [ExperienceHandler.add_terminal], "marks the
    current end-of-sequence index as terminal (no valid next-state)". *)
Definition ExperienceHandler_add_terminal (self : ExperienceHandler state reward) :
    ExperienceHandler state reward :=
  mkExperienceHandler (states self) (actions self) (rewards self)
    ({[ (Z.of_nat (length (states self)) - 1)%Z ]} ∪ term_states self)
    (size self) (max_len self).

(** Modelled from the spec: [ExperienceHandler.trim], "when length exceeds
    configured capacity, discard oldest entries so length <= capacity;
    indices shift or are invalidated".  The terminal marks move with their
    transitions. *)
Definition ExperienceHandler_trim (self : ExperienceHandler state reward) :
    ExperienceHandler state reward :=
  if bool_decide (size self > max_len self)%Z then
    let d := (size self - max_len self)%Z in
    mkExperienceHandler (drop (Z.to_nat d) (states self))
      (drop (Z.to_nat d) (actions self)) (drop (Z.to_nat d) (rewards self))
      (set_map (λ i : Z, (i - d)%Z) (filter (λ i : Z, (d ≤ i)%Z) (term_states self)))
      (max_len self) (max_len self)
  else self.

(** Modelled from the spec: [ExperienceHandler.__init__], an empty buffer of
    the configured capacity. *)
Definition ExperienceHandler_init (max_len : Z) : ExperienceHandler state reward :=
  mkExperienceHandler [] [] [] ∅ 0%Z max_len.

End Base.

(** ** Stores without ended episodes

    The stores that add_experience, get_prioritized_experience and
    set_new_td_errors calls make of an empty one, with the base class as
    modelled above: no episode is ended, nothing is trimmed, and priorities
    are reported only for indices that a batch has handed out. *)

Section PlainStores.
Context {P state reward np_dtype : Type}.
Variable geb : P → P → bool.
Variable inf : P.
Variable zeros_like : np_dtype → state → state.
Variable astype_state : np_dtype → state → state.
Variable astype_reward : np_dtype → reward → reward.

(** The indices that a call of get_prioritized_experience hands to its
    caller: the last component of a batch, and none when the call returns the
    tuple of [None] or raises. *)
Definition returned_inds (r : result (returned state reward)) : list Z :=
  match r with
  | Ok (_, _, _, _, _, Some inds) => inds
  | _ => []
  end.

(** [plain self seen]: [self] is reached from an empty store by
    add_experience, get_prioritized_experience and set_new_td_errors calls,
    and [seen] lists the indices that the calls made so far have returned and
    that have not been inserted again since.  set_new_td_errors is called on
    such indices only, each at most once. *)
Inductive plain : PrioritizedExperienceHandler P state reward → list Z → Prop :=
  | plain_init max_len :
      plain (mkPrioritizedExperienceHandler (ExperienceHandler_init max_len)
               BinaryTree_init) []
  | plain_add self seen st action rw :
      plain self seen →
      plain (add_experience geb inf ExperienceHandler_add_experience self st action rw)
        seen
  | plain_get self seen mini_batch dtype r self' :
      plain self seen →
      get_prioritized_experience zeros_like astype_state astype_reward mini_batch
        dtype self = (r, self') →
      plain self' (seen ++ returned_inds r)
  | plain_set self seen td_errors state_inds :
      plain self seen →
      NoDup (zip td_errors state_inds).*2 →
      (zip td_errors state_inds).*2 ⊆ seen →
      plain (set_new_td_errors geb self td_errors state_inds)
        (list_difference seen (zip td_errors state_inds).*2).

(** One add_experience call per transition of [txs]. *)
Definition add_all (txs : list (state * Z * reward))
    (self : PrioritizedExperienceHandler P state reward) :
    PrioritizedExperienceHandler P state reward :=
  foldl (λ s '(st, action, rw),
           add_experience geb inf ExperienceHandler_add_experience s st action rw)
        self txs.

End PlainStores.

(** ** A concrete instance

    Priorities are numbers or [np.inf]; states are single numbers, so that a
    zero-filled state is [0]. *)

Inductive priority : Set := Finite (z : Z) | Infinity.

Definition priority_geb (a b : priority) : bool :=
  match a, b with
  | Infinity, _ => true
  | Finite _, Infinity => false
  | Finite x, Finite y => bool_decide (y ≤ x)%Z
  end.

Definition store : Type := PrioritizedExperienceHandler priority Z Z.

(** The element types of the runs: [np.float32], the default [dtype] of
    [get_prioritized_experience], and [np.float64], with the number of bits
    of their significands. *)
Inductive float_dtype : Set := float32 | float64.

Definition significand_bits (dtype : float_dtype) : Z :=
  match dtype with
  | float32 => 24%Z
  | float64 => 53%Z
  end.

(** What a float array of [dtype] holds after an integer is stored in it:
    the integer itself when the significand has room for it, and otherwise
    the nearest integer that fits, the one with the even significand when two
    are equally near.  The integers of the runs are far below the largest
    float of either type. *)
Definition float_astype (dtype : float_dtype) (z : Z) : Z :=
  let a := Z.abs z in
  let e := (Z.log2 a + 1 - significand_bits dtype)%Z in
  if bool_decide (e ≤ 0)%Z then z
  else
    let q := (a / 2 ^ e)%Z in
    let r := (a mod 2 ^ e)%Z in
    let half := (2 ^ (e - 1))%Z in
    let q' :=
      if bool_decide (r < half)%Z then q
      else if bool_decide (half < r)%Z then (q + 1)%Z
      else if Z.even q then q else (q + 1)%Z in
    (Z.sgn z * (q' * 2 ^ e))%Z.

Definition store_init (max_len : Z) : store :=
  mkPrioritizedExperienceHandler (ExperienceHandler_init max_len) BinaryTree_init.

Definition store_add_experience (self : store) (st action rw : Z) : store :=
  add_experience priority_geb Infinity ExperienceHandler_add_experience self st action rw.

Definition store_add_terminal (self : store) : store :=
  add_terminal priority_geb Infinity ExperienceHandler_add_terminal self.

Definition store_trim (self : store) : store :=
  trim ExperienceHandler_trim self.

(** [get_prioritized_experience(mini_batch)], with the default [dtype]. *)
Definition store_get (mini_batch : Z) (self : store) : result (returned Z Z) * store :=
  get_prioritized_experience (λ _ _, 0%Z) float_astype float_astype mini_batch
    float32 self.

Definition store_set_new_td_errors (self : store) (td_errors : list priority)
    (state_inds : list Z) : store :=
  set_new_td_errors priority_geb self td_errors state_inds.

(** *** Runs used below

    [store_add_all sts self] adds one transition per state of [sts], each
    with action 0 and reward 0. *)
Definition store_add_all (sts : list Z) (self : store) : store :=
  foldl (λ s st, store_add_experience s st 0%Z 0%Z) self sts.

(** Capacity 5: four transitions, then the end of the episode. *)
Definition scenario_store : store :=
  store_add_terminal (store_add_all [10; 11; 12; 13]%Z (store_init 5)).

(** Capacity 2: four transitions, then trim. *)
Definition trimmed_store : store :=
  store_trim (store_add_all [10; 11; 12; 13]%Z (store_init 2)).

(** The trimmed store after one more transition. *)
Definition refilled_store : store := store_add_all [14%Z] trimmed_store.

(** Two episodes: two transitions, the end of the episode, two more
    transitions. *)
Definition episodes_store : store :=
  store_add_all [20; 21]%Z
    (store_add_terminal (store_add_all [10; 11]%Z (store_init 10))).

(** Four transitions, a batch of two items, which returns the indices 2
    and 1, a new priority for index 1, and one more transition; and the same
    after another batch of two items, which leaves one entry in the tree. *)
Definition plain_store : store :=
  store_add_all [14%Z]
    (store_set_new_td_errors
       (store_get 2 (store_add_all [10; 11; 12; 13]%Z (store_init 5))).2
       [Finite 5] [1%Z]).

Definition short_store : store := (store_get 2 plain_store).2.

(** Two transitions whose states are 5 and 2^24 + 1; float32 holds the
    integers up to 2^24 exactly and, beyond, only every second one. *)
Definition rounding_store : store :=
  store_add_all [5; 16777217]%Z (store_init 5).

(** Two transitions, then one batch of one item, which empties the tree. *)
Definition drained_store : store :=
  (store_get 1 (store_add_all [10; 11]%Z (store_init 10))).2.

(** A tree built by inserts, and the same after a pop_max and one more
    insert. *)
Definition example_ops : list (priority * Z) :=
  [(Finite 3, 0%Z); (Infinity, 1%Z); (Finite 5, 2%Z); (Infinity, 3%Z)].

Definition example_tree : BinaryTree priority Z := inserts priority_geb example_ops.

Definition example_tree_after : BinaryTree priority Z :=
  mkBinaryTree
    (Some (mkNode None (Finite 3) 0%Z
       (Some (mkNode (Some (mkNode None (Finite 5) 2%Z None)) Infinity 1%Z None)))).

(** ** The rest of binarysearch.py *)

Section PriorityTreeRest.
Context {P E : Type}.
Variable geb : P → P → bool.

(** [Node.depth]. *)
Fixpoint Node_depth (self : Node P E) : Z :=
  match self with
  | mkNode self_left _ _ self_right =>
      let left_depth :=
        match self_left with Some l => Node_depth l | None => 0%Z end in
      let right_depth :=
        match self_right with Some r => Node_depth r | None => 0%Z end in
      (Z.max left_depth right_depth + 1)%Z
  end.

(** The depth below a child slot: 0 under [None]. *)
Definition slot_depth (o : option (Node P E)) : Z :=
  match o with Some n => Node_depth n | None => 0%Z end.

(** [Node.get_xy_vals]: the list after the call; the method appends to the
    list it is given and returns that list.  A row is [[curr_depth, loc - 1,
    self.value]].  [2**k] is an int for [k >= 0] and the float [1/2**(-k)]
    below; both are exact, and so are the sums with [loc], so the numbers are
    rationals here. *)
Fixpoint Node_get_xy_vals (self : Node P E) (node_yx_vals : list (Z * Q * P))
    (loc : Q) (depth curr_depth : Z) : list (Z * Q * P) :=
  match self with
  | mkNode self_left self_value _ self_right =>
      let node_yx_vals := node_yx_vals ++ [(curr_depth, (loc - 1)%Q, self_value)] in
      let horizontal_move := (2 ^ (depth - (curr_depth + 1) - 1))%Q in
      let node_yx_vals :=
        match self_right with
        | Some r =>
            Node_get_xy_vals r node_yx_vals (loc + horizontal_move)%Q depth
              (curr_depth + 1)%Z
        | None => node_yx_vals
        end in
      let node_yx_vals :=
        match self_left with
        | Some l =>
            Node_get_xy_vals l node_yx_vals (loc - horizontal_move)%Q depth
              (curr_depth + 1)%Z
        | None => node_yx_vals
        end in
      node_yx_vals
  end.

(** The rows [get_xy_vals] adds for a child slot: none under [None]. *)
Definition slot_xy_vals (o : option (Node P E)) (loc : Q) (depth curr_depth : Z) :
    list (Z * Q * P) :=
  match o with
  | Some n => Node_get_xy_vals n [] loc depth curr_depth
  | None => []
  end.

(** The first three statements of [BinaryTree.plot], which compute the list
    of rows handed to matplotlib.  On an empty tree [self.root.depth()]
    raises. *)
Definition BinaryTree_plot_yx_list (self : BinaryTree P E) :
    result (list (Z * Q * P)) :=
  match root self with
  | None => Raise AttributeError
  | Some r =>
      let depth := Node_depth r in
      Ok (Node_get_xy_vals r [] (2 ^ (depth - 1))%Q depth 0%Z)
  end.

(** A run of calls on a tree: the tree at the end and the entries the
    pop_max calls returned, in the order of the calls; [None] when a pop_max
    meets the empty tree. *)
Inductive op : Type :=
  | Insert (p : P) (e : E)
  | PopMax.

Fixpoint run_ops (ops : list op) (t : BinaryTree P E) :
    option (BinaryTree P E * list (P * E)) :=
  match ops with
  | [] => Some (t, [])
  | Insert p e :: ops' => run_ops ops' (BinaryTree_insert geb t p e)
  | PopMax :: ops' =>
      match BinaryTree_pop_max t with
      | None => None
      | Some (pe, t') =>
          match run_ops ops' t' with
          | None => None
          | Some (t'', popped) => Some (t'', pe :: popped)
          end
      end
  end.

(** The entries a run inserts. *)
Fixpoint inserted (ops : list op) : list (P * E) :=
  match ops with
  | [] => []
  | Insert p e :: ops' => (p, e) :: inserted ops'
  | PopMax :: ops' => inserted ops'
  end.

End PriorityTreeRest.

Arguments op : clear implicits.

(** A run with its history written next to it: every inserted payload is
    paired with the number of insert calls made before it, [k] of them before
    the first call of [ops]. *)
Fixpoint stamp_ops {P E : Type} (k : nat) (ops : list (op P E)) :
    list (op P (nat * E)) :=
  match ops with
  | [] => []
  | Insert p e :: ops' => Insert p (k, e) :: stamp_ops (S k) ops'
  | PopMax :: ops' => PopMax :: stamp_ops k ops'
  end.

(** A run of the priority tree used below: three inserts, a pop_max and
    one more insert, and the tree it leaves. *)
Definition stamped_example_ops : list (op priority Z) :=
  [Insert Infinity 7%Z; Insert (Finite 2) 8%Z; Insert Infinity 9%Z; PopMax;
   Insert Infinity 5%Z].

Definition stamped_example_tree : BinaryTree priority (nat * Z) :=
  mkBinaryTree
    (Some (mkNode (Some (mkNode None (Finite 2) (1, 8%Z) None)) Infinity (0, 7%Z)
       (Some (mkNode None Infinity (3, 5%Z) None)))).

(** ** The action handler (actionhandler.py)

    [ActionHandler] and the enum [ActionPolicy].  The numbers of the handler
    ([randVal], the action values) are floats: [V] with Python's [<=], [<]
    and [-] on it, and [np.inf]; a NaN among them is a value that is not
    [<=] itself.  The draws of [np.random] that a call makes
    are arguments of the call here.  [actions] is [None] or the numpy array
    of ALE action ids that [set_legal_actions] stores. *)

Module ActionHandlers.

Inductive ActionPolicy : Set := eGreedy | randVals.

Inductive raised : Set := ValueError | IndexError | TypeError.

Inductive outcome (A : Type) : Type :=
  | Return (a : A)
  | Raises (e : raised).
Arguments Return {A} a.
Arguments Raises {A} e.

(** [arr[i] = x] on a numpy array: a negative index counts from the end, an
    index outside the array raises IndexError ([None] here). *)
Definition np_setitem {A : Type} (arr : list A) (i : Z) (x : A) : option (list A) :=
  if bool_decide (0 ≤ i)%Z then
    if bool_decide (i < Z.of_nat (length arr))%Z then Some (<[Z.to_nat i := x]> arr)
    else None
  else if bool_decide (- Z.of_nat (length arr) ≤ i)%Z
       then Some (<[Z.to_nat (Z.of_nat (length arr) + i) := x]> arr)
       else None.

(** [np.where(cond)[0]] on a one-dimensional boolean array: the indices of
    the true items, in ascending order; [from] is the index of the first
    item. *)
Fixpoint np_where_from (from : Z) (cond : list bool) : list Z :=
  match cond with
  | [] => []
  | c :: cond' =>
      if c then from :: np_where_from (from + 1)%Z cond'
      else np_where_from (from + 1)%Z cond'
  end.

Definition np_where (cond : list bool) : list Z := np_where_from 0%Z cond.

Section Handler.
Context {V : Type}.
Variable leb : V → V → bool.
Variable ltb : V → V → bool.
Variable sub : V → V → V.
Variable inf : V.
(** [np.linspace(start, stop, num)], and [action_values + noise * randVal]
    with its broadcasting; both are left to numpy. *)
Variable linspace : V → V → Z → outcome (list V).
Variable add_noise : list V → list V → V → outcome (list V).

(** [x == y] on floats, from [<=]. *)
Definition eqb (x y : V) : bool := leb x y && leb y x.

(** NaN is the one float that is not [<=] itself. *)
Definition isnan (x : V) : bool := negb (leb x x).

(** [np.maximum(m, y)]: [m] when [m >= y] or [m] is NaN, else [y]; a NaN
    on either side is the result. *)
Definition np_maximum (m y : V) : V := if leb y m || isnan m then m else y.

(** [np.max(arr)], the reduction of the array by [np.maximum]: [None] on
    the empty array, where numpy raises ValueError, and NaN when an item is
    NaN. *)
Definition np_max (arr : list V) : option V :=
  match arr with
  | [] => None
  | x :: arr' => Some (foldl np_maximum x arr')
  end.

Record ActionHandler : Type := mkActionHandler {
  actionPolicy : ActionPolicy;
  randVal : V;
  lowestRandVal : V;
  diff : V;
  countRand : Z;
  actionCount : Z;
  actions : option (list Z);
  numActions : Z
}.

(** [ActionHandler.__init__(action_policy, random_values, actions)] with
    [random_values = (rv0, rv1, rv2)]. *)
Definition ActionHandler_init (action_policy : ActionPolicy) (rv0 rv1 : V) (rv2 : Z)
    (actions : option (list Z)) : outcome ActionHandler :=
  match linspace rv0 rv1 rv2 with
  | Raises e => Raises e
  | Return lin =>
      match py_getitem lin 0, py_getitem lin 1 with
      | Some lin0, Some lin1 =>
          Return (mkActionHandler action_policy rv0 rv1 (sub lin0 lin1) 0 0 actions
                    match actions with
                    | Some a => Z.of_nat (length a)
                    | None => 0%Z
                    end)
      | _, _ => Raises IndexError
      end
  end.

(** What [np.random] hands to one call of [get_action]: the value of
    [np.random.uniform(0, 1)], of [np.random.randint(self.numActions)] and of
    [np.random.randn(self.numActions)]. *)
Record draws : Type := mkDraws {
  uniform : V;
  randint : Z;
  randn : list V
}.

(** The stochastic part of [get_action]: the handler and the array after
    it. *)
Definition explore (self : ActionHandler) (action_values : list V) (d : draws) :
    outcome unit * ActionHandler * list V :=
  match actionPolicy self with
  | eGreedy =>
      if leb (uniform d) (randVal self) then
        if bool_decide (numActions self ≤ 0)%Z
        then (Raises ValueError, self, action_values)
        else
          match np_setitem action_values (randint d) inf with
          | None => (Raises IndexError, self, action_values)
          | Some action_values' =>
              (Return (),
               mkActionHandler (actionPolicy self) (randVal self) (lowestRandVal self)
                 (diff self) (countRand self + 1)%Z (actionCount self)
                 (actions self) (numActions self),
               action_values')
          end
      else (Return (), self, action_values)
  | randVals =>
      if bool_decide (numActions self < 0)%Z
      then (Raises ValueError, self, action_values)
      else
        match add_noise action_values (randn d) (randVal self) with
        | Raises e => (Raises e, self, action_values)
        | Return action_values' => (Return (), self, action_values')
        end
  end.

(** [get_action(action_values, random)]: the returned index, the handler
    after the call and the array after the call, which the call changes in
    place. *)
Definition get_action (self : ActionHandler) (action_values : list V)
    (random : bool) (d : draws) : outcome Z * ActionHandler * list V :=
  let '(r, self, action_values) :=
    if random then explore self action_values d
    else (Return (), self, action_values) in
  match r with
  | Raises e => (Raises e, self, action_values)
  | Return _ =>
      match np_max action_values with
      | None => (Raises ValueError, self, action_values)
      | Some m =>
          match np_where (eqb m <$> action_values) with
          | [] => (Raises IndexError, self, action_values)
          | action :: _ =>
              (Return action,
               mkActionHandler (actionPolicy self) (randVal self) (lowestRandVal self)
                 (diff self) (countRand self) (actionCount self + 1)%Z
                 (actions self) (numActions self),
               action_values)
          end
      end
  end.

Definition anneal (self : ActionHandler) : ActionHandler :=
  let randVal' := sub (randVal self) (diff self) in
  mkActionHandler (actionPolicy self)
    (if ltb randVal' (lowestRandVal self) then lowestRandVal self else randVal')
    (lowestRandVal self) (diff self) (countRand self) (actionCount self)
    (actions self) (numActions self).

Definition set_legal_actions (self : ActionHandler) (legal_actions : list Z) :
    ActionHandler :=
  mkActionHandler (actionPolicy self) (randVal self) (lowestRandVal self)
    (diff self) (countRand self) (actionCount self)
    (Some legal_actions) (Z.of_nat (length legal_actions)).



(** The calls made on a handler over time. *)
Inductive call : Type :=
  | GetAction (action_values : list V) (random : bool) (d : draws)
  | Anneal
  | SetLegalActions (legal_actions : list Z).

Definition after_call (self : ActionHandler) (c : call) : ActionHandler :=
  match c with
  | GetAction action_values random d => (get_action self action_values random d).1.2
  | Anneal => anneal self
  | SetLegalActions legal_actions => set_legal_actions self legal_actions
  end.

End Handler.

Arguments ActionHandler : clear implicits.
Arguments draws : clear implicits.
Arguments call : clear implicits.

End ActionHandlers.

(** ** The game handler (gamehandler.py)

    [GameHandler.run_one_game].  The emulator [self.ale] and the learner are
    objects of other libraries: their methods are parameters, each taking the
    object and returning it after the call; [getScreenRGB], [getRAM] and
    [game_over] only read the emulator.  The image pipeline of one frame
    ([imresize] of the cropped screen, divided by 255) is [process], and the
    numpy [reshape] of the frames before they go to the learner is [reshape];
    on an empty list of frames [frames.shape[1]] raises before it.  The
    rewards are whole numbers, and so is their float sum.

    [GameHandlerRam] and [GameHandlerReccurentRam] pass one argument too many
    to [GameHandler.__init__] and read [self.actionHandler], which nothing
    sets; they are left out. *)

Module GameHandlers.

Section Handler.
Context {ale screen img netinput learner : Type}.
Variable ale_reset_game : ale → ale.
Variable ale_game_over : ale → bool.
Variable ale_getScreenRGB : ale → screen.
Variable ale_act : ale → Z → Z * ale.
Variable ale_getRAM : ale → list Z.
Variable process : screen → img.
Variable reshape : Z → list img → result netinput.
Variable learner_frames_processed : learner → list img → Z → Z → learner.
Variable learner_get_game_action : learner → netinput → Z * learner.

(** The variables of the frame-skip loop. *)
Record frame_vars : Type := mkFrameVars {
  fv_ale : ale;
  frames : list img;
  reward : Z;
  lives : option Z
}.

(** One turn of [for frame in range(self.skipFrame)].  [neg_reward] holds
    when both [lives] and [life_ram_ind] are given. *)
Definition frame_turn (action_to_perform : Z) (life_ram_ind : option Z)
    (v : frame_vars) : result frame_vars :=
  let gamescreen := ale_getScreenRGB (fv_ale v) in
  let frames := frames v ++ [process gamescreen] in
  let '(rew, a) := ale_act (fv_ale v) action_to_perform in
  let reward := if bool_decide (rew > 0)%Z then (reward v + 1)%Z else reward v in
  match lives v, life_ram_ind with
  | Some lv, Some ind =>
      match py_getitem (ale_getRAM a) ind with
      | None => Raise IndexError
      | Some cell =>
          if bool_decide (cell < lv)%Z
          then Ok (mkFrameVars a frames (reward - 1)%Z (Some cell))
          else Ok (mkFrameVars a frames reward (Some lv))
      end
  | _, _ => Ok (mkFrameVars a frames reward (lives v))
  end.

Fixpoint frame_loop (n : nat) (action_to_perform : Z) (life_ram_ind : option Z)
    (v : frame_vars) : result frame_vars :=
  match n with
  | 0 => Ok v
  | S n' =>
      match frame_turn action_to_perform life_ram_ind v with
      | Raise e => Raise e
      | Ok v' => frame_loop n' action_to_perform life_ram_ind v'
      end
  end.

(** The handler, the learner and the variables of [run_one_game] between
    two turns of its while loop.  [steps] is not a variable of the code: it
    records, for each finished turn, the action performed, the reward handed
    to [frames_processed] and the action [get_game_action] answered. *)
Record game : Type := mkGame {
  g_ale : ale;
  skipFrame : Z;
  frameCount : Z;
  g_learner : learner;
  total_reward : Z;
  action_to_perform : Z;
  g_lives : option Z;
  steps : list (Z * Z * Z)
}.

(** One turn of [while not self.ale.game_over()]: [inl] when the turn
    returns from the method, [inr] when the loop goes on. *)
Definition game_turn (life_ram_ind : option Z) (early_return : bool) (g : game) :
    result (Z * game + game) :=
  match frame_loop (Z.to_nat (skipFrame g)) (action_to_perform g) life_ram_ind
          (mkFrameVars (g_ale g) [] 0%Z (g_lives g)) with
  | Raise e => Raise e
  | Ok v =>
      let total := (total_reward g + reward v)%Z in
      let learner1 :=
        learner_frames_processed (g_learner g) (frames v) (action_to_perform g)
          (reward v) in
      match frames v with
      | [] => Raise IndexError
      | _ :: _ =>
          match reshape (skipFrame g) (frames v) with
          | Raise e => Raise e
          | Ok inp =>
              let '(next, learner2) := learner_get_game_action learner1 inp in
              let g' :=
                mkGame (fv_ale v) (skipFrame g) (frameCount g + 1 * skipFrame g)%Z
                  learner2 total next (lives v)
                  (steps g ++ [(action_to_perform g, reward v, next)]) in
              if bool_decide (reward v < 0)%Z && early_return
              then Ok (inl (total, g'))
              else Ok (inr g')
          end
      end
  end.

(** The while loop, for at most [fuel] turns: [None] when the game is not
    over by then. *)
Fixpoint game_loop (fuel : nat) (life_ram_ind : option Z) (early_return : bool)
    (g : game) : option (result (Z * game)) :=
  match fuel with
  | 0 => None
  | S fuel' =>
      if ale_game_over (g_ale g) then Some (Ok (total_reward g, g))
      else
        match game_turn life_ram_ind early_return g with
        | Raise e => Some (Raise e)
        | Ok (inl ret) => Some (Ok ret)
        | Ok (inr g') => game_loop fuel' life_ram_ind early_return g'
        end
  end.

(** [run_one_game(learner, lives, life_ram_ind, early_return)] on a handler
    with emulator [a], [skipFrame] and [frameCount]. *)
Definition run_one_game (fuel : nat) (a : ale) (skip_frame frame_count : Z)
    (l : learner) (lives life_ram_ind : option Z) (early_return : bool) :
    option (result (Z * game)) :=
  game_loop fuel
    match lives, life_ram_ind with
    | Some _, Some ind => Some ind
    | _, _ => None
    end
    early_return
    (mkGame (ale_reset_game a) skip_frame frame_count l 0%Z 0%Z
       match lives, life_ram_ind with
       | Some lv, Some _ => Some lv
       | _, _ => None
       end
       []).

(** The actions of the recorded steps follow each other: each step performs
    the action answered by the step before it, the first one [first]. *)
Fixpoint chained (first : Z) (steps : list (Z * Z * Z)) : Prop :=
  match steps with
  | [] => True
  | (action, _, answer) :: steps' => action = first ∧ chained answer steps'
  end.

End Handler.

Arguments frame_vars : clear implicits.
Arguments game : clear implicits.

(** A scripted emulator for the runs below: the pending frames, each with
    its reward and the number of lives that RAM cell 0 holds after it. *)
Definition toy_ale : Type := Z * list (Z * Z).

Definition toy_act (a : toy_ale) (action : Z) : Z * toy_ale :=
  match a.2 with
  | [] => (0%Z, a)
  | (rew, lv) :: script => (rew, (lv, script))
  end.

Definition toy_game_over (a : toy_ale) : bool := bool_decide (a.2 = []).

Definition toy_run (fuel : nat) (a : toy_ale) (skip_frame : Z)
    (lives life_ram_ind : option Z) (early_return : bool) :
    option (result (Z * game toy_ale unit)) :=
  run_one_game (λ a, a) toy_game_over
    (λ _, ()) toy_act (λ a : toy_ale, [a.1]) (λ _, ())
    (λ _ (fr : list unit), Ok fr)
    (λ (l : unit) _ _ _, l) (λ (l : unit) (inp : list unit), (7%Z, l))
    fuel a skip_frame 0%Z () lives life_ram_ind early_return.

End GameHandlers.

(** *** Handlers and games used in the runs below *)

(** [<=] on priorities. *)
Definition priority_leb (a b : priority) : bool := priority_geb b a.

(** An eGreedy handler over whole numbers, with [randVal] 10, floor 1 and
    step 4, and one over priorities, where [np.inf] exists. *)
Definition toy_handler : ActionHandlers.ActionHandler Z :=
  ActionHandlers.mkActionHandler ActionHandlers.eGreedy 10%Z 1%Z 4%Z 0%Z 0%Z
    (Some [0; 1; 3; 4]%Z) 4%Z.

Definition toy_policy_handler : ActionHandlers.ActionHandler priority :=
  ActionHandlers.mkActionHandler ActionHandlers.eGreedy (Finite 1) (Finite 0)
    (Finite 0) 0%Z 0%Z (Some [0; 1; 3; 4]%Z) 4%Z.

(** The calls of a run on the handler over priorities: a random pick,
    an anneal and a call on an empty array, which raises. *)
Definition toy_calls : list (ActionHandlers.call priority) :=
  [ActionHandlers.GetAction [Finite 3; Finite 9] true
     (ActionHandlers.mkDraws (Finite 0) 1%Z []);
   ActionHandlers.Anneal;
   ActionHandlers.GetAction [] false (ActionHandlers.mkDraws (Finite 0) 1%Z [])].

(** Floats with a NaN: whole numbers, [np.inf], and NaN, which is [<=]
    nothing and which nothing is [<=]. *)
Inductive float_or_nan : Set := Num (z : Z) | PosInf | NaN.

Definition float_leb (x y : float_or_nan) : bool :=
  match x, y with
  | Num a, Num b => bool_decide (a ≤ b)%Z
  | Num _, PosInf => true
  | PosInf, PosInf => true
  | _, _ => false
  end.

Definition nan_handler : ActionHandlers.ActionHandler float_or_nan :=
  ActionHandlers.mkActionHandler ActionHandlers.eGreedy (Num 1) (Num 0) (Num 0)
    0%Z 0%Z (Some [0; 1; 3; 4]%Z) 4%Z.

(** A game of six frames that starts with three lives and loses two. *)
Definition toy_script : GameHandlers.toy_ale :=
  (3, [(5, 3); (0, 3); (0, 2); (0, 2); (0, 1); (2, 1)])%Z.

Definition toy_game_early : GameHandlers.game GameHandlers.toy_ale unit :=
  GameHandlers.mkGame (2, [(0, 1); (2, 1)])%Z 2%Z 4%Z () 0%Z 7%Z (Some 2%Z)
    [(0, 1, 7); (7, -1, 7)]%Z.

Definition toy_game_plain : GameHandlers.game GameHandlers.toy_ale unit :=
  GameHandlers.mkGame (1, [])%Z 2%Z 6%Z () 2%Z 7%Z None
    [(0, 1, 7); (7, 0, 7); (7, 1, 7)]%Z.

(** * Properties *)

#[local] Set Default Proof Using "Type".

(** ** The priority tree *)

Section TreeFacts.
Context {P E : Type}.
Variable geb : P → P → bool.
Implicit Types (n : Node P E) (o hl : option (Node P E)) (t : BinaryTree P E).
Implicit Types (path : list (option (Node P E) * P * E)) (v p : P) (e : E).

Ltac in_entries := rewrite ?elem_of_app, ?elem_of_cons; auto.

Lemma Node_entries_unfold l v e r :
  Node_entries (mkNode l v e r) = slot_entries l ++ (v, e) :: slot_entries r.
Proof. by destruct l, r. Qed.

Lemma plug_entries path o :
  slot_entries (plug path o) = path_entries path ++ slot_entries o.
Proof.
  induction path as [|[[l v] e] path IH]; [done|].
  cbn [plug path_entries slot_entries].
  rewrite Node_entries_unfold, IH, <- app_assoc. done.
Qed.

(** What [Node.pop_max] returns and how it leaves the node. *)
Lemma Node_pop_max_spec n :
  ∃ path hl p e,
    Some n = plug path (Some (mkNode hl p e None))
    ∧ match path with
      | [] => Node_pop_max n = ((p, e, hl, true), n)
      | _ :: _ => ∃ n', Node_pop_max n = ((p, e, hl, false), n')
                        ∧ Some n' = plug path hl
      end.
Proof.
  induction n as [l v e r _ IHr] using Node_ind'.
  destruct r as [r0|].
  - destruct IHr as (path & hl & p & e' & Hplug & Hpop).
    exists ((l, v, e) :: path), hl, p, e'. split.
    + cbn [plug]. by rewrite <- Hplug.
    + cbn [Node_pop_max]. destruct path as [|a path].
      * rewrite Hpop. eexists; split; [done|]. done.
      * destruct Hpop as (n' & -> & Hn'). eexists; split; [done|].
        cbn [plug] in *. by rewrite <- Hn'.
  - exists [], l, v, e. done.
Qed.

(** [BinaryTree.pop_max] on a non-empty tree: the removed node ends the
    rightmost path and has no right child; its left subtree takes its
    slot. *)
Lemma BinaryTree_pop_max_spec t :
  root t ≠ None →
  ∃ path hl p e,
    root t = plug path (Some (mkNode hl p e None))
    ∧ BinaryTree_pop_max t = Some ((p, e), mkBinaryTree (plug path hl)).
Proof.
  destruct t as [[n|]]; [intros _|done].
  destruct (Node_pop_max_spec n) as (path & hl & p & e & Hplug & Hpop).
  exists path, hl, p, e. split; [done|].
  unfold BinaryTree_pop_max; cbn [root].
  destruct path as [|a path].
  - by rewrite Hpop.
  - destruct Hpop as (n' & -> & Hn'). by rewrite Hn'.
Qed.

Lemma BinaryTree_pop_max_None t :
  BinaryTree_pop_max t = None ↔ root t = None.
Proof.
  split.
  - intros Hpop. destruct (root t) eqn:Hroot; [|done].
    destruct (BinaryTree_pop_max_spec t) as (? & ? & ? & ? & _ & Heq);
      [by rewrite Hroot|congruence].
  - intros Hroot. unfold BinaryTree_pop_max. by rewrite Hroot.
Qed.

(** *** The invariant scheme under insert and pop_max *)

Section Scheme.
Variables L R : P * E → P * E → Prop.

Lemma slot_inv_unfold l v e r :
  Node_inv L R (mkNode l v e r) ↔
  Forall (L (v, e)) (slot_entries l) ∧ Forall (R (v, e)) (slot_entries r)
  ∧ slot_inv L R l ∧ slot_inv L R r.
Proof. done. Qed.

Lemma slot_inv_unplug path hl p e :
  slot_inv L R (plug path (Some (mkNode hl p e None))) →
  slot_inv L R (plug path hl).
Proof.
  induction path as [|[[l v] e0] path IH]; cbn [plug slot_inv].
  - rewrite slot_inv_unfold. by intros (_ & _ & H & _).
  - rewrite !slot_inv_unfold, !plug_entries. cbn [slot_entries].
    rewrite Node_entries_unfold. cbn [slot_entries].
    intros (Hl & Hr & Il & Ir). repeat split; [done| |done|by apply IH].
    rewrite Forall_app in Hr. destruct Hr as [Hr1 Hr2].
    rewrite Forall_app in Hr2. rewrite Forall_app. by destruct Hr2.
Qed.

Lemma Node_insert_entries n p e :
  ∃ l1 l2, Node_entries n = l1 ++ l2
           ∧ Node_entries (Node_insert geb n p e) = l1 ++ (p, e) :: l2.
Proof.
  induction n as [l v e0 r IHl IHr] using Node_ind'.
  cbn [Node_insert]. destruct (geb p v).
  - destruct r as [r0|]; rewrite !Node_entries_unfold; cbn [slot_entries].
    + destruct IHr as (l1 & l2 & -> & ->).
      exists (slot_entries l ++ (v, e0) :: l1), l2.
      by rewrite <- !app_assoc.
    + exists (slot_entries l ++ [(v, e0)]), []. rewrite <- !app_assoc. done.
  - destruct l as [l0|]; rewrite !Node_entries_unfold; cbn [slot_entries].
    + destruct IHl as (l1 & l2 & -> & ->).
      exists l1, (l2 ++ (v, e0) :: slot_entries r).
      by rewrite <- !app_assoc.
    + by exists [], ((v, e0) :: slot_entries r).
Qed.

Lemma Node_insert_inv n p e :
  (∀ x, x ∈ Node_entries n →
        (geb p x.1 = true → R x (p, e)) ∧ (geb p x.1 = false → L x (p, e))) →
  Node_inv L R n → Node_inv L R (Node_insert geb n p e).
Proof.
  induction n as [l v e0 r IHl IHr] using Node_ind'.
  rewrite Node_entries_unfold. intros Hnew.
  rewrite slot_inv_unfold. intros (Hl & Hr & Il & Ir).
  assert (Hv := Hnew (v, e0)). cbn [fst] in Hv.
  cbn [Node_insert]. destruct (geb p v) eqn:Hcmp.
  - assert (R (v, e0) (p, e)) as Hp by (apply Hv; [in_entries|done]).
    destruct r as [r0|]; rewrite slot_inv_unfold;
      cbn [slot_entries slot_inv slot_holds] in Hr, Ir, IHr |- *.
    + destruct (Node_insert_entries r0 p e) as (l1 & l2 & H1 & H2).
      rewrite H2. rewrite H1 in Hr. repeat split; [done| |done|].
      * rewrite Forall_app in Hr. rewrite Forall_app, Forall_cons. by destruct Hr.
      * apply IHr; [|done]. intros x Hx. apply Hnew. in_entries.
    + repeat split; try done. rewrite Node_entries_unfold. cbn. by constructor.
  - assert (L (v, e0) (p, e)) as Hp by (apply Hv; [in_entries|done]).
    destruct l as [l0|]; rewrite slot_inv_unfold;
      cbn [slot_entries slot_inv slot_holds] in Hl, Il, IHl |- *.
    + destruct (Node_insert_entries l0 p e) as (l1 & l2 & H1 & H2).
      rewrite H2. rewrite H1 in Hl. repeat split; [|done| |done].
      * rewrite Forall_app in Hl. rewrite Forall_app, Forall_cons. by destruct Hl.
      * apply IHl; [|done]. intros x Hx. apply Hnew. in_entries.
    + repeat split; try done. rewrite Node_entries_unfold. cbn. by constructor.
Qed.

End Scheme.

(** *** Trees built by insert and pop_max calls *)

Lemma entries_pop_max t pe t' :
  BinaryTree_pop_max t = Some (pe, t') → entries t = entries t' ++ [pe].
Proof.
  intros Hpop.
  destruct (BinaryTree_pop_max_spec t) as (path & hl & p & e & Hroot & Heq).
  { intros Hnone. apply BinaryTree_pop_max_None in Hnone. congruence. }
  rewrite Hpop in Heq. injection Heq as -> ->.
  unfold entries. cbn [root]. rewrite Hroot, !plug_entries.
  cbn [slot_entries]. rewrite Node_entries_unfold. cbn [slot_entries].
  by rewrite <- !app_assoc.
Qed.

Lemma entries_insert t p e :
  ∃ l1 l2, entries t = l1 ++ l2
           ∧ entries (BinaryTree_insert geb t p e) = l1 ++ (p, e) :: l2.
Proof.
  destruct t as [[n|]]; unfold BinaryTree_insert, entries; cbn [root slot_entries].
  - apply Node_insert_entries.
  - by exists [], [].
Qed.

Lemma root_insert t p e : root (BinaryTree_insert geb t p e) ≠ None.
Proof. unfold BinaryTree_insert. by destruct (root t). Qed.

Lemma inserts_snoc (ops : list (P * E)) p e :
  inserts geb (ops ++ [(p, e)]) = BinaryTree_insert geb (inserts geb ops) p e.
Proof. unfold inserts. by rewrite foldl_app. Qed.

Lemma inserts_reachable (ops : list (P * E)) : reachable geb (inserts geb ops).
Proof.
  induction ops as [|[p e] ops IH] using rev_ind; [constructor|].
  rewrite inserts_snoc. by constructor.
Qed.

Lemma inserts_root (ops : list (P * E)) : ops ≠ [] → root (inserts geb ops) ≠ None.
Proof.
  destruct ops as [|[p e] ops _] using rev_ind; [done|intros _].
  rewrite inserts_snoc. apply root_insert.
Qed.

Lemma inserts_entries (ops : list (P * E)) : entries (inserts geb ops) ≡ₚ ops.
Proof.
  induction ops as [|[p e] ops IH] using rev_ind; [done|].
  rewrite inserts_snoc.
  destruct (entries_insert (inserts geb ops) p e) as (l1 & l2 & H1 & ->).
  rewrite <- IH, H1. by rewrite <- Permutation_middle, Permutation_cons_append.
Qed.

(** *** Order *)

Section Order.
Hypothesis geb_total : ∀ a b : P, geb a b = true ∨ geb b a = true.

Lemma insert_ordered t p e :
  ordered geb t → ordered geb (BinaryTree_insert geb t p e).
Proof using geb_total.
  destruct t as [[n|]]; unfold ordered, BinaryTree_insert; cbn [root slot_inv].
  - apply Node_insert_inv. intros x _. unfold above, below. cbn [fst]. split.
    + done.
    + intros Hlt. destruct (geb_total p x.1); congruence.
  - intros _. cbn. repeat split; constructor.
Qed.

Lemma pop_max_ordered t pe t' :
  ordered geb t → BinaryTree_pop_max t = Some (pe, t') → ordered geb t'.
Proof.
  intros Hord Hpop.
  destruct (BinaryTree_pop_max_spec t) as (path & hl & p & e & Hroot & Heq).
  { intros Hnone. apply BinaryTree_pop_max_None in Hnone. congruence. }
  rewrite Hpop in Heq. injection Heq as -> ->.
  unfold ordered in *. cbn [root]. rewrite Hroot in Hord.
  by eapply slot_inv_unplug.
Qed.

Lemma ordered_invariant t : reachable geb t → ordered geb t.
Proof using geb_total.
  induction 1 as [|t p e _ IH|t pe t' _ IH Hpop].
  - exact I.
  - by apply insert_ordered.
  - by eapply pop_max_ordered.
Qed.

(** C2: every tree reachable from the empty tree by insert and pop_max
    calls satisfies the ordering invariant of a binary search tree: at every
    node, the priorities in the left subtree are [<=] the node's priority and
    the priorities in the right subtree are [>=] it. *)
Theorem reachable_ordered t : reachable geb t → ordered geb t.
Proof using geb_total.
  intros Hreach. induction Hreach as [|t p e Hreach IH|t pe t' Hreach IH Hpop].
  - unfold ordered, BinaryTree_init. cbn [root slot_inv]. exact I.
  - apply insert_ordered. exact IH.
  - apply (pop_max_ordered t pe t'); [exact IH|exact Hpop].
Qed.

Hypothesis geb_trans :
  ∀ a b c : P, geb a b = true → geb b c = true → geb a c = true.

(** In an ordered tree the node that ends the rightmost path holds a
    priority [>=] every priority of the tree. *)
Lemma rightmost_max path hl p e :
  slot_inv (below geb) (above geb) (plug path (Some (mkNode hl p e None))) →
  Forall (λ q, geb p q.1 = true)
    (slot_entries (plug path (Some (mkNode hl p e None)))).
Proof using geb_total geb_trans.
  induction path as [|[[l v] e0] path IH]; cbn [plug slot_inv slot_entries].
  - rewrite slot_inv_unfold, Node_entries_unfold. cbn [slot_entries].
    intros (Hl & _). rewrite Forall_app, Forall_singleton. split; [done|].
    cbn [fst]. by destruct (geb_total p p).
  - rewrite slot_inv_unfold, Node_entries_unfold. intros (Hl & Hr & _ & Ir).
    assert (geb p v = true) as Hpv.
    { rewrite plug_entries in Hr. cbn [slot_entries] in Hr.
      rewrite Node_entries_unfold in Hr. rewrite !Forall_app in Hr.
      destruct Hr as (_ & _ & Hr). by apply Forall_cons in Hr as [Hr _]. }
    rewrite Forall_app, Forall_cons. repeat split; [|done|by apply IH].
    eapply Forall_impl; [exact Hl|]. intros x Hx. by eapply geb_trans.
Qed.

(** C1: on a non-empty tree built by insert calls, pop_max returns the
    entry of the node that ends the rightmost path; its priority is [>=]
    every priority held, the entries left are the entries held before without
    that one, and the left subtree of the removed node takes its place in the
    right-child slot of its parent (in the root slot when the root itself is
    removed). *)
Theorem pop_max_returns_max (ops : list (P * E)) :
  ops ≠ [] →
  ∃ path hl p e,
    root (inserts geb ops) = plug path (Some (mkNode hl p e None))
    ∧ BinaryTree_pop_max (inserts geb ops)
      = Some ((p, e), mkBinaryTree (plug path hl))
    ∧ (∀ q, q ∈ entries (inserts geb ops) → geb p q.1 = true)
    ∧ entries (inserts geb ops) = entries (mkBinaryTree (plug path hl)) ++ [(p, e)].
Proof using geb_total geb_trans.
  intros Hops.
  destruct (BinaryTree_pop_max_spec (inserts geb ops))
    as (path & hl & p & e & Hroot & Hpop); [by apply inserts_root|].
  exists path, hl, p, e. repeat split; [done|done| |by apply entries_pop_max].
  assert (Hord := ordered_invariant _ (inserts_reachable ops)).
  unfold ordered, entries in *. rewrite Hroot in Hord |- *.
  apply Forall_forall. by apply rightmost_max.
Qed.

End Order.

End TreeFacts.

(** ** Equal priorities leave in reverse order of insertion *)

Section StampFacts.
Context {P E : Type}.
Variable geb : P → P → bool.
Implicit Types (t : BinaryTree P (nat * E)) (p : P) (e : E) (k : nat).

Lemma stamped_reachable k t : stamped geb k t → reachable geb t.
Proof. induction 1; econstructor; eauto. Qed.

(** Erasing the stamps commutes with both operations, so a stamped run is
    the run of the plain tree with the history written next to it. *)
Lemma Node_erase_insert (n : Node P (nat * E)) p (x : nat * E) :
  Node_erase (Node_insert geb n p x) = Node_insert geb (Node_erase n) p x.2.
Proof.
  induction n as [l v e0 r IHl IHr] using Node_ind'.
  cbn [Node_insert Node_erase]. destruct (geb p v).
  - destruct r as [r0|]; cbn [Node_erase slot_holds] in *; [by rewrite IHr|done].
  - destruct l as [l0|]; cbn [Node_erase slot_holds] in *; [by rewrite IHl|done].
Qed.

Lemma erase_insert t p (x : nat * E) :
  erase (BinaryTree_insert geb t p x) = BinaryTree_insert geb (erase t) p x.2.
Proof.
  destruct t as [[n|]]; unfold erase, BinaryTree_insert; cbn [root erase_slot]; [|done].
  by rewrite Node_erase_insert.
Qed.

Lemma Node_erase_pop_max (n : Node P (nat * E)) :
  Node_pop_max (Node_erase n) =
  let '((p, x, hl, term), n') := Node_pop_max n in
  ((p, x.2, erase_slot hl, term), Node_erase n').
Proof.
  induction n as [l v e0 r IHl IHr] using Node_ind'.
  destruct r as [r0|]; cbn [Node_erase Node_pop_max slot_holds] in *; [|done].
  rewrite IHr. destruct (Node_pop_max r0) as [[[[p x] hl] term] n'].
  by destruct term.
Qed.

Lemma erase_pop_max t :
  BinaryTree_pop_max (erase t) =
  match BinaryTree_pop_max t with
  | Some ((p, x), t') => Some ((p, x.2), erase t')
  | None => None
  end.
Proof.
  destruct t as [[n|]]; unfold erase, BinaryTree_pop_max; cbn [root erase_slot]; [|done].
  rewrite Node_erase_pop_max.
  destruct (Node_pop_max n) as [[[[p x] hl] term] n']. by destruct term.
Qed.

Lemma stamped_erase k t : stamped geb k t → reachable geb (erase t).
Proof.
  induction 1 as [|k t p e _ IH|k t [p x] t' _ IH Hpop].
  - constructor.
  - rewrite erase_insert. by constructor.
  - eapply reachable_pop_max; [exact IH|]. rewrite erase_pop_max, Hpop. done.
Qed.

Lemma reachable_stamped (u : BinaryTree P E) :
  reachable geb u → ∃ k t, stamped geb k t ∧ erase t = u.
Proof.
  induction 1 as [|u p e _ (k & t & Hst & <-)|u [p e] u' _ (k & t & Hst & <-) Hpop].
  - exists 0, BinaryTree_init. split; [constructor|done].
  - exists (S k), (BinaryTree_insert geb t p (k, e)). split; [by constructor|].
    by rewrite erase_insert.
  - rewrite erase_pop_max in Hpop.
    destruct (BinaryTree_pop_max t) as [[[q x] t']|] eqn:Ht; [|done].
    injection Hpop as _ _ <-. exists k, t'. split; [|done].
    by eapply stamped_pop_max.
Qed.

(** The invariant of stamped trees. *)
Lemma stamped_inv k t :
  stamped geb k t →
  slot_inv (strictly_below geb) (above_later geb) (root t)
  ∧ Forall (λ x, x.2.1 < k) (entries t).
Proof.
  induction 1 as [|k t p e _ [IH1 IH2]|k t pe t' _ [IH1 IH2] Hpop].
  - split; [exact I|constructor].
  - split.
    + destruct t as [[n|]]; unfold BinaryTree_insert; cbn [root slot_inv] in *.
      * apply Node_insert_inv; [|done]. intros x Hx.
        unfold above_later, strictly_below. cbn [fst snd].
        rewrite Forall_forall in IH2. specialize (IH2 x Hx). cbn in IH2. by split.
      * cbn. repeat split; constructor.
    + destruct (entries_insert geb t p (k, e)) as (l1 & l2 & H1 & ->).
      rewrite H1 in IH2. rewrite Forall_app in IH2. destruct IH2 as [Ha Hb].
      rewrite Forall_app, Forall_cons. cbn [fst snd]. repeat split; [|lia|].
      * eapply Forall_impl; [exact Ha|]. cbn. lia.
      * eapply Forall_impl; [exact Hb|]. cbn. lia.
  - pose proof (entries_pop_max _ _ _ Hpop) as Hent.
    destruct (BinaryTree_pop_max_spec t) as (path & hl & p & e & Hroot & Heq).
    { intros Hnone. apply BinaryTree_pop_max_None in Hnone. congruence. }
    rewrite Hpop in Heq. injection Heq as -> ->. split.
    + cbn [root]. rewrite Hroot in IH1. by eapply slot_inv_unplug.
    + rewrite Hent, Forall_app in IH2. by destruct IH2.
Qed.

Section Order.
Hypothesis geb_trans :
  ∀ a b c : P, geb a b = true → geb b c = true → geb a c = true.

Lemma rightmost_latest (path : list (option (Node P (nat * E)) * P * (nat * E)))
    hl p (x : nat * E) :
  slot_inv (strictly_below geb) (above_later geb)
    (plug path (Some (mkNode hl p x None))) →
  Forall (λ q, geb q.1 p = true → q.2.1 < x.1)
    (path_entries path ++ slot_entries hl).
Proof using geb_trans.
  induction path as [|[[l v] y] path IH]; cbn [plug slot_inv path_entries].
  - rewrite slot_inv_unfold. intros (Hl & _). cbn [app].
    eapply Forall_impl; [exact Hl|]. unfold strictly_below. cbn [fst].
    intros q Hq Hge. congruence.
  - rewrite slot_inv_unfold. intros (Hl & Hr & _ & Ir).
    assert (geb p v = true ∧ y.1 < x.1) as [Hpv Hyx].
    { rewrite plug_entries in Hr. cbn [slot_entries] in Hr.
      rewrite Node_entries_unfold in Hr. rewrite !Forall_app in Hr.
      destruct Hr as (_ & _ & Hr). by apply Forall_cons in Hr as [Hr _]. }
    rewrite <- !app_assoc, Forall_app. cbn [app]. rewrite Forall_cons.
    repeat split; [|done|by apply IH].
    eapply Forall_impl; [exact Hl|]. unfold strictly_below. cbn [fst].
    intros q Hq Hge. rewrite (geb_trans _ _ _ Hge Hpv) in Hq. done.
Qed.

Hypothesis geb_total : ∀ a b : P, geb a b = true ∨ geb b a = true.

(** On a stamped tree that is not empty, pop_max returns an entry of
    maximal priority, and every entry left in the tree whose priority is [>=]
    the returned one carries a smaller stamp. *)
Lemma stamped_pop_max_latest k t :
  stamped geb k t → root t ≠ None →
  ∃ p k0 e t',
    BinaryTree_pop_max t = Some ((p, (k0, e)), t')
    ∧ entries t = entries t' ++ [(p, (k0, e))]
    ∧ (∀ q, q ∈ entries t → geb p q.1 = true)
    ∧ (∀ q, q ∈ entries t' → geb q.1 p = true → q.2.1 < k0).
Proof using geb_total geb_trans.
  intros Hst Hroot.
  destruct (BinaryTree_pop_max_spec t Hroot) as (path & hl & p & [k0 e] & Hplug & Hpop).
  exists p, k0, e, (mkBinaryTree (plug path hl)).
  repeat split; [done|by apply entries_pop_max| |].
  - pose proof (ordered_invariant geb geb_total t (stamped_reachable _ _ Hst)) as Hord.
    unfold ordered, entries in *. rewrite Hplug in *.
    apply Forall_forall. by apply rightmost_max.
  - destruct (stamped_inv _ _ Hst) as [Hinv _]. rewrite Hplug in Hinv.
    apply rightmost_latest in Hinv. rewrite Forall_forall in Hinv.
    intros q Hq. apply Hinv. unfold entries in Hq. cbn [root] in Hq.
    by rewrite plug_entries in Hq.
Qed.

End Order.

End StampFacts.

(** ** Several pops in a row *)

Section PopFacts.
Context {P E : Type}.
Implicit Types (t : BinaryTree P E) (popped : list (P * E)).

Lemma entries_nil_root t : entries t = [] ↔ root t = None.
Proof.
  destruct t as [[[l v e r]|]]; unfold entries; cbn [root slot_entries]; [|done].
  rewrite Node_entries_unfold. split; [|done].
  intros H. by apply app_eq_nil in H as [_ ?].
Qed.

Lemma pop_n_entries k t popped t' :
  pop_n k t = Some (popped, t') →
  entries t = entries t' ++ reverse popped ∧ length popped = k.
Proof.
  revert t popped t'. induction k as [|k IH]; intros t popped t'; cbn [pop_n].
  - intros [= <- <-]. by rewrite app_nil_r.
  - destruct (BinaryTree_pop_max t) as [[pe t1]|] eqn:Hpop; [|done].
    destruct (pop_n k t1) as [[popped1 t2]|] eqn:Hrest; [|done].
    intros [= <- <-]. destruct (IH _ _ _ Hrest) as [Hent Hlen].
    rewrite (entries_pop_max _ _ _ Hpop), Hent, reverse_cons, <- app_assoc.
    split; [done|]. cbn. by rewrite Hlen.
Qed.

Lemma pop_n_enough k t :
  k ≤ length (entries t) → ∃ popped t', pop_n k t = Some (popped, t').
Proof.
  revert t. induction k as [|k IH]; intros t Hlen; cbn [pop_n]; [by eauto|].
  destruct (BinaryTree_pop_max t) as [[pe t1]|] eqn:Hpop.
  - destruct (IH t1) as (popped & t' & ->); [|by eauto].
    rewrite (entries_pop_max _ _ _ Hpop), length_app in Hlen. cbn in Hlen. lia.
  - apply BinaryTree_pop_max_None, entries_nil_root in Hpop.
    rewrite Hpop in Hlen. cbn in Hlen. lia.
Qed.

Lemma pop_n_app j k t popped1 t1 popped2 t2 :
  pop_n j t = Some (popped1, t1) → pop_n k t1 = Some (popped2, t2) →
  pop_n (j + k) t = Some (popped1 ++ popped2, t2).
Proof.
  revert t popped1. induction j as [|j IH]; intros t popped1; cbn [pop_n Nat.add].
  - by intros [= <- <-].
  - destruct (BinaryTree_pop_max t) as [[pe t']|]; [|done].
    destruct (pop_n j t') as [[l t'']|] eqn:Hj; [|done].
    intros [= <- <-] Hk. by rewrite (IH _ _ Hj Hk).
Qed.

End PopFacts.

(** ** The prioritized store *)

Section StoreFacts.
Context {P state reward np_dtype : Type}.
Variable geb : P → P → bool.
Variable inf : P.
Variable zeros_like : np_dtype → state → state.
Variable astype_state : np_dtype → state → state.
Variable astype_reward : np_dtype → reward → reward.
Variable super_add_experience :
  ExperienceHandler state reward → state → Z → reward →
  Z * ExperienceHandler state reward.
Variable super_add_terminal :
  ExperienceHandler state reward → ExperienceHandler state reward.
Implicit Types (self : PrioritizedExperienceHandler P state reward).
Implicit Types (b : ExperienceHandler state reward) (loc : locals state reward).
Implicit Types (mini_batch i : Z) (st : state) (rw : reward) (dtype : np_dtype).

(** C3: add_experience inserts exactly one tree entry, of priority
    [np.inf] and payload the index returned by the append minus 2, when that
    index is greater than 1, and leaves the tree as it is when the index is
    [<= 1]; add_terminal inserts exactly one entry of priority [np.inf] and
    payload the buffer size minus 1. *)
Theorem add_registers_in_tree self st (action : Z) rw :
  let '(insert_ind, b) := super_add_experience (buffer self) st action rw in
  let self' := add_experience geb inf super_add_experience self st action rw in
  let self'' := add_terminal geb inf super_add_terminal self in
  buffer self' = b
  ∧ ((insert_ind > 1)%Z →
       tree self' = BinaryTree_insert geb (tree self) inf (insert_ind - 2)%Z
       ∧ ∃ l1 l2, entries (tree self) = l1 ++ l2
           ∧ entries (tree self') = l1 ++ (inf, (insert_ind - 2)%Z) :: l2)
  ∧ ((insert_ind ≤ 1)%Z → tree self' = tree self)
  ∧ buffer self'' = super_add_terminal (buffer self)
  ∧ tree self''
    = BinaryTree_insert geb (tree self) inf (size (buffer self'') - 1)%Z
  ∧ ∃ l1 l2, entries (tree self) = l1 ++ l2
      ∧ entries (tree self'') = l1 ++ (inf, (size (buffer self'') - 1)%Z) :: l2.
Proof.
  unfold add_experience, add_terminal.
  destruct (super_add_experience (buffer self) st action rw) as [insert_ind b].
  cbn zeta. case_bool_decide as Hind; cbn [buffer tree].
  - repeat split; try done; try lia; apply entries_insert.
  - repeat split; try done; try lia; apply entries_insert.
Qed.

(** C9: when the buffer size is [<=] the requested batch size the call
    returns the tuple of six [None] and the store, tree and buffer, is what
    it was. *)
Theorem insufficient_data_unchanged dtype mini_batch self :
  (size (buffer self) ≤ mini_batch)%Z →
  get_prioritized_experience zeros_like astype_state astype_reward mini_batch
    dtype self = (Ok all_None, self).
Proof.
  intros Hsize. unfold get_prioritized_experience.
  by rewrite bool_decide_eq_true_2.
Qed.

(** C7: the call returns the all-[None] tuple, as a value, exactly when
    the buffer size is [<=] the requested batch size. *)
Theorem insufficient_data_iff dtype mini_batch self :
  (get_prioritized_experience zeros_like astype_state astype_reward mini_batch
    dtype self).1 = Ok all_None
  ↔ (size (buffer self) ≤ mini_batch)%Z.
Proof.
  unfold get_prioritized_experience.
  case_bool_decide as Hsize; [done|]. split; [|done]. intros Hret. exfalso.
  unfold bind, getitem, raise, ret in Hret.
  destruct (py_getitem (states (buffer self)) 0); [|done].
  case_bool_decide; [done|].
  destruct (for_each _ _ _ _) as [[loc|e] self']; done.
Qed.

(** *** One turn of the loop *)

Lemma resolves_spec b i :
  resolves b i = true ↔
  is_Some (py_getitem (states b) i) ∧ is_Some (py_getitem (actions b) i)
  ∧ is_Some (py_getitem (rewards b) i)
  ∧ (i ∈ term_states b ∨ is_Some (py_getitem (states b) (i + 1)%Z)).
Proof.
  unfold resolves. rewrite !andb_true_iff, orb_true_iff, !bool_decide_eq_true.
  split; [by intros [[[? ?] ?] ?]|by intros (? & ? & ? & ?)].
Qed.

Lemma loop_body_stale dtype exp loc self p i t' :
  BinaryTree_pop_max (tree self) = Some ((p, i), t') →
  resolves (buffer self) i = false →
  loop_body astype_state dtype exp loc self
  = (Raise IndexError, mkPrioritizedExperienceHandler (buffer self) t').
Proof.
  intros Hpop Hres. apply not_true_iff_false in Hres.
  rewrite resolves_spec in Hres.
  unfold loop_body, bind, tree_pop_max, getitem, in_term_states, ret.
  rewrite Hpop. cbn [buffer].
  destruct (py_getitem (states (buffer self)) i) as [s|] eqn:Hs; [|done].
  cbn [buffer]. case_bool_decide as Hterm; cbn [buffer] in Hterm |- *.
  - destruct (py_getitem (actions (buffer self)) i) as [a|] eqn:Ha; [|done].
    cbn [buffer].
    destruct (py_getitem (rewards (buffer self)) i) as [r|] eqn:Hr; [|done].
    destruct Hres. eauto.
  - destruct (py_getitem (states (buffer self)) (i + 1)) as [s1|] eqn:Hs1; [|done].
    cbn [buffer].
    destruct (py_getitem (actions (buffer self)) i) as [a|] eqn:Ha; [|done].
    cbn [buffer].
    destruct (py_getitem (rewards (buffer self)) i) as [r|] eqn:Hr; [|done].
    destruct Hres. eauto 6.
Qed.

Lemma loop_body_empty dtype exp loc self :
  root (tree self) = None →
  loop_body astype_state dtype exp loc self = (Raise AttributeError, self).
Proof.
  intros Hroot. apply BinaryTree_pop_max_None in Hroot.
  unfold loop_body, bind, tree_pop_max. by rewrite Hroot.
Qed.

Lemma loop_body_ok dtype exp loc self p i t' :
  BinaryTree_pop_max (tree self) = Some ((p, i), t') →
  resolves (buffer self) i = true →
  ∃ loc', loop_body astype_state dtype exp loc self
          = (Ok loc', mkPrioritizedExperienceHandler (buffer self) t')
          ∧ mb_inds_poped loc' = mb_inds_poped loc ++ [i].
Proof.
  intros Hpop (Hs & Ha & Hr & Hnext)%resolves_spec.
  destruct Hs as [s Hs], Ha as [a Ha], Hr as [r Hr].
  unfold loop_body, bind, tree_pop_max, getitem, in_term_states, ret.
  rewrite Hpop. cbn [buffer]. rewrite Hs. cbn [buffer].
  case_bool_decide as Hterm.
  - cbn [buffer]. rewrite Ha. cbn [buffer]. rewrite Hr. by eexists.
  - destruct Hnext as [?|[s1 Hs1]]; [done|]. cbn [buffer].
    rewrite Hs1. cbn [buffer]. rewrite Ha. cbn [buffer]. rewrite Hr. by eexists.
Qed.

Lemma loop_body_inv dtype exp loc self loc' self' :
  loop_body astype_state dtype exp loc self = (Ok loc', self') →
  ∃ p i t',
    BinaryTree_pop_max (tree self) = Some ((p, i), t')
    ∧ self' = mkPrioritizedExperienceHandler (buffer self) t'
    ∧ resolves (buffer self) i = true
    ∧ mb_inds_poped loc' = mb_inds_poped loc ++ [i]
    ∧ if bool_decide (i ∈ term_states (buffer self))
      then mb_terminal loc' = mb_terminal loc ++ [1%Z]
           ∧ mb_states_tp1 loc' = mb_states_tp1 loc
      else mb_terminal loc' = mb_terminal loc ++ [0%Z]
           ∧ ∃ s1, py_getitem (states (buffer self)) (i + 1)%Z = Some s1
                   ∧ mb_states_tp1 loc'
                     = <[exp := astype_state dtype s1]> (mb_states_tp1 loc).
Proof.
  unfold loop_body, bind, tree_pop_max, getitem, in_term_states, ret.
  destruct (BinaryTree_pop_max (tree self)) as [[[p i] t']|] eqn:Hpop; [|done].
  cbn [buffer].
  destruct (py_getitem (states (buffer self)) i) as [s|] eqn:Hs; [|done].
  cbn [buffer]. case_bool_decide as Hterm; cbn [buffer] in Hterm |- *.
  - destruct (py_getitem (actions (buffer self)) i) as [a|] eqn:Ha; [|done].
    cbn [buffer].
    destruct (py_getitem (rewards (buffer self)) i) as [r|] eqn:Hr; [|done].
    intros [= <- <-]. exists p, i, t'. cbn [mb_inds_poped mb_terminal mb_states_tp1].
    rewrite bool_decide_eq_true_2 by done. repeat split; try done.
    apply resolves_spec. rewrite Hs, Ha, Hr. eauto.
  - destruct (py_getitem (states (buffer self)) (i + 1)) as [s1|] eqn:Hs1; [|done].
    cbn [buffer].
    destruct (py_getitem (actions (buffer self)) i) as [a|] eqn:Ha; [|done].
    cbn [buffer].
    destruct (py_getitem (rewards (buffer self)) i) as [r|] eqn:Hr; [|done].
    intros [= <- <-]. exists p, i, t'. cbn [mb_inds_poped mb_terminal mb_states_tp1].
    rewrite bool_decide_eq_false_2 by done. repeat split; try done; [|by eauto].
    apply resolves_spec. rewrite Hs, Ha, Hr, Hs1. eauto.
Qed.

(** *** The whole loop *)

Lemma for_each_inv dtype exps loc self loc' self' :
  for_each exps (loop_body astype_state dtype) loc self = (Ok loc', self') →
  ∃ popped,
    pop_n (length exps) (tree self) = Some (popped, tree self')
    ∧ buffer self' = buffer self
    ∧ mb_inds_poped loc' = mb_inds_poped loc ++ popped.*2
    ∧ Forall (λ i, resolves (buffer self) i = true) popped.*2.
Proof.
  revert loc self. induction exps as [|exp exps IH]; intros loc self; cbn [for_each].
  - unfold ret. intros [= <- <-]. exists []. by rewrite app_nil_r.
  - unfold bind at 1.
    destruct (loop_body astype_state dtype exp loc self) as [[loc1|e] self1] eqn:Hbody; [|done].
    intros Hrest.
    destruct (loop_body_inv _ _ _ _ _ _ Hbody) as (p & i & t' & Hpop & -> & Hres & Hinds & _).
    destruct (IH _ _ Hrest) as (popped & Hpops & Hbuf & Hinds' & Hall).
    cbn [tree buffer] in *. exists ((p, i) :: popped).
    cbn [pop_n length]. rewrite Hpop, Hpops.
    rewrite Hinds', Hinds, <- app_assoc. repeat split; try done.
    cbn. by constructor.
Qed.

Lemma for_each_ok dtype exps loc self popped t' :
  pop_n (length exps) (tree self) = Some (popped, t') →
  Forall (λ i, resolves (buffer self) i = true) popped.*2 →
  ∃ loc', for_each exps (loop_body astype_state dtype) loc self
          = (Ok loc', mkPrioritizedExperienceHandler (buffer self) t')
          ∧ mb_inds_poped loc' = mb_inds_poped loc ++ popped.*2.
Proof.
  revert loc self popped.
  induction exps as [|exp exps IH]; intros loc self popped; cbn [for_each length pop_n].
  - intros [= <- <-] _. exists loc. rewrite app_nil_r. by destruct self.
  - destruct (BinaryTree_pop_max (tree self)) as [[[p i] t1]|] eqn:Hpop; [|done].
    destruct (pop_n (length exps) t1) as [[popped1 t2]|] eqn:Hrest; [|done].
    intros [= <- <-]. cbn [fmap list_fmap]. intros [Hi Hall]%Forall_cons.
    destruct (loop_body_ok dtype exp loc self p i t1 Hpop Hi) as (loc1 & Hbody & Hinds).
    unfold bind at 1. rewrite Hbody.
    destruct (IH loc1 (mkPrioritizedExperienceHandler (buffer self) t1) popped1)
      as (loc' & Hloop & Hinds'); [done|done|].
    exists loc'. split; [done|]. cbn [snd]. by rewrite Hinds', Hinds, <- app_assoc.
Qed.

Lemma for_each_stale dtype exps1 exp exps2 loc self popped t1 p i t2 :
  pop_n (length exps1) (tree self) = Some (popped, t1) →
  Forall (λ i, resolves (buffer self) i = true) popped.*2 →
  BinaryTree_pop_max t1 = Some ((p, i), t2) →
  resolves (buffer self) i = false →
  for_each (exps1 ++ exp :: exps2) (loop_body astype_state dtype) loc self
  = (Raise IndexError, mkPrioritizedExperienceHandler (buffer self) t2).
Proof.
  revert loc self popped.
  induction exps1 as [|exp1 exps1 IH]; intros loc self popped;
    cbn [for_each length pop_n app].
  - intros [= <- <-] _ Hpop Hst. unfold bind at 1.
    by rewrite (loop_body_stale _ _ _ _ _ _ _ Hpop Hst).
  - destruct (BinaryTree_pop_max (tree self)) as [[[p1 i1] t']|] eqn:Hpop1; [|done].
    destruct (pop_n (length exps1) t') as [[popped1 t'']|] eqn:Hrest; [|done].
    intros [= <- <-]. cbn [fmap list_fmap]. intros [Hi Hall]%Forall_cons Hpop Hst.
    destruct (loop_body_ok dtype exp1 loc self p1 i1 t' Hpop1 Hi) as (loc1 & Hbody & _).
    unfold bind at 1. rewrite Hbody.
    by apply (IH loc1 (mkPrioritizedExperienceHandler (buffer self) t') popped1).
Qed.

Lemma loop_body_assembled dtype b z n j loc self loc' self' :
  buffer self = b → j < n → assembled astype_state dtype b z n j loc →
  loop_body astype_state dtype j loc self = (Ok loc', self') →
  assembled astype_state dtype b z n (S j) loc'.
Proof.
  intros <- Hj (Hlen1 & Hlen2 & Hlen3 & Hzero & Hdone) Hbody.
  destruct (loop_body_inv _ _ _ _ _ _ Hbody)
    as (p & i & t' & _ & _ & _ & Hinds & Hwritten).
  assert (length (mb_states_tp1 loc') = n
          ∧ (∀ k, k ≠ j → mb_states_tp1 loc' !! k = mb_states_tp1 loc !! k)
          ∧ (∀ k, k < j → mb_terminal loc' !! k = mb_terminal loc !! k)
          ∧ length (mb_terminal loc') = S j) as (Hn & Hother & Hflags & Hlen2').
  { case_bool_decide.
    - destruct Hwritten as [-> ->]. rewrite length_app. cbn.
      split_and!; [done|done| |lia].
      intros k Hk. by rewrite lookup_app_l by lia.
    - destruct Hwritten as (-> & s1 & _ & ->). rewrite length_insert, length_app. cbn.
      split_and!; [done| | |lia].
      + intros k Hk. by rewrite list_lookup_insert_ne.
      + intros k Hk. by rewrite lookup_app_l by lia. }
  unfold assembled. rewrite Hinds, length_app. cbn [length].
  split_and!; [lia|done|done| |].
  - intros k Hk1 Hk2. rewrite Hother by lia. apply Hzero; lia.
  - intros k i0 Hk. destruct (decide (k < j)) as [Hlt|Hge].
    + rewrite lookup_app_l in Hk by lia. specialize (Hdone k i0 Hk).
      rewrite Hother by lia. by rewrite Hflags.
    + assert (k = j) as ->.
      { apply lookup_lt_Some in Hk. rewrite length_app in Hk. cbn in Hk. lia. }
      rewrite <- Hlen1, list_lookup_middle in Hk by done. injection Hk as <-.
      case_bool_decide.
      * destruct Hwritten as [-> ->]. rewrite <- Hlen2 at 1.
        rewrite list_lookup_middle by done. split; [done|]. apply Hzero; lia.
      * destruct Hwritten as (-> & s1 & Hs1 & ->). rewrite <- Hlen2 at 1.
        rewrite list_lookup_middle by done. split; [done|].
        exists s1. split; [done|]. apply list_lookup_insert_eq. lia.
Qed.

Lemma for_each_assembled dtype b z n m j loc self loc' self' :
  buffer self = b → j + m ≤ n → assembled astype_state dtype b z n j loc →
  for_each (seq j m) (loop_body astype_state dtype) loc self = (Ok loc', self') →
  assembled astype_state dtype b z n (j + m) loc'.
Proof.
  revert j loc self. induction m as [|m IH]; intros j loc self Hb Hjm Hinv;
    cbn [seq for_each].
  - unfold ret. intros [= <- <-]. by rewrite Nat.add_0_r.
  - unfold bind at 1.
    destruct (loop_body astype_state dtype j loc self) as [[loc1|e] self1] eqn:Hbody; [|done].
    intros Hrest. replace (j + S m) with (S j + m) by lia.
    destruct (loop_body_inv _ _ _ _ _ _ Hbody) as (? & ? & ? & _ & -> & _).
    eapply IH; [|lia| |exact Hrest]; [by cbn|].
    eapply loop_body_assembled; [exact Hb|lia|exact Hinv|exact Hbody].
Qed.

(** *** The call as a whole *)

Lemma get_prioritized_experience_run dtype mini_batch self s0 :
  (size (buffer self) > mini_batch)%Z → (0 ≤ mini_batch)%Z →
  py_getitem (states (buffer self)) 0 = Some s0 →
  get_prioritized_experience zeros_like astype_state astype_reward mini_batch
    dtype self =
  let rows := replicate (Z.to_nat mini_batch) (zeros_like dtype s0) in
  match for_each (seq 0 (Z.to_nat mini_batch)) (loop_body astype_state dtype)
          (mkLocals rows rows [] [] [] []) self with
  | (Ok loc, self') =>
      (Ok (Some (mb_states loc), Some (mb_actions loc),
           Some (astype_reward dtype <$> mb_rewards loc),
           Some (mb_states_tp1 loc), Some (mb_terminal loc),
           Some (mb_inds_poped loc)), self')
  | (Raise e, self') => (Raise e, self')
  end.
Proof.
  intros Hsize Hmb Hs0. unfold get_prioritized_experience.
  rewrite bool_decide_eq_false_2 by lia.
  unfold bind at 1. unfold getitem at 1. rewrite Hs0.
  rewrite bool_decide_eq_false_2 by lia. done.
Qed.

Lemma get_prioritized_experience_inv dtype mini_batch self ret self' :
  get_prioritized_experience zeros_like astype_state astype_reward mini_batch
    dtype self = (Ok ret, self') →
  ret ≠ all_None →
  (size (buffer self) > mini_batch)%Z ∧ (0 ≤ mini_batch)%Z
  ∧ ∃ s0, py_getitem (states (buffer self)) 0 = Some s0.
Proof.
  unfold get_prioritized_experience. case_bool_decide as Hsize.
  { intros [= <- _]. done. }
  unfold bind at 1. unfold getitem at 1.
  destruct (py_getitem (states (buffer self)) 0) as [s0|]; [|done].
  case_bool_decide; [done|]. intros _ _. split_and!; [lia|lia|by eexists].
Qed.

Lemma py_getitem_first {A : Type} (lst : list A) i :
  is_Some (py_getitem lst i) → is_Some (py_getitem lst 0).
Proof.
  destruct lst as [|x lst]; [|by eexists].
  unfold py_getitem. cbn [length]. intros [y Hy].
  repeat case_bool_decide; by try lia.
Qed.

(** C6 (as amended): in a returned batch, at every position whose popped
    index is marked terminal the flag is 1 and the next state is the zero
    row, and at every other position the flag is 0 and the next state is the
    item of the state list at the index plus one converted to the [dtype] of
    the call: the item itself only where [dtype] holds its values exactly. *)
Theorem batch_terminal_handling dtype mini_batch self mbs acts rws tp1 term inds self' :
  get_prioritized_experience zeros_like astype_state astype_reward mini_batch
    dtype self
  = (Ok (Some mbs, Some acts, Some rws, Some tp1, Some term, Some inds), self') →
  ∃ s0,
    py_getitem (states (buffer self)) 0 = Some s0
    ∧ length inds = Z.to_nat mini_batch
    ∧ length term = Z.to_nat mini_batch
    ∧ length tp1 = Z.to_nat mini_batch
    ∧ ∀ k i, inds !! k = Some i →
        if bool_decide (i ∈ term_states (buffer self))
        then term !! k = Some 1%Z ∧ tp1 !! k = Some (zeros_like dtype s0)
        else term !! k = Some 0%Z
             ∧ ∃ s1, py_getitem (states (buffer self)) (i + 1)%Z = Some s1
                     ∧ tp1 !! k = Some (astype_state dtype s1).
Proof.
  intros Hget.
  destruct (get_prioritized_experience_inv _ _ _ _ _ Hget) as (Hsize & Hmb & s0 & Hs0);
    [done|].
  rewrite (get_prioritized_experience_run _ _ _ s0) in Hget by done.
  cbn zeta in Hget.
  destruct (for_each _ _ _ _) as [[loc|e] self1] eqn:Hloop; [|done].
  injection Hget as <- <- <- <- <- <- <-.
  exists s0. split; [done|].
  assert (assembled astype_state dtype (buffer self) (zeros_like dtype s0)
            (Z.to_nat mini_batch)
            (0 + Z.to_nat mini_batch) loc) as (H1 & H2 & H3 & _ & H5).
  { eapply for_each_assembled; [reflexivity|lia| |exact Hloop].
    unfold assembled. cbn [mb_inds_poped mb_terminal mb_states_tp1 length].
    split_and!; try done.
    - apply length_replicate.
    - intros k _ Hk. by apply lookup_replicate_2. }
  done.
Qed.

(** C4 (as amended): the call makes no check for stale entries.  When
    the turns before it resolve and a turn pops an entry whose payload the
    buffer does not resolve (it is no index of the lists, or it is unmarked
    and no state follows it), the call raises IndexError; no batch is
    returned, and the entries popped so far, the stale one included, stay
    removed from the tree. *)
Theorem stale_entry_raises dtype mini_batch self s0 j popped t1 p i t2 :
  (size (buffer self) > mini_batch)%Z →
  py_getitem (states (buffer self)) 0 = Some s0 →
  j < Z.to_nat mini_batch →
  pop_n j (tree self) = Some (popped, t1) →
  Forall (λ i, resolves (buffer self) i = true) popped.*2 →
  BinaryTree_pop_max t1 = Some ((p, i), t2) →
  resolves (buffer self) i = false →
  get_prioritized_experience zeros_like astype_state astype_reward mini_batch
    dtype self
  = (Raise IndexError, mkPrioritizedExperienceHandler (buffer self) t2).
Proof.
  intros Hsize Hs0 Hj Hpops Hall Hpop Hstale.
  rewrite (get_prioritized_experience_run _ _ _ s0) by (done || lia).
  cbn zeta.
  assert (seq 0 (Z.to_nat mini_batch)
          = seq 0 j ++ j :: seq (S j) (Z.to_nat mini_batch - S j)) as ->.
  { replace (Z.to_nat mini_batch) with (j + S (Z.to_nat mini_batch - S j)) at 1
      by lia.
    by rewrite seq_app. }
  erewrite for_each_stale; [done| |exact Hall|exact Hpop|exact Hstale].
  by rewrite length_seq.
Qed.

(** When the tree holds at least [k] entries, each with a payload the
    loop resolves, and no two entries have the same payload, a call for [k]
    items on a buffer of size [> k] returns [k] pairwise distinct indices;
    each was the payload of an entry the call removed, and none is the
    payload of an entry left in the tree. *)
Lemma distinct_payloads_returned dtype mini_batch self :
  (0 ≤ mini_batch)%Z →
  (size (buffer self) > mini_batch)%Z →
  is_Some (py_getitem (states (buffer self)) 0) →
  Z.to_nat mini_batch ≤ length (entries (tree self)) →
  Forall (λ i, resolves (buffer self) i = true) (entries (tree self)).*2 →
  NoDup (entries (tree self)).*2 →
  ∃ mbs acts rws tp1 term inds t',
    get_prioritized_experience zeros_like astype_state astype_reward mini_batch
    dtype self
    = (Ok (Some mbs, Some acts, Some rws, Some tp1, Some term, Some inds),
       mkPrioritizedExperienceHandler (buffer self) t')
    ∧ length inds = Z.to_nat mini_batch
    ∧ NoDup inds
    ∧ (entries (tree self)).*2 = (entries t').*2 ++ reverse inds
    ∧ ∀ i, i ∈ inds → i ∉ (entries t').*2.
Proof.
  intros Hmb Hsize [s0 Hs0] Hlen Hall Hnodup.
  destruct (pop_n_enough _ _ Hlen) as (popped & t' & Hpops).
  destruct (pop_n_entries _ _ _ _ Hpops) as [Hent Hk].
  rewrite Hent, fmap_app, fmap_reverse in Hall, Hnodup.
  apply Forall_app in Hall as [_ Hall]. rewrite Forall_reverse in Hall.
  apply NoDup_app in Hnodup as (_ & Hdisj & Hnd).
  rewrite reverse_Permutation in Hnd.
  rewrite (get_prioritized_experience_run _ _ _ s0) by done. cbn zeta.
  edestruct (for_each_ok dtype (seq 0 (Z.to_nat mini_batch))) as (loc & -> & Hinds).
  { rewrite length_seq. exact Hpops. }
  { exact Hall. }
  cbn [mb_inds_poped app] in Hinds.
  eexists _, _, _, _, _, _, t'. split; [done|]. rewrite Hinds.
  split_and!.
  - by rewrite length_fmap.
  - done.
  - by rewrite Hent, fmap_app, fmap_reverse.
  - intros i Hi Hi'. apply (Hdisj i Hi'). by rewrite reverse_Permutation.
Qed.

(** C8 (as amended): on a store whose tree is empty and whose buffer
    size is greater than 1, set_new_td_errors([p], [i]) followed by
    get_prioritized_experience(1) returns a batch whose list of popped
    indices is [[i]] and leaves the store as it was, for every priority [p]
    and every index [i] that the loop resolves: an index of the three lists
    that is marked terminal or is followed by another state. *)
Theorem set_then_get_round_trip dtype p i self :
  root (tree self) = None →
  (size (buffer self) > 1)%Z →
  resolves (buffer self) i = true →
  ∃ mbs acts rws tp1 term,
    get_prioritized_experience zeros_like astype_state astype_reward 1 dtype
      (set_new_td_errors geb self [p] [i])
    = (Ok (Some mbs, Some acts, Some rws, Some tp1, Some term, Some [i]), self).
Proof.
  intros Hroot Hsize Hres.
  destruct self as [b [rt]]. cbn [tree root buffer] in *. subst rt.
  assert (is_Some (py_getitem (states b) 0)) as [s0 Hs0].
  { apply resolves_spec in Hres as [Hs _]. by eapply py_getitem_first. }
  unfold set_new_td_errors. cbn [zip zip_with foldl buffer tree].
  rewrite (get_prioritized_experience_run _ _ _ s0) by done. cbn zeta.
  change (Z.to_nat 1) with 1. cbn [seq for_each].
  unfold bind at 1.
  edestruct (loop_body_ok dtype 0) as (loc & -> & Hinds); [| |].
  { cbn [tree]. unfold BinaryTree_insert, BinaryTree_pop_max. cbn. reflexivity. }
  { exact Hres. }
  cbn [mb_inds_poped app] in Hinds. unfold ret. cbn [buffer].
  rewrite Hinds. by eexists _, _, _, _, _.
Qed.

End StoreFacts.

(** ** Runs of the concrete instance *)

Lemma priority_geb_total (a b : priority) :
  priority_geb a b = true ∨ priority_geb b a = true.
Proof.
  destruct a as [x|], b as [y|]; cbn; auto.
  destruct (decide (y ≤ x)%Z).
  - left. by apply bool_decide_eq_true_2.
  - right. apply bool_decide_eq_true_2. lia.
Qed.

Lemma priority_geb_trans (a b c : priority) :
  priority_geb a b = true → priority_geb b c = true → priority_geb a c = true.
Proof.
  destruct a as [x|], b as [y|], c as [z|]; cbn; try done.
  rewrite !bool_decide_eq_true. lia.
Qed.

Lemma pop_max_returns_max_witness :
  ∃ path hl p e,
    root (inserts priority_geb example_ops) = plug path (Some (mkNode hl p e None))
    ∧ BinaryTree_pop_max (inserts priority_geb example_ops)
      = Some ((p, e), mkBinaryTree (plug path hl))
    ∧ (∀ q, q ∈ entries (inserts priority_geb example_ops) →
            priority_geb p q.1 = true)
    ∧ entries (inserts priority_geb example_ops)
      = entries (mkBinaryTree (plug path hl)) ++ [(p, e)].
Proof.
  apply (pop_max_returns_max priority_geb priority_geb_total priority_geb_trans
           example_ops).
  discriminate.
Defined.

Lemma example_pop_max :
  BinaryTree_pop_max example_tree = Some ((Infinity, 3%Z), example_tree_after).
Proof. reflexivity. Qed.

Lemma reachable_ordered_witness :
  ordered priority_geb (BinaryTree_insert priority_geb example_tree_after (Finite 4) 9%Z).
Proof.
  apply (reachable_ordered priority_geb priority_geb_total).
  apply reachable_insert.
  apply (reachable_pop_max priority_geb example_tree (Infinity, 3%Z)).
  - apply inserts_reachable.
  - exact example_pop_max.
Defined.

Lemma insufficient_data_unchanged_witness :
  store_get 2 (store_init 5) = (Ok all_None, store_init 5).
Proof.
  apply (insufficient_data_unchanged (λ _ _, 0%Z) float_astype float_astype float32 2
           (store_init 5)).
  vm_compute. discriminate.
Defined.

Lemma batch_terminal_handling_witness :
  ∃ s0,
    py_getitem (states (buffer scenario_store)) 0 = Some s0
    ∧ length [3; 2]%Z = Z.to_nat 2
    ∧ length [1; 0]%Z = Z.to_nat 2
    ∧ length [0; 13]%Z = Z.to_nat 2
    ∧ ∀ k i, [3; 2]%Z !! k = Some i →
        if bool_decide (i ∈ term_states (buffer scenario_store))
        then [1; 0]%Z !! k = Some 1%Z ∧ [0; 13]%Z !! k = Some 0%Z
        else [1; 0]%Z !! k = Some 0%Z
             ∧ ∃ s1, py_getitem (states (buffer scenario_store)) (i + 1)%Z = Some s1
                     ∧ [0; 13]%Z !! k = Some (float_astype float32 s1).
Proof.
  apply (batch_terminal_handling (λ _ _, 0%Z) float_astype float_astype float32 2
           scenario_store
           [13; 12]%Z [0; 0]%Z [0; 0]%Z [0; 13]%Z [1; 0]%Z [3; 2]%Z
           (store_get 2 scenario_store).2).
  vm_compute. reflexivity.
Defined.

Lemma stale_entry_raises_witness :
  store_get 2 refilled_store
  = (Raise IndexError,
     mkPrioritizedExperienceHandler (buffer refilled_store)
       (mkBinaryTree
          (Some (mkNode None Infinity 0%Z (Some (mkNode None Infinity 1%Z None)))))).
Proof.
  apply (stale_entry_raises (λ _ _, 0%Z) float_astype float_astype float32 2
           refilled_store 12%Z 1
           [(Infinity, 1%Z)]
           (mkBinaryTree
              (Some (mkNode None Infinity 0%Z
                 (Some (mkNode None Infinity 1%Z
                    (Some (mkNode None Infinity 2%Z None)))))))
           Infinity 2%Z).
  - vm_compute. reflexivity.
  - vm_compute. reflexivity.
  - vm_compute. lia.
  - vm_compute. reflexivity.
  - apply Forall_singleton. vm_compute. reflexivity.
  - vm_compute. reflexivity.
  - vm_compute. reflexivity.
Defined.

Lemma set_then_get_round_trip_witness :
  ∃ mbs acts rws tp1 term,
    store_get 1 (store_set_new_td_errors drained_store [Finite 5] [0%Z])
    = (Ok (Some mbs, Some acts, Some rws, Some tp1, Some term, Some [0%Z]),
       drained_store).
Proof.
  apply (set_then_get_round_trip priority_geb (λ _ _, 0%Z) float_astype float_astype float32
           (Finite 5) 0%Z drained_store).
  - vm_compute. reflexivity.
  - vm_compute. reflexivity.
  - vm_compute. reflexivity.
Defined.

(** *** Runs on which the statements C4, C5, C6 and C8 fail as worded *)

(** After the trim the state list has two items; the tree still holds the
    payloads 0, 1 and 2.  The next call pops payload 2 and raises: the entry
    is not skipped. *)
Lemma stale_entry_not_skipped :
  states (buffer trimmed_store) = [12; 13]%Z
  ∧ (entries (tree trimmed_store)).*2 = [0; 1; 2]%Z
  ∧ size (buffer trimmed_store) = 2%Z
  ∧ (store_get 1 trimmed_store).1 = Raise IndexError.
Proof. vm_compute. done. Qed.

(** After two transitions, the end of the episode and two more
    transitions, the tree holds the payload 1 twice, and a batch of three
    returns it twice.  After two transitions and a batch of one, the tree is
    empty and the next call raises although the buffer size is greater than
    the batch size. *)
Lemma repeated_index_returned :
  size (buffer episodes_store) = 4%Z
  ∧ (entries (tree episodes_store)).*2 = [0; 1; 1; 2]%Z
  ∧ (store_get 3 episodes_store).1
    = Ok (Some [20; 11; 11]%Z, Some [0; 0; 0]%Z, Some [0; 0; 0]%Z,
          Some [21; 0; 0]%Z, Some [0; 1; 1]%Z, Some [2; 1; 1]%Z)
  ∧ size (buffer drained_store) = 2%Z
  ∧ (store_get 1 drained_store).1 = Raise AttributeError.
Proof. vm_compute. done. Qed.

(** The state that follows index 0 is 16777217; the batch of the default
    [dtype] returns 16777216 as the next state of index 0, whose flag is 0. *)
Lemma next_state_rounded :
  states (buffer rounding_store) = [5; 16777217]%Z
  ∧ (store_get 1 rounding_store).1
    = Ok (Some [5]%Z, Some [0]%Z, Some [0]%Z, Some [16777216]%Z, Some [0]%Z,
          Some [0]%Z).
Proof. vm_compute. done. Qed.

(** Index 1 is an index of the two-item buffer, it is not marked terminal
    and no state follows it: the round trip raises. *)
Lemma round_trip_last_index_raises :
  root (tree drained_store) = None
  ∧ states (buffer drained_store) = [10; 11]%Z
  ∧ size (buffer drained_store) = 2%Z
  ∧ (store_get 1 (store_set_new_td_errors drained_store [Finite 5] [1%Z])).1
    = Raise IndexError.
Proof. vm_compute. done. Qed.

(** * Further properties of the priority tree *)

Ltac in_list := rewrite ?elem_of_app, ?elem_of_cons; auto.

Section TreeMore.
Context {P E : Type}.
Variable geb : P → P → bool.
Implicit Types (n : Node P E) (o hl : option (Node P E)) (t : BinaryTree P E).
Implicit Types (path : list (option (Node P E) * P * E)) (v p : P) (e : E).
Implicit Types (ops : list (op P E)).

(** *** Nothing is lost, nothing is made up *)

Lemma entries_insert_perm t p e :
  entries (BinaryTree_insert geb t p e) ≡ₚ (p, e) :: entries t.
Proof.
  destruct (entries_insert geb t p e) as (l1 & l2 & -> & ->).
  by rewrite Permutation_middle.
Qed.

(** X1: after any run of insert and pop_max calls that raises nothing,
    the entries left in the tree together with the entries the pop_max calls
    returned are, up to order, the entries the tree held at the start
    together with the entries inserted. *)
Theorem run_ops_conserves ops t t' popped :
  run_ops geb ops t = Some (t', popped) →
  entries t' ++ popped ≡ₚ entries t ++ inserted ops.
Proof.
  revert t t' popped.
  induction ops as [|[p e|] ops IH]; intros t t' popped; cbn [run_ops inserted].
  - intros [= <- <-]. done.
  - intros Hrun. rewrite (IH _ _ _ Hrun), entries_insert_perm.
    by rewrite <- Permutation_middle.
  - destruct (BinaryTree_pop_max t) as [[pe t1]|] eqn:Hpop; [|done].
    destruct (run_ops geb ops t1) as [[t2 popped1]|] eqn:Hrun; [|done].
    intros [= <- <-]. rewrite (entries_pop_max _ _ _ Hpop).
    rewrite <- Permutation_middle, (IH _ _ _ Hrun).
    rewrite <- !app_assoc. cbn [app].
    by rewrite <- Permutation_middle, Permutation_middle.
Qed.

(** *** Insert at the top, then pop *)

Lemma Node_insert_top_pop_max n p e :
  (∀ q, q ∈ Node_entries n → geb p q.1 = true) →
  Node_pop_max (Node_insert geb n p e) = ((p, e, None, false), n).
Proof.
  induction n as [l v e0 r _ IHr] using Node_ind'.
  rewrite Node_entries_unfold. intros Htop.
  cbn [Node_insert]. pose proof (Htop (v, e0)) as Hv. cbn [fst] in Hv.
  rewrite Hv by in_list.
  destruct r as [r0|]; cbn [Node_pop_max slot_holds] in *; [|done].
  rewrite IHr; [done|]. intros q Hq. apply Htop. in_list.
Qed.

(** X2: an entry inserted with a priority [>=] every priority held is
    the one the next pop_max returns, and that pop_max leaves the tree exactly
    as it was before the insert. *)
Theorem insert_top_pop_max t p e :
  (∀ q, q ∈ entries t → geb p q.1 = true) →
  BinaryTree_pop_max (BinaryTree_insert geb t p e) = Some ((p, e), t).
Proof.
  destruct t as [[n|]]; unfold entries, BinaryTree_insert, BinaryTree_pop_max;
    cbn [root slot_entries]; [|done].
  intros Htop. by rewrite Node_insert_top_pop_max.
Qed.

(** *** Depth *)

Lemma Node_depth_unfold (l r : option (Node P E)) v e :
  Node_depth (mkNode l v e r) = (Z.max (slot_depth l) (slot_depth r) + 1)%Z.
Proof. by destruct l, r. Qed.

Lemma Node_depth_pos n : (1 ≤ Node_depth n)%Z.
Proof.
  induction n as [l v e r IHl IHr] using Node_ind'. rewrite Node_depth_unfold.
  destruct l as [l0|], r as [r0|]; cbn [slot_holds slot_depth] in *; lia.
Qed.

Lemma slot_depth_nonneg o : (0 ≤ slot_depth o)%Z.
Proof.
  destruct o as [n|]; [|done]. cbn [slot_depth].
  pose proof (Node_depth_pos n). lia.
Qed.

(** X3: the depth of a node is at least 1 and at most the number of
    entries below it. *)
Theorem Node_depth_bounds n :
  (1 ≤ Node_depth n ≤ Z.of_nat (length (Node_entries n)))%Z.
Proof.
  induction n as [l v e r IHl IHr] using Node_ind'.
  rewrite Node_depth_unfold, Node_entries_unfold, length_app. cbn [length].
  pose proof (slot_depth_nonneg l). pose proof (slot_depth_nonneg r).
  destruct l as [l0|], r as [r0|]; cbn [slot_holds slot_depth slot_entries length] in *;
    lia.
Qed.

Lemma Node_insert_depth n p e :
  (Node_depth n ≤ Node_depth (Node_insert geb n p e) ≤ Node_depth n + 1)%Z.
Proof.
  induction n as [l v e0 r IHl IHr] using Node_ind'.
  cbn [Node_insert]. pose proof (slot_depth_nonneg l). pose proof (slot_depth_nonneg r).
  destruct (geb p v).
  - destruct r as [r0|]; rewrite !Node_depth_unfold;
      cbn [slot_holds slot_depth Node_depth] in *; lia.
  - destruct l as [l0|]; rewrite !Node_depth_unfold;
      cbn [slot_holds slot_depth Node_depth] in *; lia.
Qed.

Lemma plug_depth_unplug path hl p e :
  (slot_depth (plug path hl)
   ≤ slot_depth (plug path (Some (mkNode hl p e None))))%Z.
Proof.
  induction path as [|[[l v] e0] path IH]; cbn [plug slot_depth].
  - rewrite Node_depth_unfold. cbn [slot_depth]. lia.
  - rewrite !Node_depth_unfold. lia.
Qed.

(** X4: an insert leaves the depth of the tree as it is or raises it by
    one; a pop_max never raises it. *)
Theorem depth_after_call t p e :
  (slot_depth (root t) ≤ slot_depth (root (BinaryTree_insert geb t p e))
   ≤ slot_depth (root t) + 1)%Z
  ∧ ∀ pe t', BinaryTree_pop_max t = Some (pe, t') →
      (slot_depth (root t') ≤ slot_depth (root t))%Z.
Proof.
  split.
  - destruct t as [[n|]]; unfold BinaryTree_insert; cbn [root slot_depth].
    + apply Node_insert_depth.
    + cbn. lia.
  - intros pe t' Hpop.
    destruct (BinaryTree_pop_max_spec t) as (path & hl & q & x & Hroot & Heq).
    { intros Hnone. apply BinaryTree_pop_max_None in Hnone. congruence. }
    rewrite Hpop in Heq. injection Heq as -> ->. cbn [root]. rewrite Hroot.
    apply plug_depth_unplug.
Qed.

(** *** Inserts in ascending order *)

Lemma Node_insert_top_plug path (l : option (Node P E)) v e0 p e :
  geb p v = true →
  Forall (λ a, geb p a.1.2 = true) path →
  Some (Node_insert geb (mkNode l v e0 (plug path None)) p e)
  = plug ((l, v, e0) :: path ++ [(None, p, e)]) None.
Proof.
  revert l v e0. induction path as [|[[l1 v1] e1] path IH]; intros l v e0 Hv Hpath.
  - cbn [plug Node_insert app]. by rewrite Hv.
  - apply Forall_cons in Hpath as [Hv1 Hpath]. cbn [fst snd] in Hv1.
    cbn [plug Node_insert app]. rewrite Hv. f_equal. f_equal.
    specialize (IH l1 v1 e1 Hv1 Hpath). cbn [plug app] in IH. exact IH.
Qed.

Lemma plug_chain_depth (l : list (P * E)) :
  slot_depth (plug ((λ pe, (None, pe.1, pe.2)) <$> l) None) = Z.of_nat (length l).
Proof.
  induction l as [|[p e] l IH]; [done|].
  cbn [fmap list_fmap plug slot_depth length fst snd].
  rewrite Node_depth_unfold, IH. cbn [slot_depth]. lia.
Qed.

(** X5: when every inserted priority is [>=] the priorities inserted
    before it (all [np.inf], for one), the tree is a chain of right children
    in the order of insertion, and its depth is the number of entries. *)
Theorem ascending_inserts_chain (l : list (P * E)) :
  StronglySorted (λ a b, geb b.1 a.1 = true) l →
  root (inserts geb l) = plug ((λ pe, (None, pe.1, pe.2)) <$> l) None
  ∧ slot_depth (root (inserts geb l)) = Z.of_nat (length l).
Proof.
  intros Hsorted.
  assert (root (inserts geb l) = plug ((λ pe, (None, pe.1, pe.2)) <$> l) None) as Hroot.
  { induction l as [|[p e] l IH] using rev_ind; [done|].
    apply StronglySorted_app in Hsorted as (Hle & Hl & _).
    rewrite inserts_snoc. unfold BinaryTree_insert. rewrite (IH Hl).
    rewrite fmap_app. cbn [fmap list_fmap fst snd].
    destruct l as [|[v e0] l].
    - done.
    - cbn [fmap list_fmap plug fst snd root].
      rewrite Node_insert_top_plug; [done| |].
      + apply (Hle (v, e0) (p, e)); [left|by apply list_elem_of_singleton].
      + apply Forall_fmap, Forall_forall. intros [q x] Hq. cbn.
        apply (Hle (q, x) (p, e)); [by right|by apply list_elem_of_singleton]. }
  split; [done|]. rewrite Hroot. apply plug_chain_depth.
Qed.

(** *** Sorted order *)

Section Order.
Hypothesis geb_total : ∀ a b : P, geb a b = true ∨ geb b a = true.
Hypothesis geb_trans :
  ∀ a b c : P, geb a b = true → geb b c = true → geb a c = true.

Lemma ordered_sorted o :
  slot_inv (below geb) (above geb) o →
  StronglySorted (λ a b, geb b.1 a.1 = true) (slot_entries o).
Proof using geb_trans.
  destruct o as [n|]; [|constructor]. cbn [slot_inv slot_entries].
  induction n as [l v e r IHl IHr] using Node_ind'.
  rewrite slot_inv_unfold, Node_entries_unfold. intros (Hl & Hr & Il & Ir).
  rewrite Forall_forall in Hl, Hr. unfold below, above in Hl, Hr. cbn [fst] in Hl, Hr.
  apply StronglySorted_app_2.
  - intros x y Hx [->|Hy]%elem_of_cons; cbn [fst]; [by apply Hl|].
    eapply geb_trans; [by apply Hr|by apply Hl].
  - destruct l as [l0|]; [by apply IHl|constructor].
  - apply StronglySorted_cons. split.
    + apply Forall_forall. intros y Hy. by apply Hr.
    + destruct r as [r0|]; [by apply IHr|constructor].
Qed.

(** X6: the entries of every tree reachable by insert and pop_max
    calls, read from left to right, are in ascending order of priority. *)
Theorem reachable_entries_sorted t :
  reachable geb t →
  StronglySorted (λ a b, geb b.1 a.1 = true) (entries t).
Proof using geb_total geb_trans.
  intros Hreach. apply ordered_sorted.
  by apply (ordered_invariant geb geb_total).
Qed.

Lemma StronglySorted_reverse {A : Type} (R : relation A) (l : list A) :
  StronglySorted R l → StronglySorted (flip R) (reverse l).
Proof using Type.
  induction 1 as [|x l _ IH Hx]; [constructor|].
  rewrite reverse_cons. apply StronglySorted_app_2; [|done|repeat constructor].
  intros y z Hy ->%list_elem_of_singleton. rewrite Forall_forall in Hx.
  apply Hx. by apply elem_of_reverse.
Qed.

(** X7: popping as many times as entries were inserted empties the tree
    and returns the inserted entries in descending order of priority. *)
Theorem pop_all_sorted (l : list (P * E)) :
  ∃ popped,
    pop_n (length l) (inserts geb l) = Some (popped, BinaryTree_init)
    ∧ popped ≡ₚ l
    ∧ StronglySorted (λ a b, geb a.1 b.1 = true) popped.
Proof using geb_total geb_trans.
  pose proof (inserts_entries geb l) as Hperm.
  destruct (pop_n_enough (length l) (inserts geb l)) as (popped & t' & Hpop).
  { by rewrite Hperm. }
  destruct (pop_n_entries _ _ _ _ Hpop) as [Hent Hlen].
  assert (entries t' = []) as Hnil.
  { apply (f_equal length) in Hent.
    rewrite length_app, length_reverse, Hlen, Hperm in Hent.
    apply nil_length_inv. lia. }
  rewrite Hnil in Hent. cbn [app] in Hent.
  exists popped. split_and!.
  - rewrite Hpop. apply entries_nil_root in Hnil. destruct t' as [rt].
    cbn [root] in Hnil. by subst rt.
  - by rewrite <- Hperm, Hent, reverse_Permutation.
  - rewrite <- (reverse_involutive popped), <- Hent.
    apply (StronglySorted_reverse (λ a b, geb b.1 a.1 = true)).
    apply ordered_sorted, (ordered_invariant geb geb_total), inserts_reachable.
Qed.

End Order.

End TreeMore.

(** * Equal priorities over a whole run *)

Section StampedRuns.
Context {P E : Type}.
Variable geb : P → P → bool.
Implicit Types (t : BinaryTree P (nat * E)) (popped : list (P * (nat * E))).
Implicit Types (ops : list (op P E)) (k : nat).

(** The stamps of a run are pairwise different, so that a stamp names one
    insert call. *)
Lemma stamp_ops_inserted k ops :
  Forall (λ x, k ≤ x.2.1) (inserted (stamp_ops k ops))
  ∧ NoDup (inserted (stamp_ops k ops)).
Proof.
  revert k. induction ops as [|[p e|] ops IH]; intros k; cbn [stamp_ops inserted].
  - split; constructor.
  - destruct (IH (S k)) as [Hge Hnd]. split.
    + constructor; [cbn; lia|]. eapply Forall_impl; [exact Hge|]. cbn. lia.
    + constructor; [|done]. intros Hin. rewrite Forall_forall in Hge.
      specialize (Hge _ Hin). cbn in Hge. lia.
  - apply IH.
Qed.

(** A stamped run keeps the tree stamped, and loses and makes up no
    entry. *)
Lemma run_ops_stamped k t ops t' popped :
  stamped geb k t →
  run_ops geb (stamp_ops k ops) t = Some (t', popped) →
  (∃ k', stamped geb k' t')
  ∧ entries t' ++ popped ≡ₚ entries t ++ inserted (stamp_ops k ops).
Proof.
  revert k t t' popped.
  induction ops as [|[p e|] ops IH]; intros k t t' popped Hst;
    cbn [stamp_ops run_ops inserted].
  - intros [= <- <-]. split; [by exists k|done].
  - intros Hrun.
    destruct (IH (S k) _ _ _ (stamped_insert geb k t p e Hst) Hrun) as [Hst' Hperm].
    split; [done|]. rewrite Hperm, entries_insert_perm.
    by rewrite <- Permutation_middle.
  - destruct (BinaryTree_pop_max t) as [[pe t1]|] eqn:Hpop; [|done].
    destruct (run_ops geb (stamp_ops k ops) t1) as [[t2 popped1]|] eqn:Hrun; [|done].
    intros [= <- <-].
    destruct (IH k _ _ _ (stamped_pop_max geb k t pe t1 Hst Hpop) Hrun) as [Hst' Hperm].
    split; [done|]. rewrite (entries_pop_max _ _ _ Hpop).
    rewrite <- Permutation_middle, Hperm.
    rewrite <- !app_assoc. cbn [app].
    by rewrite <- Permutation_middle, Permutation_middle.
Qed.

(** Forgetting the stamps of a stamped run gives the run itself. *)
Lemma run_ops_erase k ops t :
  run_ops geb ops (erase t)
  = match run_ops geb (stamp_ops k ops) t with
    | Some (t', popped) => Some (erase t', (λ x, (x.1, x.2.2)) <$> popped)
    | None => None
    end.
Proof.
  revert k t. induction ops as [|[p e|] ops IH]; intros k t;
    cbn [stamp_ops run_ops].
  - done.
  - rewrite <- (IH (S k)). by rewrite erase_insert.
  - rewrite erase_pop_max.
    destruct (BinaryTree_pop_max t) as [[[q x] t1]|]; [|done].
    rewrite (IH k t1).
    by destruct (run_ops geb (stamp_ops k ops) t1) as [[t2 popped1]|].
Qed.

Section Order.
Hypothesis geb_total : ∀ a b : P, geb a b = true ∨ geb b a = true.
Hypothesis geb_trans :
  ∀ a b c : P, geb a b = true → geb b c = true → geb a c = true.

(** C10: take any sequence of insert and pop_max calls on an empty tree
    that raises nothing, every inserted payload carrying the number of
    inserts made before it.  When an inserted entry has not been popped yet,
    the next pop_max returns such an entry; its priority is [>=] that of
    every inserted entry not popped yet, and among those whose priority is
    [>=] its own (hence equal to it) none was inserted later: entries of
    equal maximal priority leave last in, first out. *)
Theorem pop_max_lifo ops t popped :
  run_ops geb (stamp_ops 0 ops) BinaryTree_init = Some (t, popped) →
  (∃ x, x ∈ inserted (stamp_ops 0 ops) ∧ x ∉ popped) →
  ∃ p k0 e t',
    BinaryTree_pop_max t = Some ((p, (k0, e)), t')
    ∧ (p, (k0, e)) ∈ inserted (stamp_ops 0 ops)
    ∧ ((p, (k0, e)) ∉ popped)
    ∧ ∀ y, y ∈ inserted (stamp_ops 0 ops) → y ∉ popped →
        geb p y.1 = true ∧ (geb y.1 p = true → y.2.1 ≤ k0).
Proof using geb_total geb_trans.
  intros Hrun (x & Hx & Hnx).
  destruct (run_ops_stamped 0 BinaryTree_init ops t popped (stamped_init geb) Hrun)
    as [[k' Hst] Hperm].
  change (entries BinaryTree_init ++ inserted (stamp_ops 0 ops))
    with (inserted (stamp_ops 0 ops)) in Hperm.
  assert (∀ y, y ∈ inserted (stamp_ops 0 ops) → y ∉ popped → y ∈ entries t) as Hheld.
  { intros y Hy Hny. rewrite <- Hperm in Hy.
    by apply elem_of_app in Hy as [?|?]. }
  assert (∀ y, y ∈ entries t → y ∈ inserted (stamp_ops 0 ops) ∧ y ∉ popped) as Hin.
  { intros y Hy. split.
    - rewrite <- Hperm. apply elem_of_app. by left.
    - destruct (stamp_ops_inserted 0 ops) as [_ Hnd]. rewrite <- Hperm in Hnd.
      apply NoDup_app in Hnd as (_ & Hdisj & _). by apply Hdisj. }
  assert (root t ≠ None) as Hroot.
  { intros Hnone%entries_nil_root. specialize (Hheld x Hx Hnx).
    rewrite Hnone in Hheld. by apply elem_of_nil in Hheld. }
  destruct (stamped_pop_max_latest geb geb_trans geb_total k' t Hst Hroot)
    as (p & k0 & e & t' & Hpop & Hent & Hmax & Hlate).
  exists p, k0, e, t'.
  assert ((p, (k0, e)) ∈ entries t) as Hret.
  { rewrite Hent. apply elem_of_app. right. by apply list_elem_of_singleton. }
  destruct (Hin _ Hret) as [Hret1 Hret2].
  split_and!; [done|done|done|].
  intros y Hy Hny. specialize (Hheld _ Hy Hny).
  split; [exact (Hmax _ Hheld)|].
  intros Hge. rewrite Hent in Hheld.
  apply elem_of_app in Hheld as [Hleft|Heq%list_elem_of_singleton].
  - specialize (Hlate _ Hleft Hge). lia.
  - by subst y.
Qed.

End Order.

End StampedRuns.

(** * The plot layout *)

Section PlotFacts.
Context {P E : Type}.
Implicit Types (n : Node P E) (o : option (Node P E)) (t : BinaryTree P E).
Implicit Types (rows acc : list (Z * Q * P)) (loc : Q) (d c : Z).

Lemma Node_get_xy_vals_acc n acc loc d c :
  Node_get_xy_vals n acc loc d c = acc ++ Node_get_xy_vals n [] loc d c.
Proof.
  revert acc loc c. induction n as [l v e r IHl IHr] using Node_ind'.
  intros acc loc c. cbn [Node_get_xy_vals app].
  destruct r as [r0|], l as [l0|]; cbn [slot_holds] in IHl, IHr.
  - rewrite (IHl (Node_get_xy_vals r0 _ _ _ _)), (IHr (acc ++ _)).
    rewrite (IHl (Node_get_xy_vals r0 [_] _ _ _)), (IHr [_]).
    by rewrite <- !app_assoc.
  - rewrite (IHr (acc ++ _)), (IHr [_]). by rewrite <- !app_assoc.
  - rewrite (IHl (acc ++ _)), (IHl [_]). by rewrite <- !app_assoc.
  - done.
Qed.

Lemma Node_get_xy_vals_unfold (l r : option (Node P E)) (v : P) (e : E) loc d c :
  Node_get_xy_vals (mkNode l v e r) [] loc d c
  = (c, (loc - 1)%Q, v)
    :: slot_xy_vals r (loc + 2 ^ (d - (c + 1) - 1))%Q d (c + 1)
    ++ slot_xy_vals l (loc - 2 ^ (d - (c + 1) - 1))%Q d (c + 1).
Proof.
  cbn [Node_get_xy_vals app slot_xy_vals].
  destruct r as [r0|], l as [l0|].
  - by rewrite Node_get_xy_vals_acc, (Node_get_xy_vals_acc r0 [_]).
  - by rewrite Node_get_xy_vals_acc, app_nil_r.
  - by rewrite Node_get_xy_vals_acc.
  - done.
Qed.

Lemma Node_get_xy_vals_values n loc d c :
  (Node_get_xy_vals n [] loc d c).*2 ≡ₚ (Node_entries n).*1.
Proof.
  revert loc c. induction n as [l v e r IHl IHr] using Node_ind'. intros loc c.
  rewrite Node_get_xy_vals_unfold, Node_entries_unfold.
  rewrite fmap_cons, !fmap_app, fmap_cons. cbn [fst snd].
  rewrite <- Permutation_middle. apply Permutation_skip.
  rewrite Permutation_app_comm. apply Permutation_app.
  - destruct l as [l0|]; [apply IHl|done].
  - destruct r as [r0|]; [apply IHr|done].
Qed.

Lemma Qpower_2_step (k : Z) : (2 ^ (k + 1) == 2 * 2 ^ k)%Q.
Proof.
  rewrite Qpower_plus by done. change (2 ^ 1)%Q with 2%Q. lra.
Qed.

Lemma Qpower_2_pos (k : Z) : (0 < 2 ^ k)%Q.
Proof. by apply Qpower_0_lt. Qed.

(** Every row of a subtree lies at a level between the level of its root
    and its depth below, and strictly within [2 ^ (d - c - 1)] of the
    location of its root. *)
Lemma Node_get_xy_vals_span n loc d c :
  Forall (λ row, (c ≤ row.1.1 < c + Node_depth n)%Z
                 ∧ (loc - 2 ^ (d - c - 1) < row.1.2 + 1)%Q
                 ∧ (row.1.2 + 1 < loc + 2 ^ (d - c - 1))%Q)
    (Node_get_xy_vals n [] loc d c).
Proof.
  revert loc c. induction n as [l v e r IHl IHr] using Node_ind'. intros loc c.
  rewrite Node_get_xy_vals_unfold, Node_depth_unfold.
  pose proof (slot_depth_nonneg l) as Hdl. pose proof (slot_depth_nonneg r) as Hdr.
  pose proof (Qpower_2_step (d - (c + 1) - 1)) as Hstep.
  replace (d - (c + 1) - 1 + 1)%Z with (d - c - 1)%Z in Hstep by lia.
  pose proof (Qpower_2_pos (d - (c + 1) - 1)) as Hpos.
  apply Forall_cons. split; [|apply Forall_app; split].
  - cbn [fst snd]. split; [lia|]. split; lra.
  - destruct r as [r0|]; [|constructor]. cbn [slot_xy_vals slot_holds slot_depth] in *.
    eapply Forall_impl; [apply IHr|]. cbn beta.
    intros row (Hlev & Hlo & Hhi). split; [lia|]. split; lra.
  - destruct l as [l0|]; [|constructor]. cbn [slot_xy_vals slot_holds slot_depth] in *.
    eapply Forall_impl; [apply IHl|]. cbn beta.
    intros row (Hlev & Hlo & Hhi). split; [lia|]. split; lra.
Qed.

(** No two rows of a subtree have the same location. *)
Lemma Node_get_xy_vals_apart n loc d c :
  StronglySorted (λ a b, ¬ (a.1.2 == b.1.2)%Q) (Node_get_xy_vals n [] loc d c).
Proof.
  revert loc c. induction n as [l v e r IHl IHr] using Node_ind'. intros loc c.
  rewrite Node_get_xy_vals_unfold.
  pose proof (Qpower_2_pos (d - (c + 1) - 1)) as Hpos.
  assert (Forall (λ row, (loc < row.1.2 + 1)%Q)
            (slot_xy_vals r (loc + 2 ^ (d - (c + 1) - 1))%Q d (c + 1))) as Hright.
  { destruct r as [r0|]; [|constructor]. cbn [slot_xy_vals].
    eapply Forall_impl; [apply Node_get_xy_vals_span|]. cbn beta.
    intros row (_ & Hlo & _). lra. }
  assert (Forall (λ row, (row.1.2 + 1 < loc)%Q)
            (slot_xy_vals l (loc - 2 ^ (d - (c + 1) - 1))%Q d (c + 1))) as Hleft.
  { destruct l as [l0|]; [|constructor]. cbn [slot_xy_vals].
    eapply Forall_impl; [apply Node_get_xy_vals_span|]. cbn beta.
    intros row (_ & _ & Hhi). lra. }
  rewrite Forall_forall in Hright, Hleft.
  apply StronglySorted_cons. split.
  - apply Forall_app. split; apply Forall_forall; intros row Hrow; cbn [fst snd].
    + specialize (Hright row Hrow). lra.
    + specialize (Hleft row Hrow). lra.
  - apply StronglySorted_app_2.
    + intros a b Ha Hb. specialize (Hright a Ha). specialize (Hleft b Hb). lra.
    + destruct r as [r0|]; [apply IHr|constructor].
    + destruct l as [l0|]; [apply IHl|constructor].
Qed.

Lemma StronglySorted_lookup {A : Type} (R : relation A) (l : list A) i j a b :
  StronglySorted R l → i < j → l !! i = Some a → l !! j = Some b → R a b.
Proof.
  intros Hl. revert i j. induction Hl as [|x l _ IH Hx]; intros i j Hij Hi Hj; [done|].
  destruct j as [|j]; [lia|]. cbn in Hj. destruct i as [|i].
  - injection Hi as <-. rewrite Forall_forall in Hx. apply Hx.
    by eapply list_elem_of_lookup_2.
  - cbn in Hi. apply (IH i j); [lia|done|done].
Qed.

(** X8: the rows [BinaryTree.plot] computes.  On the empty tree the call
    raises AttributeError.  Otherwise there is one row per node, carrying its
    priority; with [d] the depth of the tree, every row has a level from 0 to
    [d - 1] and a location strictly between -1 and [2 ^ d - 1]; and no two
    rows have the same location. *)
Theorem plot_yx_list_layout t :
  match root t with
  | None => BinaryTree_plot_yx_list t = Raise AttributeError
  | Some n =>
      ∃ rows,
        BinaryTree_plot_yx_list t = Ok rows
        ∧ rows.*2 ≡ₚ (entries t).*1
        ∧ Forall (λ row, (0 ≤ row.1.1 < Node_depth n)%Z
                         ∧ (-1 < row.1.2)%Q
                         ∧ (row.1.2 < 2 ^ Node_depth n - 1)%Q) rows
        ∧ ∀ i j a b, rows !! i = Some a → rows !! j = Some b → i ≠ j →
            ¬ (a.1.2 == b.1.2)%Q
  end.
Proof.
  destruct t as [[n|]]; unfold BinaryTree_plot_yx_list, entries;
    cbn [root slot_entries]; [|done].
  eexists. split; [done|]. split_and!.
  - apply Node_get_xy_vals_values.
  - pose proof (Qpower_2_step (Node_depth n - 1)) as Hstep.
    replace (Node_depth n - 1 + 1)%Z with (Node_depth n) in Hstep by lia.
    eapply Forall_impl; [apply Node_get_xy_vals_span|]. cbn beta.
    replace (Node_depth n - 0 - 1)%Z with (Node_depth n - 1)%Z by lia.
    intros row (Hlev & Hlo & Hhi). split; [lia|]. split; lra.
  - intros i j a b Hi Hj Hij.
    pose proof (Node_get_xy_vals_apart n (2 ^ (Node_depth n - 1))%Q
                  (Node_depth n) 0) as Hapart.
    destruct (decide (i < j)) as [Hlt|Hge].
    + by apply (StronglySorted_lookup _ _ i j a b Hapart).
    + intros Heq. symmetry in Heq. revert Heq.
      apply (StronglySorted_lookup _ _ j i b a Hapart); [lia|done|done].
Qed.

End PlotFacts.

(** * Further properties of the prioritized store *)

Section StoreMore.
Context {P state reward np_dtype : Type}.
Variable geb : P → P → bool.
Variable zeros_like : np_dtype → state → state.
Variable astype_state : np_dtype → state → state.
Variable astype_reward : np_dtype → reward → reward.
Implicit Types (self : PrioritizedExperienceHandler P state reward).
Implicit Types (b : ExperienceHandler state reward) (loc : locals state reward).
Implicit Types (mini_batch i : Z) (popped : list (P * Z)) (dtype : np_dtype).

(** *** What a call does to the store *)

Lemma for_each_effect dtype exps loc self r self' :
  for_each exps (loop_body astype_state dtype) loc self = (r, self') →
  buffer self' = buffer self
  ∧ ∃ j popped,
      j ≤ length exps
      ∧ pop_n j (tree self) = Some (popped, tree self')
      ∧ match r with
        | Ok loc' =>
            j = length exps
            ∧ mb_inds_poped loc' = mb_inds_poped loc ++ popped.*2
        | Raise AttributeError => j < length exps ∧ root (tree self') = None
        | Raise IndexError =>
            ∃ i, last popped.*2 = Some i ∧ resolves (buffer self) i = false
        | Raise ValueError => False
        end.
Proof.
  revert loc self. induction exps as [|exp exps IH]; intros loc self; cbn [for_each].
  - unfold ret. intros [= <- <-]. split; [done|]. exists 0, [].
    cbn [pop_n length fmap list_fmap]. by rewrite app_nil_r.
  - unfold bind at 1.
    destruct (BinaryTree_pop_max (tree self)) as [[[p i] t1]|] eqn:Hpop.
    + destruct (resolves (buffer self) i) eqn:Hres.
      * destruct (loop_body_ok astype_state dtype exp loc self p i t1 Hpop Hres) as (loc1 & -> & Hinds).
        intros Hrest. destruct (IH _ _ Hrest) as (Hbuf & j & popped & Hj & Hpops & Hr).
        cbn [buffer tree] in *. split; [done|].
        exists (S j), ((p, i) :: popped). cbn [pop_n length]. rewrite Hpop, Hpops.
        split_and!; [lia|done|].
        destruct r as [loc'|[]]; cbn [fmap list_fmap].
        -- destruct Hr as [-> ->]. by rewrite Hinds, <- app_assoc.
        -- destruct Hr as [? ?]. split; [lia|done].
        -- destruct Hr as (i' & Hlast & Hi'). exists i'. split; [|done].
           destruct (popped.*2) as [|x l] eqn:Hp; [done|]. done.
        -- done.
      * rewrite (loop_body_stale astype_state dtype exp loc self p i t1 Hpop Hres).
        intros [= <- <-]. cbn [buffer tree]. split; [done|].
        exists 1, [(p, i)]. cbn [pop_n length]. rewrite Hpop.
        split_and!; [lia|done|]. by exists i.
    + apply BinaryTree_pop_max_None in Hpop.
      rewrite (loop_body_empty astype_state dtype exp loc self Hpop). intros [= <- <-].
      split; [done|]. exists 0, []. cbn [pop_n length].
      split_and!; [lia|done|lia|done].
Qed.

(** X9: whatever it returns or raises, get_prioritized_experience
    leaves the buffer as it is, and the tree it leaves is the tree after some
    number of pop_max calls, at most [mini_batch] of them; when it returns a
    batch that number is [mini_batch] and the returned indices are the
    payloads popped, in the order of the calls. *)
Theorem get_only_pops dtype mini_batch self :
  let '(r, self') := get_prioritized_experience zeros_like astype_state astype_reward mini_batch
    dtype self in
  buffer self' = buffer self
  ∧ ∃ j popped,
      j ≤ Z.to_nat mini_batch
      ∧ pop_n j (tree self) = Some (popped, tree self')
      ∧ ∀ mbs acts rws tp1 term inds,
          r = Ok (Some mbs, Some acts, Some rws, Some tp1, Some term, Some inds) →
          j = Z.to_nat mini_batch ∧ inds = popped.*2.
Proof.
  unfold get_prioritized_experience.
  case_bool_decide as Hsize.
  { split; [done|]. exists 0, []. cbn [pop_n]. split_and!; [lia|done|done]. }
  unfold bind at 1. unfold getitem at 1.
  destruct (py_getitem (states (buffer self)) 0) as [s0|].
  2:{ split; [done|]. exists 0, []. cbn [pop_n]. split_and!; [lia|done|done]. }
  case_bool_decide as Hneg.
  { unfold raise. split; [done|]. exists 0, []. cbn [pop_n].
    split_and!; [lia|done|done]. }
  unfold bind, ret.
  destruct (for_each _ _ _ _) as [r self'] eqn:Hloop.
  destruct (for_each_effect _ _ _ _ _ _ Hloop) as (Hbuf & j & popped & Hj & Hpops & Hr).
  rewrite length_seq in Hj.
  destruct r as [loc'|e]; (split; [done|]); exists j, popped;
    (split_and!; [done|done|]).
  - intros mbs acts rws tp1 term inds [= _ _ _ _ _ <-].
    destruct Hr as [-> ->]. by rewrite length_seq.
  - done.
Qed.

(** *** The rows copied from the buffer *)

Lemma loop_body_rows dtype exp loc self loc' self' :
  loop_body astype_state dtype exp loc self = (Ok loc', self') →
  ∃ i s a r,
    mb_inds_poped loc' = mb_inds_poped loc ++ [i]
    ∧ py_getitem (states (buffer self)) i = Some s
    ∧ py_getitem (actions (buffer self)) i = Some a
    ∧ py_getitem (rewards (buffer self)) i = Some r
    ∧ mb_states loc' = <[exp := astype_state dtype s]> (mb_states loc)
    ∧ mb_actions loc' = mb_actions loc ++ [a]
    ∧ mb_rewards loc' = mb_rewards loc ++ [r]
    ∧ buffer self' = buffer self.
Proof.
  unfold loop_body, bind, tree_pop_max, getitem, in_term_states, ret.
  destruct (BinaryTree_pop_max (tree self)) as [[[p i] t']|] eqn:Hpop; [|done].
  cbn [buffer].
  destruct (py_getitem (states (buffer self)) i) as [s|] eqn:Hs; [|done].
  cbn [buffer]. case_bool_decide as Hterm; cbn [buffer] in Hterm |- *.
  - destruct (py_getitem (actions (buffer self)) i) as [a|] eqn:Ha; [|done].
    cbn [buffer].
    destruct (py_getitem (rewards (buffer self)) i) as [r|] eqn:Hr; [|done].
    intros [= <- <-]. by exists i, s, a, r.
  - destruct (py_getitem (states (buffer self)) (i + 1)) as [s1|] eqn:Hs1; [|done].
    cbn [buffer].
    destruct (py_getitem (actions (buffer self)) i) as [a|] eqn:Ha; [|done].
    cbn [buffer].
    destruct (py_getitem (rewards (buffer self)) i) as [r|] eqn:Hr; [|done].
    intros [= <- <-]. by exists i, s, a, r.
Qed.

Lemma loop_body_collected dtype b n j loc self loc' self' :
  buffer self = b → j < n → collected astype_state dtype b n j loc →
  loop_body astype_state dtype j loc self = (Ok loc', self') →
  collected astype_state dtype b n (S j) loc'.
Proof.
  intros <- Hj (Hlen1 & Hlen2 & Hlen3 & Hlen4 & Hdone) Hbody.
  destruct (loop_body_rows _ _ _ _ _ _ Hbody)
    as (i & s & a & r & Hinds & Hs & Ha & Hr & Hst & Hac & Hrw & _).
  unfold collected. rewrite Hinds, Hst, Hac, Hrw, !length_app, length_insert.
  cbn [length].
  split_and!; [lia|lia|lia|done|].
  intros k i0 Hk. destruct (decide (k < j)) as [Hlt|Hge].
  - rewrite lookup_app_l in Hk by lia.
    destruct (Hdone k i0 Hk) as (s' & a' & r' & ? & ? & ? & ? & ? & ?).
    exists s', a', r'. rewrite list_lookup_insert_ne by lia.
    rewrite !lookup_app_l by lia. done.
  - assert (k = j) as ->.
    { apply lookup_lt_Some in Hk. rewrite length_app in Hk. cbn in Hk. lia. }
    rewrite <- Hlen1, list_lookup_middle in Hk by done. injection Hk as <-.
    assert ((mb_actions loc ++ [a]) !! j = Some a) as Hja
      by (rewrite <- Hlen2; by apply list_lookup_middle).
    assert ((mb_rewards loc ++ [r]) !! j = Some r) as Hjr
      by (rewrite <- Hlen3; by apply list_lookup_middle).
    exists s, a, r. rewrite list_lookup_insert_eq by lia. done.
Qed.

Lemma for_each_collected dtype b n m j loc self loc' self' :
  buffer self = b → j + m ≤ n → collected astype_state dtype b n j loc →
  for_each (seq j m) (loop_body astype_state dtype) loc self = (Ok loc', self') →
  collected astype_state dtype b n (j + m) loc'.
Proof.
  revert j loc self. induction m as [|m IH]; intros j loc self Hb Hjm Hinv;
    cbn [seq for_each].
  - unfold ret. intros [= <- <-]. by rewrite Nat.add_0_r.
  - unfold bind at 1.
    destruct (loop_body astype_state dtype j loc self) as [[loc1|e] self1] eqn:Hbody; [|done].
    intros Hrest. replace (j + S m) with (S j + m) by lia.
    destruct (loop_body_rows _ _ _ _ _ _ Hbody) as (? & ? & ? & ? & _ & _ & _ & _ & _ & _ & _ & Hb1).
    eapply IH; [|lia| |exact Hrest]; [congruence|].
    eapply loop_body_collected; [exact Hb|lia|exact Hinv|exact Hbody].
Qed.

(** X10: in a returned batch the arrays of states, actions, rewards and
    indices have [mini_batch] rows; at each position the action is the item
    of the action list at that position's popped index, and the state and
    the reward are the items of the state and reward lists at that index
    converted to the [dtype] of the call. *)
Theorem batch_rows_from_buffer dtype mini_batch self mbs acts rws tp1 term inds self' :
  get_prioritized_experience zeros_like astype_state astype_reward mini_batch
    dtype self
  = (Ok (Some mbs, Some acts, Some rws, Some tp1, Some term, Some inds), self') →
  length mbs = Z.to_nat mini_batch
  ∧ length acts = Z.to_nat mini_batch
  ∧ length rws = Z.to_nat mini_batch
  ∧ length inds = Z.to_nat mini_batch
  ∧ ∀ k i, inds !! k = Some i →
      ∃ s a r,
        py_getitem (states (buffer self)) i = Some s
        ∧ mbs !! k = Some (astype_state dtype s)
        ∧ py_getitem (actions (buffer self)) i = Some a ∧ acts !! k = Some a
        ∧ py_getitem (rewards (buffer self)) i = Some r
        ∧ rws !! k = Some (astype_reward dtype r).
Proof.
  intros Hget.
  destruct (get_prioritized_experience_inv _ _ _ _ _ _ _ _ Hget) as (Hsize & Hmb & s0 & Hs0);
    [done|].
  rewrite (get_prioritized_experience_run _ _ _ _ _ _ s0) in Hget by done.
  cbn zeta in Hget.
  destruct (for_each _ _ _ _) as [[loc|e] self1] eqn:Hloop; [|done].
  injection Hget as <- <- <- <- <- <- <-.
  assert (collected astype_state dtype (buffer self) (Z.to_nat mini_batch)
            (0 + Z.to_nat mini_batch) loc)
    as (H1 & H2 & H3 & H4 & H5).
  { eapply for_each_collected; [reflexivity|lia| |exact Hloop].
    unfold collected. cbn [mb_inds_poped mb_actions mb_rewards mb_states length].
    split_and!; try done. apply length_replicate. }
  rewrite length_fmap. split_and!; [done|done|done|done|].
  intros k i Hk. destruct (H5 k i Hk) as (s & a & r & Hs & Hsk & Ha & Hak & Hr & Hrk).
  exists s, a, r. by rewrite list_lookup_fmap, Hrk.
Qed.

(** *** The order of a batch *)

(** X11: on a tree that satisfies the ordering invariant, a returned
    batch lists the payloads of the [mini_batch] entries of highest priority,
    highest first: the priorities of the popped entries descend, and each is
    [>=] the priority of every entry left in the tree. *)
Theorem batch_in_priority_order
    (geb_trans : ∀ a b c : P, geb a b = true → geb b c = true → geb a c = true)
    dtype mini_batch self mbs acts rws tp1 term inds self' :
  ordered geb (tree self) →
  get_prioritized_experience zeros_like astype_state astype_reward mini_batch
    dtype self
  = (Ok (Some mbs, Some acts, Some rws, Some tp1, Some term, Some inds), self') →
  ∃ popped,
    inds = popped.*2
    ∧ length popped = Z.to_nat mini_batch
    ∧ entries (tree self) = entries (tree self') ++ reverse popped
    ∧ StronglySorted (λ x y : P * Z, geb x.1 y.1 = true) popped
    ∧ ∀ x y, x ∈ popped → y ∈ entries (tree self') → geb x.1 y.1 = true.
Proof.
  intros Hord Hget.
  destruct (get_prioritized_experience_inv _ _ _ _ _ _ _ _ Hget) as (Hsize & Hmb & s0 & Hs0);
    [done|].
  rewrite (get_prioritized_experience_run _ _ _ _ _ _ s0) in Hget by done.
  cbn zeta in Hget.
  destruct (for_each _ _ _ _) as [[loc|e] self1] eqn:Hloop; [|done].
  injection Hget as <- <- <- <- <- <- <-.
  destruct (for_each_inv _ _ _ _ _ _ _ Hloop) as (popped & Hpops & _ & Hinds & _).
  rewrite length_seq in Hpops. cbn [mb_inds_poped app] in Hinds.
  destruct (pop_n_entries _ _ _ _ Hpops) as [Hent Hlen].
  exists popped. split_and!; [done|done|done| |].
  - apply (ordered_sorted geb geb_trans) in Hord. fold (entries (tree self)) in Hord.
    rewrite Hent in Hord. apply StronglySorted_app_1_r in Hord.
    apply StronglySorted_reverse in Hord. by rewrite reverse_involutive in Hord.
  - intros x y Hx Hy.
    apply (ordered_sorted geb geb_trans) in Hord. fold (entries (tree self)) in Hord.
    rewrite Hent in Hord.
    apply (StronglySorted_app_1_elem_of _ _ _ y x Hord); [done|].
    by apply elem_of_reverse.
Qed.

(** *** Fewer entries than asked for *)

Lemma for_each_short dtype exps1 exp exps2 loc self popped t1 :
  pop_n (length exps1) (tree self) = Some (popped, t1) →
  Forall (λ i, resolves (buffer self) i = true) popped.*2 →
  root t1 = None →
  for_each (exps1 ++ exp :: exps2) (loop_body astype_state dtype) loc self
  = (Raise AttributeError, mkPrioritizedExperienceHandler (buffer self) t1).
Proof.
  revert loc self popped.
  induction exps1 as [|exp1 exps1 IH]; intros loc self popped;
    cbn [for_each length pop_n app].
  - intros [= <- <-] _ Hroot. unfold bind at 1.
    rewrite (loop_body_empty _ _ _ _ _ Hroot). by destruct self.
  - destruct (BinaryTree_pop_max (tree self)) as [[[p1 i1] t']|] eqn:Hpop1; [|done].
    destruct (pop_n (length exps1) t') as [[popped1 t'']|] eqn:Hrest; [|done].
    intros [= <- <-]. cbn [fmap list_fmap]. intros [Hi Hall]%Forall_cons Hroot.
    destruct (loop_body_ok astype_state dtype exp1 loc self p1 i1 t' Hpop1 Hi) as (loc1 & Hbody & _).
    unfold bind at 1. rewrite Hbody.
    by apply (IH loc1 (mkPrioritizedExperienceHandler (buffer self) t') popped1).
Qed.

(** X12: when the buffer is large enough for the batch but the tree
    holds fewer entries than [mini_batch], all of them resolvable, the call
    raises AttributeError, returns no batch and leaves the tree empty: the
    entries it popped are gone. *)
Theorem tree_shortage_raises dtype mini_batch self :
  (size (buffer self) > mini_batch)%Z →
  is_Some (py_getitem (states (buffer self)) 0) →
  length (entries (tree self)) < Z.to_nat mini_batch →
  Forall (λ i, resolves (buffer self) i = true) (entries (tree self)).*2 →
  get_prioritized_experience zeros_like astype_state astype_reward mini_batch
    dtype self
  = (Raise AttributeError,
     mkPrioritizedExperienceHandler (buffer self) BinaryTree_init).
Proof.
  intros Hsize [s0 Hs0] Hlen Hall.
  destruct (pop_n_enough (length (entries (tree self))) (tree self))
    as (popped & t1 & Hpops); [done|].
  destruct (pop_n_entries _ _ _ _ Hpops) as [Hent Hk].
  assert (entries t1 = []) as Hnil.
  { apply (f_equal length) in Hent. rewrite length_app, length_reverse, Hk in Hent.
    apply nil_length_inv. lia. }
  rewrite Hnil in Hent. cbn [app] in Hent.
  rewrite Hent, fmap_reverse, Forall_reverse in Hall.
  apply entries_nil_root in Hnil. destruct t1 as [rt]. cbn [root] in Hnil. subst rt.
  rewrite (get_prioritized_experience_run _ _ _ _ _ _ s0) by (done || lia). cbn zeta.
  set (k := length (entries (tree self))) in *.
  assert (seq 0 (Z.to_nat mini_batch)
          = seq 0 k ++ k :: seq (S k) (Z.to_nat mini_batch - S k)) as ->.
  { replace (Z.to_nat mini_batch) with (k + S (Z.to_nat mini_batch - S k)) at 1
      by lia.
    by rewrite seq_app. }
  erewrite for_each_short; [done| |exact Hall|done].
  by rewrite length_seq.
Qed.

(** *** Reporting priorities *)

Lemma foldl_insert_entries (l : list (P * Z)) self :
  let self' :=
    foldl (λ s '(td_error, ind),
             mkPrioritizedExperienceHandler (buffer s)
               (BinaryTree_insert geb (tree s) td_error ind)) self l in
  buffer self' = buffer self
  ∧ entries (tree self') ≡ₚ entries (tree self) ++ l
  ∧ (reachable geb (tree self) → reachable geb (tree self')).
Proof.
  revert self. induction l as [|[p i] l IH]; intros self; cbn [foldl].
  - by rewrite app_nil_r.
  - destruct (IH (mkPrioritizedExperienceHandler (buffer self)
                    (BinaryTree_insert geb (tree self) p i))) as (Hb & He & Hr).
    cbn [buffer tree] in *. split_and!; [done| |].
    + rewrite He, entries_insert_perm. by rewrite <- Permutation_middle.
    + intros Hreach. apply Hr. by constructor.
Qed.

(** X13: set_new_td_errors leaves the buffer as it is and adds to the
    tree one entry per pair of [zip(td_errors, state_inds)], so that what the
    longer argument has beyond the length of the shorter one is ignored; a
    tree reachable by insert and pop_max calls stays one. *)
Theorem set_new_td_errors_entries self (td_errors : list P) (state_inds : list Z) :
  let self' := set_new_td_errors geb self td_errors state_inds in
  buffer self' = buffer self
  ∧ entries (tree self') ≡ₚ entries (tree self) ++ zip td_errors state_inds
  ∧ length (entries (tree self'))
    = length (entries (tree self)) + length td_errors `min` length state_inds
  ∧ (reachable geb (tree self) → reachable geb (tree self')).
Proof.
  unfold set_new_td_errors.
  destruct (foldl_insert_entries (zip td_errors state_inds) self) as (Hb & He & Hr).
  cbn zeta in *. split_and!; [done|done| |done].
  by rewrite He, length_app, length_zip.
Qed.

End StoreMore.

(** * Stores without ended episodes *)

Section PlainFacts.
Context {P state reward np_dtype : Type}.
Variable geb : P → P → bool.
Variable inf : P.
Variable zeros_like : np_dtype → state → state.
Variable astype_state : np_dtype → state → state.
Variable astype_reward : np_dtype → reward → reward.
Implicit Types (self : PrioritizedExperienceHandler P state reward).
Implicit Types (mini_batch : Z) (dtype : np_dtype) (seen : list Z).
Implicit Types (txs : list (state * Z * reward)).

(** Whatever a call returns or raises, the entries it removed are the
    only change, and the indices it hands out are the payloads of all of them
    or none. *)
Lemma get_prioritized_experience_effect dtype mini_batch self r self' :
  get_prioritized_experience zeros_like astype_state astype_reward mini_batch
    dtype self = (r, self') →
  buffer self' = buffer self
  ∧ ∃ popped : list (P * Z),
      entries (tree self) = entries (tree self') ++ reverse popped
      ∧ (returned_inds r = popped.*2 ∨ returned_inds r = []).
Proof.
  unfold get_prioritized_experience.
  case_bool_decide as Hsize.
  { intros [= <- <-]. split; [done|]. exists []. rewrite app_nil_r. by split; [|right]. }
  unfold bind at 1. unfold getitem at 1.
  destruct (py_getitem (states (buffer self)) 0) as [s0|].
  2:{ intros [= <- <-]. split; [done|]. exists []. rewrite app_nil_r.
      by split; [|right]. }
  case_bool_decide as Hneg.
  { unfold raise. intros [= <- <-]. split; [done|]. exists []. rewrite app_nil_r.
    by split; [|right]. }
  unfold bind, ret.
  destruct (for_each _ _ _ _) as [r0 self0] eqn:Hloop.
  destruct (for_each_effect _ _ _ _ _ _ _ Hloop) as (Hbuf & j & popped & Hj & Hpops & Hr).
  destruct (pop_n_entries _ _ _ _ Hpops) as [Hent _].
  destruct r0 as [loc'|e]; intros [= <- <-]; (split; [done|]); exists popped;
    (split; [done|]).
  - left. cbn [returned_inds]. destruct Hr as [_ ->]. done.
  - by right.
Qed.

(** The invariant of these stores: the three lists and the size agree,
    and the payloads held by the tree together with the indices returned so
    far are pairwise different indices that have a successor in the buffer. *)
Lemma plain_inv self seen :
  plain geb inf zeros_like astype_state astype_reward self seen →
  size (buffer self) = Z.of_nat (length (states (buffer self)))
  ∧ length (actions (buffer self)) = length (states (buffer self))
  ∧ length (rewards (buffer self)) = length (states (buffer self))
  ∧ NoDup ((entries (tree self)).*2 ++ seen)
  ∧ Forall (λ i, (0 ≤ i)%Z ∧ (i + 1 < Z.of_nat (length (states (buffer self))))%Z)
      ((entries (tree self)).*2 ++ seen).
Proof.
  induction 1 as [max_len|self seen st action rw _ (Hsize & Hact & Hrw & Hnd & Hall)
                 |self seen mini_batch dtype r self' _ (Hsize & Hact & Hrw & Hnd & Hall) Hget
                 |self seen tds inds _ (Hsize & Hact & Hrw & Hnd & Hall) Hndi Hsub].
  - cbn. split_and!; [done|done|done|constructor|constructor].
  - unfold add_experience, ExperienceHandler_add_experience.
    cbn [buffer tree states actions rewards size].
    rewrite !length_app. cbn [length].
    assert (Forall (λ i, (0 ≤ i)%Z
                         ∧ (i + 1 < Z.of_nat (length (states (buffer self)) + 1))%Z)
              ((entries (tree self)).*2 ++ seen)) as Hall'.
    { eapply Forall_impl; [exact Hall|]. cbn. lia. }
    case_bool_decide as Hind; cbn [buffer tree states actions rewards size].
    + rewrite !length_app. cbn [length].
      destruct (entries_insert geb (tree self) inf
                  (Z.of_nat (length (states (buffer self)) + 1) - 2)%Z)
        as (l1 & l2 & Hold & ->).
      rewrite Hold in Hnd, Hall, Hall'.
      rewrite !fmap_app, fmap_cons in *. cbn [snd].
      split_and!; [lia|lia|lia| |].
      * rewrite <- app_assoc in Hnd |- *. cbn [app].
        apply NoDup_app in Hnd as (Hn1 & Hdisj & Hn2).
        apply NoDup_app. split_and!; [done| |].
        -- intros i Hi [->|Hi2]%elem_of_cons; [|by apply (Hdisj i)].
           rewrite Forall_forall in Hall.
           destruct (Hall (Z.of_nat (length (states (buffer self)) + 1) - 2)%Z)
             as [_ Hlt]; [in_list|lia].
        -- constructor; [|done]. intros Hi.
           rewrite Forall_forall in Hall.
           destruct (Hall (Z.of_nat (length (states (buffer self)) + 1) - 2)%Z)
             as [_ Hlt]; [apply elem_of_app in Hi as [?|?]; in_list|lia].
      * rewrite <- app_assoc in Hall' |- *. cbn [app].
        rewrite Forall_app, Forall_cons in *. destruct Hall' as [Ha Hb].
        split_and!; [done|lia|lia|done].
    + rewrite !length_app. cbn [length]. split_and!; [lia|lia|lia|done|done].
  - destruct (get_prioritized_experience_effect _ _ _ _ _ Hget)
      as (Hbuf & popped & Hent & Hret).
    rewrite Hbuf. split_and!; [done|done|done| |].
    + rewrite Hent, fmap_app, fmap_reverse in Hnd.
      destruct Hret as [-> | ->].
      * eapply NoDup_Permutation_proper; [|exact Hnd].
        rewrite reverse_Permutation, <- !app_assoc.
        apply Permutation_app_head, Permutation_app_comm.
      * rewrite app_nil_r. rewrite <- app_assoc in Hnd.
        apply NoDup_app in Hnd as (Hn1 & Hdisj & Hn2).
        apply NoDup_app in Hn2 as (_ & _ & Hn3).
        apply NoDup_app. split_and!; [done| |done].
        intros i Hi Hi2. apply (Hdisj i Hi). in_list.
    + rewrite Hent, fmap_app, fmap_reverse in Hall.
      rewrite !Forall_app in Hall. destruct Hall as [[Ha Hb] Hc].
      rewrite Forall_reverse in Hb.
      destruct Hret as [-> | ->]; rewrite !Forall_app; split_and!; done.
  - unfold set_new_td_errors.
    destruct (foldl_insert_entries geb (zip tds inds) self) as (Hbuf & Hent & _).
    cbn zeta in Hbuf, Hent. rewrite Hbuf.
    set (ins := (zip tds inds).*2) in *.
    apply NoDup_app in Hnd as (Hn1 & Hdisj & Hn2).
    split_and!; [done|done|done| |].
    + rewrite Hent, fmap_app. fold ins.
      apply NoDup_app. split_and!.
      * apply NoDup_app. split_and!; [done| |done].
        intros i Hi Hi'. apply (Hdisj i Hi). by apply Hsub.
      * intros i [Hi|Hi]%elem_of_app [Hi1 Hi2]%list_elem_of_difference.
        -- by apply (Hdisj i).
        -- done.
      * by apply NoDup_list_difference.
    + rewrite Forall_forall in Hall |- *. intros i Hi. apply Hall.
      rewrite Hent, fmap_app in Hi. fold ins in Hi.
      apply elem_of_app in Hi as [[Hi|Hi]%elem_of_app|[Hi _]%list_elem_of_difference];
        in_list.
Qed.

Lemma plain_resolves self seen i :
  plain geb inf zeros_like astype_state astype_reward self seen →
  i ∈ (entries (tree self)).*2 → resolves (buffer self) i = true.
Proof.
  intros (Hsize & Hact & Hrw & _ & Hall)%plain_inv Hi.
  rewrite Forall_forall in Hall. specialize (Hall i ltac:(in_list)).
  assert (∀ {A} (l : list A) (j : Z),
            (0 ≤ j < Z.of_nat (length l))%Z → is_Some (py_getitem l j)) as Hget.
  { intros A l j Hj. unfold py_getitem. rewrite bool_decide_eq_true_2 by lia.
    apply lookup_lt_is_Some. lia. }
  apply resolves_spec. split_and!.
  - apply Hget. lia.
  - apply Hget. lia.
  - apply Hget. lia.
  - right. apply Hget. lia.
Qed.

(** The tree after [N] add_experience calls on an empty store holds
    [N - 1] entries. *)
Lemma add_all_count txs self :
  length (entries (tree self)) = length (states (buffer self)) - 1 →
  length (states (buffer (add_all geb inf txs self)))
  = length (states (buffer self)) + length txs
  ∧ length (entries (tree (add_all geb inf txs self)))
    = length (states (buffer self)) + length txs - 1.
Proof.
  revert self. induction txs as [|[[st action] rw] txs IH]; intros self Hcount;
    cbn [add_all foldl length].
  - split; lia.
  - fold (add_all geb inf txs
            (add_experience geb inf ExperienceHandler_add_experience self st action rw)).
    destruct (IH (add_experience geb inf ExperienceHandler_add_experience
                    self st action rw)) as [H1 H2].
    + unfold add_experience, ExperienceHandler_add_experience.
      cbn [buffer tree states]. rewrite !length_app. cbn [length].
      case_bool_decide as Hind; cbn [buffer tree states]; rewrite !length_app;
        cbn [length].
      * destruct (entries_insert geb (tree self) inf
                    (Z.of_nat (length (states (buffer self)) + 1) - 2)%Z)
          as (l1 & l2 & Hold & ->).
        rewrite Hold in Hcount. rewrite length_app in *. cbn [length]. lia.
      * lia.
    + revert H1 H2. unfold add_experience at 2 4, ExperienceHandler_add_experience.
      cbn [buffer tree states]. rewrite !length_app. cbn [length].
      case_bool_decide; cbn [buffer states]; rewrite !length_app; cbn [length];
        intros H1 H2; split; lia.
Qed.

Lemma add_all_plain txs self seen :
  plain geb inf zeros_like astype_state astype_reward self seen →
  plain geb inf zeros_like astype_state astype_reward (add_all geb inf txs self) seen.
Proof.
  revert self. induction txs as [|[[st action] rw] txs IH]; intros self Hplain;
    cbn [add_all foldl]; [done|].
  apply IH. by constructor.
Qed.

(** C5 (as amended): on a store reached from an empty one by
    add_experience and get_prioritized_experience calls, and
    set_new_td_errors calls on indices handed out before, a call for [k]
    items on a buffer of size [> k] whose tree holds at least [k] entries
    returns [k] indices; they are pairwise different and different from every
    index returned before and not inserted again since, each was the payload
    of an entry the call removed, and no such index is the payload of an
    entry left in the tree, so that no later call returns it before
    set_new_td_errors inserts it again.  After [N] add_experience calls on an
    empty store the tree holds [N - 1] entries, so the first call returns [k]
    different indices for every [0 <= k < N]. *)
Theorem distinct_indices_returned :
  (∀ self seen mini_batch dtype,
     plain geb inf zeros_like astype_state astype_reward self seen →
     (0 ≤ mini_batch)%Z →
     (size (buffer self) > mini_batch)%Z →
     Z.to_nat mini_batch ≤ length (entries (tree self)) →
     ∃ mbs acts rws tp1 term inds t',
       get_prioritized_experience zeros_like astype_state astype_reward mini_batch
         dtype self
       = (Ok (Some mbs, Some acts, Some rws, Some tp1, Some term, Some inds),
          mkPrioritizedExperienceHandler (buffer self) t')
       ∧ length inds = Z.to_nat mini_batch
       ∧ NoDup (seen ++ inds)
       ∧ (entries (tree self)).*2 = (entries t').*2 ++ reverse inds
       ∧ ∀ i, i ∈ seen ++ inds → i ∉ (entries t').*2)
  ∧ (∀ max_len txs mini_batch dtype,
       (0 ≤ mini_batch < Z.of_nat (length txs))%Z →
       ∃ mbs acts rws tp1 term inds self',
         get_prioritized_experience zeros_like astype_state astype_reward mini_batch
           dtype
           (add_all geb inf txs
              (mkPrioritizedExperienceHandler (ExperienceHandler_init max_len)
                 BinaryTree_init))
         = (Ok (Some mbs, Some acts, Some rws, Some tp1, Some term, Some inds), self')
         ∧ length inds = Z.to_nat mini_batch
         ∧ NoDup inds
         ∧ ∀ i, i ∈ inds → (0 ≤ i < Z.of_nat (length txs) - 1)%Z).
Proof.
  assert (∀ self seen mini_batch dtype,
     plain geb inf zeros_like astype_state astype_reward self seen →
     (0 ≤ mini_batch)%Z →
     (size (buffer self) > mini_batch)%Z →
     Z.to_nat mini_batch ≤ length (entries (tree self)) →
     ∃ mbs acts rws tp1 term inds t',
       get_prioritized_experience zeros_like astype_state astype_reward mini_batch
         dtype self
       = (Ok (Some mbs, Some acts, Some rws, Some tp1, Some term, Some inds),
          mkPrioritizedExperienceHandler (buffer self) t')
       ∧ length inds = Z.to_nat mini_batch
       ∧ NoDup (seen ++ inds)
       ∧ (entries (tree self)).*2 = (entries t').*2 ++ reverse inds
       ∧ ∀ i, i ∈ seen ++ inds → i ∉ (entries t').*2) as Hcall.
  { intros self seen mini_batch dtype Hplain Hmb Hsize Hlen.
    pose proof (plain_inv _ _ Hplain) as (Hsz & _ & _ & Hnd & _).
    destruct (distinct_payloads_returned zeros_like astype_state astype_reward
                dtype mini_batch self)
      as (mbs & acts & rws & tp1 & term & inds & t' & Hget & Hk & Hndi & Hent & Hout);
      [done|done| | done| | |].
    - destruct (states (buffer self)) as [|s0 sts]; [cbn in Hsz; lia|by eexists].
    - apply Forall_forall. intros i Hi. by eapply plain_resolves.
    - by apply NoDup_app in Hnd as (? & _ & _).
    - exists mbs, acts, rws, tp1, term, inds, t'. split_and!; [done|done| |done|].
      + rewrite Hent in Hnd. rewrite <- app_assoc in Hnd.
        apply NoDup_app in Hnd as (_ & _ & Hnd).
        eapply NoDup_Permutation_proper; [|exact Hnd].
        by rewrite reverse_Permutation, Permutation_app_comm.
      + intros i [Hi|Hi]%elem_of_app; [|by apply Hout].
        rewrite Hent in Hnd. apply NoDup_app in Hnd as (_ & Hdisj & _).
        intros Hi'. apply (Hdisj i); [|done]. in_list. }
  split; [exact Hcall|].
  intros max_len txs mini_batch dtype Hmb.
  set (self := add_all geb inf txs
                 (mkPrioritizedExperienceHandler (ExperienceHandler_init max_len)
                    BinaryTree_init)).
  assert (plain geb inf zeros_like astype_state astype_reward self []) as Hplain.
  { apply add_all_plain. constructor. }
  destruct (add_all_count txs
              (mkPrioritizedExperienceHandler (ExperienceHandler_init max_len)
                 BinaryTree_init)) as [Hn Hcount]; [done|].
  fold self in Hn, Hcount. cbn in Hn, Hcount.
  pose proof (plain_inv _ _ Hplain) as (Hsz & _ & _ & _ & Hall).
  destruct (Hcall self [] mini_batch dtype Hplain)
    as (mbs & acts & rws & tp1 & term & inds & t' & Hget & Hk & Hndi & Hent & _);
    [lia|lia|lia|].
  exists mbs, acts, rws, tp1, term, inds,
    (mkPrioritizedExperienceHandler (buffer self) t').
  split_and!; [done|done|done|].
  intros i Hi. rewrite Forall_forall in Hall.
  specialize (Hall i). rewrite app_nil_r, Hent, Hn in Hall.
  destruct Hall as [? ?]; [|lia].
  apply elem_of_app. right. by apply elem_of_reverse.
Qed.

End PlainFacts.

(** * Properties of the action handler *)

Section ActionFacts.
Import ActionHandlers.
Context {V : Type}.
Variable leb : V → V → bool.
Variable ltb : V → V → bool.
Variable sub : V → V → V.
Variable inf : V.
Variable add_noise : list V → list V → V → outcome (list V).
Implicit Types (self : ActionHandler V) (av : list V) (d : draws V).

(** *** [np.where] and [np.max] *)

Lemma np_where_from_elem k (cond : list bool) a :
  a ∈ np_where_from k cond ↔ ∃ i, a = (k + Z.of_nat i)%Z ∧ cond !! i = Some true.
Proof.
  revert k. induction cond as [|c cond IH]; intros k; cbn [np_where_from].
  - split; [by intros ?%elem_of_nil|by intros (i & _ & ?)].
  - destruct c.
    + rewrite elem_of_cons, IH. split.
      * intros [->|(i & -> & Hi)]; [exists 0|exists (S i)]; split; (done || lia).
      * intros ([|i] & -> & Hi); [left; lia|right; exists i]. split; [lia|done].
    + rewrite IH. split.
      * intros (i & -> & Hi). exists (S i). split; [lia|done].
      * intros ([|i] & -> & Hi); [done|]. exists i. split; [lia|done].
Qed.

Lemma np_where_from_head k (cond : list bool) a rest :
  np_where_from k cond = a :: rest →
  ∃ i, a = (k + Z.of_nat i)%Z ∧ cond !! i = Some true
       ∧ ∀ j, j < i → cond !! j = Some false.
Proof.
  revert k. induction cond as [|c cond IH]; intros k; cbn [np_where_from]; [done|].
  destruct c.
  - intros [= <- _]. exists 0. split_and!; [lia|done|lia].
  - intros (i & -> & Hi & Hbefore)%IH. exists (S i). split_and!; [lia|done|].
    intros [|j] Hj; [done|]. apply Hbefore. lia.
Qed.

Lemma np_where_from_none k (cond : list bool) :
  Forall (λ c, c = false) cond → np_where_from k cond = [].
Proof.
  intros Hall. revert k. induction Hall as [|c cond -> _ IH]; intros k; [done|].
  cbn [np_where_from]. apply IH.
Qed.

Lemma np_max_elem av m : np_max leb av = Some m → m ∈ av.
Proof.
  destruct av as [|x av]; [done|]. cbn [np_max]. intros [= <-].
  revert x. induction av as [|y av IH]; intros x; cbn [foldl]; [left|].
  unfold np_maximum at 2. destruct (leb y x || isnan leb x).
  - specialize (IH x). apply elem_of_cons in IH as [->|?]; [left|right; by right].
  - right. apply IH.
Qed.

(** Without NaN the array holds its maximum, so [np.where] finds an
    index. *)
Lemma argmax_found (leb_refl : ∀ x, leb x x = true) av :
  av ≠ [] →
  ∃ (a : nat) x m rest,
    np_max leb av = Some m
    ∧ np_where (eqb leb m <$> av) = Z.of_nat a :: rest
    ∧ av !! a = Some x
    ∧ eqb leb m x = true
    ∧ ∀ j y, j < a → av !! j = Some y → eqb leb m y = false.
Proof.
  intros Hav. destruct (np_max leb av) as [m|] eqn:Hmax; [|by destruct av].
  pose proof (np_max_elem _ _ Hmax) as Hm.
  destruct (np_where (eqb leb m <$> av)) as [|a0 rest] eqn:Hwhere.
  - exfalso. apply list_elem_of_lookup in Hm as [i Hi].
    assert ((0 + Z.of_nat i)%Z ∈ np_where (eqb leb m <$> av)) as Hin.
    { apply np_where_from_elem. exists i. split; [done|].
      rewrite list_lookup_fmap, Hi. cbn. unfold eqb. by rewrite leb_refl. }
    rewrite Hwhere in Hin. by apply elem_of_nil in Hin.
  - destruct (np_where_from_head _ _ _ _ Hwhere) as (a & -> & Ha & Hbefore).
    rewrite list_lookup_fmap in Ha.
    destruct (av !! a) as [x|] eqn:Hx; [|done]. injection Ha as Ha.
    exists a, x, m, rest. split_and!; [done|done|done|done|].
    intros j y Hj Hy. specialize (Hbefore j Hj).
    rewrite list_lookup_fmap, Hy in Hbefore. by injection Hbefore.
Qed.

(** *** anneal *)

Lemma anneal_fields self :
  lowestRandVal (anneal ltb sub self) = lowestRandVal self
  ∧ diff (anneal ltb sub self) = diff self.
Proof. done. Qed.

(** X15: after one or more calls of anneal, [randVal] is not below
    [lowestRandVal], whatever the step [diff] is; the floor itself is never
    changed. *)
Theorem anneal_floor (ltb_irrefl : ∀ x, ltb x x = false) self (n : nat) :
  0 < n →
  ltb (randVal (Nat.iter n (anneal ltb sub) self)) (lowestRandVal self) = false
  ∧ lowestRandVal (Nat.iter n (anneal ltb sub) self) = lowestRandVal self.
Proof.
  intros Hn.
  assert (∀ k, lowestRandVal (Nat.iter k (anneal ltb sub) self) = lowestRandVal self)
    as Hfloor.
  { induction k as [|k IH]; [done|]. rewrite Nat.iter_succ. exact IH. }
  split; [|apply Hfloor].
  destruct n as [|n]; [lia|]. rewrite Nat.iter_succ.
  rewrite <- (Hfloor n). generalize (Nat.iter n (anneal ltb sub) self) as s.
  intros s. unfold anneal. cbn [randVal].
  destruct (ltb (sub (randVal s) (diff s)) (lowestRandVal s)) eqn:Hlt;
    [apply ltb_irrefl|exact Hlt].
Qed.

(** *** get_action without the stochastic part *)

Section Order.
Hypothesis leb_total : ∀ x y : V, leb x y = true ∨ leb y x = true.
Hypothesis leb_trans : ∀ x y z : V, leb x y = true → leb y z = true → leb x z = true.

Lemma leb_refl x : leb x x = true.
Proof using leb_total. by destruct (leb_total x x). Qed.

Lemma np_max_upper av m : np_max leb av = Some m → ∀ y, y ∈ av → leb y m = true.
Proof using leb_total leb_trans.
  destruct av as [|x av]; [done|]. cbn [np_max]. intros [= <-].
  assert (∀ x, leb x (foldl (np_maximum leb) x av) = true
               ∧ ∀ y, y ∈ av → leb y (foldl (np_maximum leb) x av) = true)
    as Hfold.
  { clear x. induction av as [|z av IH]; intros x; cbn [foldl].
    - split; [apply leb_refl|by intros y ?%elem_of_nil].
    - unfold np_maximum at 2 4, isnan. rewrite (leb_refl x), orb_false_r.
      destruct (leb z x) eqn:Hzx.
      + destruct (IH x) as [Hx Hav]. split; [done|].
        intros y [->|Hy]%elem_of_cons; [|by apply Hav]. by eapply leb_trans.
      + destruct (IH z) as [Hz Hav].
        destruct (leb_total x z) as [Hxz|?]; [|congruence].
        split; [by eapply leb_trans|].
        intros y [->|Hy]%elem_of_cons; [done|by apply Hav]. }
  destruct (Hfold x) as [Hx Hav]. intros y [->|Hy]%elem_of_cons; [done|by apply Hav].
Qed.

(** X16: with [random=False], get_action on an empty array raises
    ValueError and changes nothing; on a non-empty array it returns the first
    index that holds a maximal value, adds one to [actionCount] and leaves
    the array and the other attributes as they are. *)
Theorem greedy_get_action self av d :
  match av with
  | [] => get_action leb inf add_noise self av false d = (Raises ValueError, self, av)
  | _ :: _ =>
      ∃ (a : nat) x,
        get_action leb inf add_noise self av false d
        = (Return (Z.of_nat a),
           mkActionHandler (actionPolicy self) (randVal self) (lowestRandVal self)
             (diff self) (countRand self) (actionCount self + 1)%Z
             (actions self) (numActions self),
           av)
        ∧ av !! a = Some x
        ∧ (∀ y, y ∈ av → leb y x = true)
        ∧ (∀ j y, j < a → av !! j = Some y → leb x y = false)
  end.
Proof using leb_total leb_trans.
  destruct av as [|x0 av0]; [done|].
  destruct (argmax_found leb_refl (x0 :: av0)) as (a & x & m & rest & Hmax & Hwhere & Hx & Hmx & Hfirst);
    [done|].
  exists a, x. unfold get_action. rewrite Hmax, Hwhere. split; [done|].
  apply andb_true_iff in Hmx as [Hmx Hxm]. split_and!; [done| |].
  - intros y Hy. eapply leb_trans; [|exact Hmx]. by eapply np_max_upper.
  - intros j y Hj Hy. specialize (Hfirst j y Hj Hy).
    apply andb_false_iff in Hfirst as [Hmy|Hym].
    + destruct (leb x y) eqn:Hxy; [|done]. by rewrite (leb_trans _ _ _ Hmx Hxy) in Hmy.
    + rewrite (np_max_upper _ _ Hmax y) in Hym; [done|].
      by eapply list_elem_of_lookup_2.
Qed.

(** *** get_action with the eGreedy policy *)

Lemma np_setitem_Some av (i : Z) (x : V) av' :
  np_setitem av i x = Some av' →
  (0 ≤ i)%Z →
  Z.to_nat i < length av ∧ av' = <[Z.to_nat i := x]> av.
Proof using Type.
  unfold np_setitem. intros Hset Hi. rewrite bool_decide_eq_true_2 in Hset by done.
  case_bool_decide; [|done]. injection Hset as <-. split; [lia|done].
Qed.

Lemma np_setitem_length av (i : Z) (x : V) av' :
  np_setitem av i x = Some av' → length av' = length av ∧ 0 < length av.
Proof using Type.
  unfold np_setitem. intros Hset.
  repeat case_bool_decide; try done; injection Hset as <-;
    rewrite length_insert; lia.
Qed.


(** *** The counters *)

Lemma get_action_counters self av (random : bool) d :
  let self' := (get_action leb inf add_noise self av random d).1.2 in
  (countRand self ≤ countRand self')%Z
  ∧ (actionCount self ≤ actionCount self')%Z
  ∧ ((∀ x, leb x x = true) →
     (countRand self' - countRand self ≤ actionCount self' - actionCount self)%Z).
Proof using Type.
  cbn zeta. unfold get_action.
  destruct random.
  - unfold explore. destruct (actionPolicy self).
    + destruct (leb (uniform d) (randVal self)).
      * case_bool_decide; [cbn; split_and!; intros; lia|].
        destruct (np_setitem av (randint d) inf) as [av'|] eqn:Hset;
          [|cbn; split_and!; intros; lia].
        assert (av' ≠ []) as Hne.
        { apply np_setitem_length in Hset as [Hlen Hpos]. intros ->.
          cbn in Hlen. lia. }
        destruct (np_max leb av') as [m|] eqn:Hmax; [|by destruct av'].
        destruct (np_where (eqb leb m <$> av')) as [|a rest] eqn:Hwhere;
          [|cbn; split_and!; intros; lia].
        cbn. split_and!; [lia|lia|]. intros Hrefl.
        destruct (argmax_found Hrefl _ Hne) as (? & ? & m' & ? & Hmax' & Hwhere' & _).
        rewrite Hmax in Hmax'. injection Hmax' as <-. congruence.
      * destruct (np_max leb av) as [m|]; [|cbn; split_and!; intros; lia].
        destruct (np_where _) as [|a rest]; cbn; split_and!; intros; lia.
    + case_bool_decide; [cbn; split_and!; intros; lia|].
      destruct (add_noise av (randn d) (randVal self)) as [av'|e];
        [|cbn; split_and!; intros; lia].
      destruct (np_max leb av') as [m|]; [|cbn; split_and!; intros; lia].
      destruct (np_where _) as [|a rest]; cbn; split_and!; intros; lia.
  - destruct (np_max leb av) as [m|]; [|cbn; split_and!; intros; lia].
    destruct (np_where _) as [|a rest]; cbn; split_and!; intros; lia.
Qed.

(** X18: over any sequence of get_action, anneal and set_legal_actions
    calls, with any arguments and draws and whether or not a call raises, the
    two counters never decrease.  When no value is NaN (every value is [<=]
    itself), [countRand] moreover stays [<=] [actionCount]; a NaN among the
    action values can make get_action count a random pick and then raise
    before it counts the action. *)
Theorem counters_invariant (calls : list (call V)) self :
  let self' := foldl (after_call leb ltb sub inf add_noise) self calls in
  (countRand self ≤ countRand self')%Z
  ∧ (actionCount self ≤ actionCount self')%Z
  ∧ ((∀ x, leb x x = true) → (countRand self ≤ actionCount self)%Z →
     (countRand self' ≤ actionCount self')%Z).
Proof using Type.
  cbn zeta.
  assert (∀ c self,
            (countRand self ≤ countRand (after_call leb ltb sub inf add_noise self c))%Z
            ∧ (actionCount self
               ≤ actionCount (after_call leb ltb sub inf add_noise self c))%Z
            ∧ ((∀ x, leb x x = true) →
               (countRand (after_call leb ltb sub inf add_noise self c) - countRand self
                ≤ actionCount (after_call leb ltb sub inf add_noise self c)
                  - actionCount self)%Z)) as Hstep.
  { intros [av random d| |legal] s; cbn [after_call].
    - exact (get_action_counters s av random d).
    - cbn. split_and!; intros; lia.
    - cbn. split_and!; intros; lia. }
  revert self. induction calls as [|c calls IH]; intros self.
  - cbn. split_and!; intros; lia.
  - cbn [foldl]. destruct (Hstep c self) as (H1 & H2 & H3).
    destruct (IH (after_call leb ltb sub inf add_noise self c)) as (H4 & H5 & H6).
    split_and!; [lia|lia|].
    intros Hrefl Hinv. specialize (H3 Hrefl). apply (H6 Hrefl). lia.
Qed.

(** *** A NaN among the action values *)

Lemma foldl_np_maximum_nan av m :
  (∀ x y, isnan leb x = true → leb x y = false) →
  isnan leb m = true ∨ (∃ n, n ∈ av ∧ isnan leb n = true) →
  isnan leb (foldl (np_maximum leb) m av) = true.
Proof using Type.
  intros Hnan. revert m. induction av as [|y av IH]; intros m; cbn [foldl].
  - intros [Hm|(n & []%elem_of_nil & _)]. exact Hm.
  - intros Hsome. apply IH. unfold np_maximum.
    destruct (isnan leb m) eqn:Hm.
    + left. by rewrite orb_true_r.
    + destruct Hsome as [?|(n & [->|Hn]%elem_of_cons & Hnn)]; [done| |].
      * left. by rewrite (Hnan _ m Hnn).
      * right. by exists n.
Qed.

(** X26: when an action value is NaN, get_action with [random=False]
    raises IndexError and changes neither the handler nor the array:
    [np.max] is NaN, no item equals it, and [np.where] finds no index. *)
Theorem nan_get_action_raises self av d n :
  (∀ x y, isnan leb x = true → leb x y = false) →
  n ∈ av → isnan leb n = true →
  get_action leb inf add_noise self av false d = (Raises IndexError, self, av).
Proof using Type.
  intros Hnan Hn Hnn. unfold get_action.
  destruct av as [|x av]; [by apply elem_of_nil in Hn|].
  cbn [np_max].
  assert (isnan leb (foldl (np_maximum leb) x av) = true) as Hmax.
  { apply foldl_np_maximum_nan; [done|].
    apply elem_of_cons in Hn as [->|Hn]; [by left|right; by exists n]. }
  unfold np_where. rewrite np_where_from_none; [done|].
  apply Forall_fmap, Forall_forall. intros y _. cbn. unfold eqb.
  by rewrite (Hnan _ y Hmax).
Qed.

(** *** From the action vector to the game action and back *)




End Order.

End ActionFacts.

(** * Properties of the game handler *)

Section GameFacts.
Import GameHandlers.
Context {ale screen img netinput learner : Type}.
Variable ale_reset_game : ale → ale.
Variable ale_game_over : ale → bool.
Variable ale_getScreenRGB : ale → screen.
Variable ale_act : ale → Z → Z * ale.
Variable ale_getRAM : ale → list Z.
Variable process : screen → img.
Variable reshape : Z → list img → result netinput.
Variable learner_frames_processed : learner → list img → Z → Z → learner.
Variable learner_get_game_action : learner → netinput → Z * learner.
Implicit Types (v : frame_vars ale img) (g : game ale learner).
Implicit Types (life_ram_ind : option Z) (early_return : bool).

(** *** The frame-skip loop *)

Lemma frame_turn_effect action life_ram_ind v v' :
  GameHandlers.frame_turn ale_getScreenRGB ale_act ale_getRAM process action
    life_ram_ind v = Ok v' →
  length (frames v') = S (length (frames v))
  ∧ (reward v - 1 ≤ reward v' ≤ reward v + 1)%Z
  ∧ match lives v, life_ram_ind with
    | Some lv, Some _ =>
        ∃ lv', lives v' = Some lv' ∧ (lv' ≤ lv)%Z
               ∧ (reward v - (lv - lv') ≤ reward v')%Z
    | _, _ => lives v' = lives v ∧ (reward v ≤ reward v')%Z
    end.
Proof.
  unfold GameHandlers.frame_turn.
  destruct (ale_act (fv_ale v) action) as [rew a].
  destruct (lives v) as [lv|], life_ram_ind as [ind|].
  - destruct (py_getitem (ale_getRAM a) ind) as [cell|]; [|done].
    repeat case_bool_decide; intros [= <-]; cbn [frames reward lives];
      rewrite length_app; cbn [length];
      (split_and!; [lia|lia|lia|]); eexists; (split_and!; [done|lia|lia]).
  - case_bool_decide; intros [= <-]; cbn [frames reward lives];
      rewrite length_app; cbn [length]; split_and!; (done || lia).
  - case_bool_decide; intros [= <-]; cbn [frames reward lives];
      rewrite length_app; cbn [length]; split_and!; (done || lia).
  - case_bool_decide; intros [= <-]; cbn [frames reward lives];
      rewrite length_app; cbn [length]; split_and!; (done || lia).
Qed.

(** X20: when the frame-skip loop of [n] frames raises nothing, it has
    collected [n] frames and moved the reward by at most [n] either way.
    Without both [lives] and [life_ram_ind] the reward does not go down.
    With them, the lives never go up and the reward goes down by at most the
    number of lives lost. *)
Theorem frame_loop_bounds (n : nat) action life_ram_ind v v' :
  GameHandlers.frame_loop ale_getScreenRGB ale_act ale_getRAM process n action
    life_ram_ind v = Ok v' →
  length (frames v') = length (frames v) + n
  ∧ (reward v - Z.of_nat n ≤ reward v' ≤ reward v + Z.of_nat n)%Z
  ∧ match lives v, life_ram_ind with
    | Some lv, Some _ =>
        ∃ lv', lives v' = Some lv' ∧ (lv' ≤ lv)%Z
               ∧ (reward v - (lv - lv') ≤ reward v')%Z
    | _, _ => lives v' = lives v ∧ (reward v ≤ reward v')%Z
    end.
Proof.
  revert v. induction n as [|n IH]; intros v; cbn [GameHandlers.frame_loop].
  - intros [= <-]. split_and!; [lia|lia|lia|].
    destruct (lives v) as [lv|], life_ram_ind; try done.
    exists lv. split_and!; [done|lia|lia].
  - destruct (GameHandlers.frame_turn _ _ _ _ action life_ram_ind v) as [v1|e] eqn:Hturn;
      [|done].
    intros Hrest. destruct (frame_turn_effect _ _ _ _ Hturn) as (Hf & Hr & Hl).
    destruct (IH _ Hrest) as (Hf' & Hr' & Hl').
    split_and!; [lia|lia|lia|].
    destruct (lives v) as [lv|], life_ram_ind as [ind|].
    + destruct Hl as (lv1 & Hlv1 & Hle & Hrw). rewrite Hlv1 in Hl'.
      destruct Hl' as (lv' & Hlv' & Hle' & Hrw').
      exists lv'. split_and!; [done|lia|lia].
    + destruct Hl as [Hlv1 ?]. rewrite Hlv1 in Hl'. destruct Hl' as [-> ?].
      split; [done|lia].
    + destruct Hl as [Hlv1 ?]. rewrite Hlv1 in Hl'. destruct Hl' as [-> ?].
      split; [done|lia].
    + destruct Hl as [Hlv1 ?]. rewrite Hlv1 in Hl'. destruct Hl' as [-> ?].
      split; [done|lia].
Qed.

Lemma frame_loop_effect (n : nat) action life_ram_ind v v' :
  GameHandlers.frame_loop ale_getScreenRGB ale_act ale_getRAM process n action
    life_ram_ind v = Ok v' →
  length (frames v') = length (frames v) + n
  ∧ (reward v - Z.of_nat n ≤ reward v' ≤ reward v + Z.of_nat n)%Z
  ∧ (is_Some (lives v') ↔ is_Some (lives v))
  ∧ (match lives v, life_ram_ind with Some _, Some _ => False | _, _ => True end →
     (reward v ≤ reward v')%Z).
Proof.
  revert v. induction n as [|n IH]; intros v; cbn [GameHandlers.frame_loop].
  - intros [= <-]. split_and!; (done || lia).
  - destruct (GameHandlers.frame_turn _ _ _ _ action life_ram_ind v) as [v1|e] eqn:Hturn;
      [|done].
    intros Hrest. destruct (frame_turn_effect _ _ _ _ Hturn) as (Hf & Hr & Hl).
    destruct (IH _ Hrest) as (Hf' & Hr' & Hs' & Hpos').
    split_and!; [lia|lia|lia| |].
    + rewrite Hs'. destruct (lives v) as [lv|], life_ram_ind as [ind|].
      * destruct Hl as (lv1 & -> & _). split; by eexists.
      * destruct Hl as [-> _]. done.
      * destruct Hl as [-> _]. done.
      * destruct Hl as [-> _]. done.
    + intros Hoff. destruct (lives v) as [lv|], life_ram_ind as [ind|]; try done;
        destruct Hl as [Hlv ?]; rewrite Hlv in Hpos'; specialize (Hpos' I); lia.
Qed.

(** *** One turn of the while loop *)

Lemma game_turn_effect life_ram_ind early_return g x :
  GameHandlers.game_turn ale_getScreenRGB ale_act ale_getRAM process reshape
    learner_frames_processed learner_get_game_action life_ram_ind early_return g = Ok x →
  ∃ r g',
    (x = inl (total_reward g', g') ∧ (r < 0)%Z ∧ early_return = true
     ∨ x = inr g' ∧ ((0 ≤ r)%Z ∨ early_return = false))
    ∧ steps g' = steps g ++ [(action_to_perform g, r, action_to_perform g')]
    ∧ total_reward g' = (total_reward g + r)%Z
    ∧ frameCount g' = (frameCount g + skipFrame g)%Z
    ∧ skipFrame g' = skipFrame g
    ∧ (0 < skipFrame g)%Z
    ∧ (- skipFrame g ≤ r ≤ skipFrame g)%Z
    ∧ (is_Some (g_lives g') ↔ is_Some (g_lives g))
    ∧ (match g_lives g, life_ram_ind with Some _, Some _ => False | _, _ => True end →
       (0 ≤ r)%Z).
Proof.
  unfold GameHandlers.game_turn.
  destruct (GameHandlers.frame_loop _ _ _ _ _ _ _ _) as [v|e] eqn:Hloop; [|done].
  destruct (frame_loop_effect _ _ _ _ _ Hloop) as (Hf & Hr & Hs & Hpos).
  cbn [frames reward lives length] in Hf, Hr, Hs, Hpos.
  destruct (frames v) as [|fr frs] eqn:Hfr; [done|]. cbn [length] in Hf.
  destruct (reshape (skipFrame g) (fr :: frs)) as [inp|e]; [|done].
  destruct (learner_get_game_action _ inp) as [next learner2].
  destruct (bool_decide (reward v < 0)%Z && early_return) eqn:Hret; intros [= <-].
  - apply andb_true_iff in Hret as [Hneg%bool_decide_eq_true ->].
    exists (reward v),
      (mkGame (fv_ale v) (skipFrame g) (frameCount g + 1 * skipFrame g)%Z learner2
              (total_reward g + reward v)%Z next (lives v)
              (steps g ++ [(action_to_perform g, reward v, next)])).
    split; [left; split_and!; [reflexivity|done|done]|].
    cbn [steps total_reward frameCount skipFrame action_to_perform g_lives].
    split_and!; try done; try lia.
  - exists (reward v),
      (mkGame (fv_ale v) (skipFrame g) (frameCount g + 1 * skipFrame g)%Z learner2
              (total_reward g + reward v)%Z next (lives v)
              (steps g ++ [(action_to_perform g, reward v, next)])).
    split.
    { right. split; [reflexivity|]. apply andb_false_iff in Hret as [Hneg|?]; [|by right].
      left. apply bool_decide_eq_false in Hneg. lia. }
    cbn [steps total_reward frameCount skipFrame action_to_perform g_lives].
    split_and!; try done; try lia.
Qed.

(** *** The while loop *)

Lemma game_loop_effect fuel life_ram_ind early_return g total g' :
  GameHandlers.game_loop ale_game_over ale_getScreenRGB ale_act ale_getRAM process reshape
    learner_frames_processed learner_get_game_action fuel life_ram_ind early_return g = Some (Ok (total, g')) →
  ∃ new,
    steps g' = steps g ++ new
    ∧ total = total_reward g'
    ∧ total_reward g' = (total_reward g + foldr Z.add 0 ((λ s, s.1.2) <$> new))%Z
    ∧ frameCount g' = (frameCount g + skipFrame g * Z.of_nat (length new))%Z
    ∧ skipFrame g' = skipFrame g
    ∧ chained (action_to_perform g) new
    ∧ Forall (λ s, (- skipFrame g ≤ s.1.2 ≤ skipFrame g)%Z) new
    ∧ (match g_lives g, life_ram_ind with Some _, Some _ => False | _, _ => True end →
       Forall (λ s, (0 ≤ s.1.2)%Z) new)
    ∧ (∀ k s, new !! k = Some s → S k < length new → early_return = true →
         (0 ≤ s.1.2)%Z)
    ∧ (ale_game_over (g_ale g') = true
       ∨ early_return = true ∧ ∃ s, last new = Some s ∧ (s.1.2 < 0)%Z).
Proof.
  revert g. induction fuel as [|fuel IH]; intros g; cbn [GameHandlers.game_loop]; [done|].
  destruct (ale_game_over (g_ale g)) eqn:Hover.
  - intros [= <- <-]. exists []. rewrite app_nil_r. cbn.
    split_and!; try done; try lia; try (by constructor).
  - destruct (GameHandlers.game_turn ale_getScreenRGB ale_act ale_getRAM process reshape
    learner_frames_processed learner_get_game_action life_ram_ind early_return g) as [x|e] eqn:Hturn; [|done].
    destruct (game_turn_effect _ _ _ _ Hturn)
      as (r & g1 & Hx & Hsteps & Htot & Hfc & Hskip & Hpos & Hr & Hlv & Hoff).
    destruct Hx as [(-> & Hneg & ->)|(-> & Hcont)].
    + intros [= <- <-]. exists [(action_to_perform g, r, action_to_perform g1)].
      cbn [fmap list_fmap foldr length fst snd chained last].
      split_and!; try done; try lia.
      * repeat constructor; cbn; lia.
      * intros Hnot. repeat constructor. cbn. by apply Hoff.
      * right. split; [done|]. by eexists.
    + intros Hrest.
      destruct (IH _ Hrest)
        as (new & Hsteps' & -> & Htot' & Hfc' & Hskip' & Hch & Hb & Hoff' & Her & Hend).
      exists ((action_to_perform g, r, action_to_perform g1) :: new).
      cbn [fmap list_fmap foldr length fst snd chained].
      rewrite Hskip in *.
      split_and!; try done; try lia.
      * rewrite Hsteps', Hsteps, <- app_assoc. done.
      * constructor; [cbn; lia|done].
      * intros Hnot. constructor; [cbn; by apply Hoff|]. apply Hoff'.
        destruct (g_lives g) as [lv|] eqn:Hg, (g_lives g1) as [lv1|] eqn:Hg1,
          life_ram_ind as [ind|]; try done.
        destruct Hlv as [Hlv _]. by destruct Hlv.
      * intros [|k] s Hs Hk Htrue; cbn in Hs.
        -- injection Hs as <-. cbn. destruct Hcont; [done|congruence].
        -- apply (Her k s Hs); [cbn in Hk; lia|done].
      * destruct Hend as [?|(? & s & Hlast & ?)]; [by left|right].
        split; [done|]. exists s. split; [|done].
        destruct new; [done|]. done.
Qed.

(** X21: when a game returns, the returned total is the sum of the
    rewards handed to the learner; [frameCount] has grown by [skipFrame] per
    turn; the first turn performs action 0 and every later turn performs
    the action the learner answered in the turn before. *)
Theorem run_one_game_accounting fuel (a : ale) (skip_frame frame_count : Z)
    (l : learner) (lives0 life_ram_ind : option Z) early_return total g :
  GameHandlers.run_one_game ale_reset_game ale_game_over ale_getScreenRGB ale_act
    ale_getRAM process reshape learner_frames_processed learner_get_game_action fuel a skip_frame frame_count l lives0 life_ram_ind early_return
  = Some (Ok (total, g)) →
  total = foldr Z.add 0%Z ((λ s, s.1.2) <$> steps g)
  ∧ total_reward g = total
  ∧ frameCount g = (frame_count + skip_frame * Z.of_nat (length (steps g)))%Z
  ∧ chained 0%Z (steps g).
Proof.
  unfold GameHandlers.run_one_game. intros Hrun.
  destruct (game_loop_effect _ _ _ _ _ _ Hrun)
    as (new & Hsteps & -> & Htot & Hfc & _ & Hch & _).
  cbn [steps total_reward frameCount skipFrame action_to_perform app] in *.
  rewrite Hsteps. split_and!; [lia|done|done|done].
Qed.

(** X22: when a game returns, every reward handed to the learner lies
    between [-skipFrame] and [skipFrame]; and when [lives] or [life_ram_ind]
    is not given, none of them is negative, nor is the total. *)
Theorem run_one_game_rewards fuel (a : ale) (skip_frame frame_count : Z)
    (l : learner) (lives0 life_ram_ind : option Z) early_return total g :
  GameHandlers.run_one_game ale_reset_game ale_game_over ale_getScreenRGB ale_act
    ale_getRAM process reshape learner_frames_processed learner_get_game_action fuel a skip_frame frame_count l lives0 life_ram_ind early_return
  = Some (Ok (total, g)) →
  Forall (λ s, (- skip_frame ≤ s.1.2 ≤ skip_frame)%Z) (steps g)
  ∧ (lives0 = None ∨ life_ram_ind = None →
     Forall (λ s, (0 ≤ s.1.2)%Z) (steps g) ∧ (0 ≤ total)%Z).
Proof.
  unfold GameHandlers.run_one_game. intros Hrun.
  destruct (game_loop_effect _ _ _ _ _ _ Hrun)
    as (new & Hsteps & -> & Htot & _ & _ & _ & Hb & Hoff & _).
  cbn [steps total_reward skipFrame g_lives app] in *. rewrite Hsteps.
  split; [done|]. intros Hnone.
  assert (Forall (λ s, (0 ≤ s.1.2)%Z) new) as Hall.
  { apply Hoff. by destruct Hnone as [->| ->]; [|destruct lives0]. }
  split; [done|]. rewrite Htot. clear -Hall.
  induction Hall as [|s new Hs _ IH]; cbn; lia.
Qed.

(** X23: a game returns either because the emulator reports the game
    over or, with [early_return], right after a turn of negative reward; with
    [early_return] no turn before the last one has a negative reward. *)
Theorem run_one_game_early_return fuel (a : ale) (skip_frame frame_count : Z)
    (l : learner) (lives0 life_ram_ind : option Z) early_return total g :
  GameHandlers.run_one_game ale_reset_game ale_game_over ale_getScreenRGB ale_act
    ale_getRAM process reshape learner_frames_processed learner_get_game_action fuel a skip_frame frame_count l lives0 life_ram_ind early_return
  = Some (Ok (total, g)) →
  (ale_game_over (g_ale g) = true
   ∨ early_return = true ∧ ∃ s, last (steps g) = Some s ∧ (s.1.2 < 0)%Z)
  ∧ (early_return = true →
     ∀ k s, steps g !! k = Some s → S k < length (steps g) → (0 ≤ s.1.2)%Z).
Proof.
  unfold GameHandlers.run_one_game. intros Hrun.
  destruct (game_loop_effect _ _ _ _ _ _ Hrun)
    as (new & Hsteps & _ & _ & _ & _ & _ & _ & _ & Her & Hend).
  cbn [steps app] in Hsteps. rewrite Hsteps. split; [done|].
  intros Htrue k s Hs Hk. by apply (Her k s).
Qed.

(** X24: with [skipFrame <= 0] and a game that is not over after the
    reset, the first turn collects no frame and the call raises IndexError
    at [frames.shape[1]]. *)
Theorem run_one_game_no_frames fuel (a : ale) (skip_frame frame_count : Z)
    (l : learner) (lives0 life_ram_ind : option Z) early_return :
  (skip_frame ≤ 0)%Z →
  ale_game_over (ale_reset_game a) = false →
  GameHandlers.run_one_game ale_reset_game ale_game_over ale_getScreenRGB ale_act
    ale_getRAM process reshape learner_frames_processed learner_get_game_action (S fuel) a skip_frame frame_count l lives0 life_ram_ind early_return
  = Some (Raise IndexError).
Proof.
  intros Hskip Hover. unfold GameHandlers.run_one_game.
  cbn [GameHandlers.game_loop g_ale]. rewrite Hover.
  unfold GameHandlers.game_turn. cbn [skipFrame].
  replace (Z.to_nat skip_frame) with 0 by lia. done.
Qed.

Lemma game_loop_early_return_off fuel life_ram_ind g :
  match g_lives g, life_ram_ind with Some _, Some _ => False | _, _ => True end →
  GameHandlers.game_loop ale_game_over ale_getScreenRGB ale_act ale_getRAM process reshape
    learner_frames_processed learner_get_game_action fuel life_ram_ind true g
  = GameHandlers.game_loop ale_game_over ale_getScreenRGB ale_act ale_getRAM process reshape
    learner_frames_processed learner_get_game_action fuel life_ram_ind false g.
Proof.
  revert g. induction fuel as [|fuel IH]; intros g Hoff; cbn [GameHandlers.game_loop];
    [done|].
  destruct (ale_game_over (g_ale g)); [done|].
  destruct (GameHandlers.game_turn ale_getScreenRGB ale_act ale_getRAM process reshape
    learner_frames_processed learner_get_game_action life_ram_ind false g) as [x|e] eqn:Hfalse.
  - destruct (game_turn_effect _ _ _ _ Hfalse)
      as (r & g1 & Hx & _ & _ & _ & _ & _ & _ & Hlv & Hpos).
    specialize (Hpos Hoff).
    assert (GameHandlers.game_turn ale_getScreenRGB ale_act ale_getRAM process reshape
    learner_frames_processed learner_get_game_action life_ram_ind true g = Ok x) as ->.
    { revert Hfalse. unfold GameHandlers.game_turn.
      destruct (GameHandlers.frame_loop _ _ _ _ _ _ _ _) as [v|e] eqn:Hloop; [|done].
      destruct (frames v) as [|fr frs]; [done|].
      destruct (reshape _ _) as [inp|e]; [|done].
      destruct (learner_get_game_action _ inp) as [next learner2].
      rewrite andb_false_r. intros [= <-].
      destruct Hx as [(? & _)|(Hinr & _)]; [done|]. injection Hinr as <-.
      cbn [total_reward] in *.
      destruct (frame_loop_effect _ _ _ _ _ Hloop) as (_ & _ & _ & Hge).
      cbn [lives reward] in Hge. specialize (Hge Hoff).
      rewrite bool_decide_eq_false_2 by lia. done. }
    destruct Hx as [(-> & _ & ?)|(-> & _)]; [done|].
    apply IH.
    destruct (g_lives g) as [lv|] eqn:Hg, (g_lives g1) as [lv1|] eqn:Hg1,
      life_ram_ind as [ind|]; try done.
    destruct Hlv as [Hlv _]. by destruct Hlv.
  - assert (GameHandlers.game_turn ale_getScreenRGB ale_act ale_getRAM process reshape
    learner_frames_processed learner_get_game_action life_ram_ind true g = Raise e) as ->; [|done].
    revert Hfalse. unfold GameHandlers.game_turn.
    destruct (GameHandlers.frame_loop _ _ _ _ _ _ _ _) as [v|e'] eqn:Hloop; [|done].
    destruct (frames v) as [|fr frs]; [done|].
    destruct (reshape _ _) as [inp|e']; [|done].
    destruct (learner_get_game_action _ inp) as [next learner2].
    by rewrite andb_false_r.
Qed.

(** X25: when [lives] or [life_ram_ind] is not given, [early_return] has
    no effect: the call behaves the same with it and without it. *)
Theorem run_one_game_early_return_needs_lives fuel (a : ale)
    (skip_frame frame_count : Z) (l : learner) (lives0 life_ram_ind : option Z) :
  lives0 = None ∨ life_ram_ind = None →
  GameHandlers.run_one_game ale_reset_game ale_game_over ale_getScreenRGB ale_act
    ale_getRAM process reshape learner_frames_processed learner_get_game_action fuel a skip_frame frame_count l lives0 life_ram_ind true
  = GameHandlers.run_one_game ale_reset_game ale_game_over ale_getScreenRGB ale_act
    ale_getRAM process reshape learner_frames_processed learner_get_game_action fuel a skip_frame frame_count l lives0 life_ram_ind false.
Proof.
  intros Hnone. unfold GameHandlers.run_one_game.
  apply game_loop_early_return_off. cbn [g_lives].
  by destruct Hnone as [->| ->]; [|destruct lives0].
Qed.

End GameFacts.

(** * Runs for the further properties *)

Lemma run_ops_conserves_witness :
  entries (mkBinaryTree
             (Some (mkNode None (Finite 3) 0%Z
                (Some (mkNode None (Finite 5) 2%Z None)))))
  ++ [(Infinity, 1%Z)]
  ≡ₚ entries (@BinaryTree_init priority Z)
     ++ inserted [Insert (Finite 3) 0%Z; Insert Infinity 1%Z; PopMax;
                  Insert (Finite 5) 2%Z].
Proof.
  apply (run_ops_conserves priority_geb
           [Insert (Finite 3) 0%Z; Insert Infinity 1%Z; PopMax; Insert (Finite 5) 2%Z]
           BinaryTree_init).
  reflexivity.
Defined.

Lemma pop_max_lifo_witness :
  ∃ p k0 e t',
    BinaryTree_pop_max stamped_example_tree = Some ((p, (k0, e)), t')
    ∧ (p, (k0, e)) ∈ inserted (stamp_ops 0 stamped_example_ops)
    ∧ ((p, (k0, e)) ∉ [(Infinity, (2, 9%Z))])
    ∧ ∀ y, y ∈ inserted (stamp_ops 0 stamped_example_ops) →
        y ∉ [(Infinity, (2, 9%Z))] →
        priority_geb p y.1 = true ∧ (priority_geb y.1 p = true → y.2.1 ≤ k0).
Proof.
  apply (pop_max_lifo priority_geb priority_geb_total priority_geb_trans
           stamped_example_ops stamped_example_tree [(Infinity, (2, 9%Z))]).
  - vm_compute. reflexivity.
  - exists (Infinity, (0, 7%Z)). split.
    + vm_compute. left.
    + intros [[=]|[]%elem_of_nil]%elem_of_cons.
Defined.

Lemma insert_top_pop_max_witness :
  BinaryTree_pop_max (BinaryTree_insert priority_geb example_tree Infinity 9%Z)
  = Some ((Infinity, 9%Z), example_tree).
Proof.
  apply (insert_top_pop_max priority_geb example_tree Infinity 9%Z).
  intros q _. reflexivity.
Defined.

Lemma ascending_inserts_chain_witness :
  root (inserts priority_geb [(Infinity, 0%Z); (Infinity, 1%Z); (Infinity, 2%Z)])
  = plug ((λ pe, (None, pe.1, pe.2))
            <$> [(Infinity, 0%Z); (Infinity, 1%Z); (Infinity, 2%Z)]) None
  ∧ slot_depth
      (root (inserts priority_geb [(Infinity, 0%Z); (Infinity, 1%Z); (Infinity, 2%Z)]))
    = Z.of_nat (length [(Infinity, 0%Z); (Infinity, 1%Z); (Infinity, 2%Z)]).
Proof.
  apply (ascending_inserts_chain priority_geb
           [(Infinity, 0%Z); (Infinity, 1%Z); (Infinity, 2%Z)]).
  repeat constructor.
Defined.

Lemma reachable_entries_sorted_witness :
  StronglySorted (λ a b, priority_geb b.1 a.1 = true) (entries example_tree_after).
Proof.
  apply (reachable_entries_sorted priority_geb priority_geb_total priority_geb_trans).
  apply (reachable_pop_max priority_geb example_tree (Infinity, 3%Z)).
  - apply inserts_reachable.
  - exact example_pop_max.
Defined.

Lemma pop_all_sorted_witness :
  ∃ popped,
    pop_n (length example_ops) (inserts priority_geb example_ops)
    = Some (popped, BinaryTree_init)
    ∧ popped ≡ₚ example_ops
    ∧ StronglySorted (λ a b, priority_geb a.1 b.1 = true) popped.
Proof.
  exact (pop_all_sorted priority_geb priority_geb_total priority_geb_trans example_ops).
Defined.

Lemma batch_rows_from_buffer_witness :
  length [13; 12]%Z = Z.to_nat 2
  ∧ length [0; 0]%Z = Z.to_nat 2
  ∧ length [0; 0]%Z = Z.to_nat 2
  ∧ length [3; 2]%Z = Z.to_nat 2
  ∧ ∀ k i, [3; 2]%Z !! k = Some i →
      ∃ s a r,
        py_getitem (states (buffer scenario_store)) i = Some s
        ∧ [13; 12]%Z !! k = Some (float_astype float32 s)
        ∧ py_getitem (actions (buffer scenario_store)) i = Some a
        ∧ [0; 0]%Z !! k = Some a
        ∧ py_getitem (rewards (buffer scenario_store)) i = Some r
        ∧ [0; 0]%Z !! k = Some (float_astype float32 r).
Proof.
  apply (batch_rows_from_buffer (λ _ _, 0%Z) float_astype float_astype float32 2
           scenario_store
           [13; 12]%Z [0; 0]%Z [0; 0]%Z [0; 13]%Z [1; 0]%Z [3; 2]%Z
           (store_get 2 scenario_store).2).
  vm_compute. reflexivity.
Defined.

Lemma scenario_tree_ordered : ordered priority_geb (tree scenario_store).
Proof.
  apply (ordered_invariant priority_geb priority_geb_total).
  change (tree scenario_store)
    with (inserts priority_geb
            [(Infinity, 0%Z); (Infinity, 1%Z); (Infinity, 2%Z); (Infinity, 3%Z)]).
  apply inserts_reachable.
Qed.

Lemma batch_in_priority_order_witness :
  ∃ popped,
    [3; 2]%Z = popped.*2
    ∧ length popped = Z.to_nat 2
    ∧ entries (tree scenario_store)
      = entries (tree (store_get 2 scenario_store).2) ++ reverse popped
    ∧ StronglySorted (λ x y : priority * Z, priority_geb x.1 y.1 = true) popped
    ∧ ∀ x y, x ∈ popped → y ∈ entries (tree (store_get 2 scenario_store).2) →
        priority_geb x.1 y.1 = true.
Proof.
  apply (batch_in_priority_order priority_geb (λ _ _, 0%Z) float_astype float_astype
           priority_geb_trans float32 2 scenario_store [13; 12]%Z [0; 0]%Z [0; 0]%Z [0; 13]%Z [1; 0]%Z [3; 2]%Z
           (store_get 2 scenario_store).2).
  - exact scenario_tree_ordered.
  - vm_compute. reflexivity.
Defined.

Lemma tree_shortage_raises_witness :
  store_get 2 short_store
  = (Raise AttributeError,
     mkPrioritizedExperienceHandler (buffer short_store) BinaryTree_init).
Proof.
  apply (tree_shortage_raises (λ _ _, 0%Z) float_astype float_astype float32 2
           short_store).
  - vm_compute. reflexivity.
  - vm_compute. by eexists.
  - vm_compute. lia.
  - apply (bool_decide_unpack
             (Forall (λ i, resolves (buffer short_store) i = true)
                (entries (tree short_store)).*2)).
    vm_compute. exact I.
Defined.

Lemma plain_store_plain :
  plain priority_geb Infinity (λ _ _, 0%Z) float_astype float_astype plain_store
    [2%Z].
Proof.
  apply (plain_add priority_geb Infinity (λ _ _, 0%Z) float_astype float_astype
           (store_set_new_td_errors
              (store_get 2 (store_add_all [10; 11; 12; 13]%Z (store_init 5))).2
              [Finite 5] [1%Z])
           [2%Z] 14%Z 0%Z 0%Z).
  apply (plain_set priority_geb Infinity (λ _ _, 0%Z) float_astype float_astype
           (store_get 2 (store_add_all [10; 11; 12; 13]%Z (store_init 5))).2
           [2; 1]%Z [Finite 5] [1%Z]).
  - apply (plain_get priority_geb Infinity (λ _ _, 0%Z) float_astype float_astype
             (store_add_all [10; 11; 12; 13]%Z (store_init 5)) [] 2%Z float32
             (store_get 2 (store_add_all [10; 11; 12; 13]%Z (store_init 5))).1
             (store_get 2 (store_add_all [10; 11; 12; 13]%Z (store_init 5))).2).
    + apply (add_all_plain priority_geb Infinity (λ _ _, 0%Z) float_astype
               float_astype [(10, 0, 0); (11, 0, 0); (12, 0, 0); (13, 0, 0)]%Z
               (store_init 5) []).
      apply plain_init.
    + apply surjective_pairing.
  - cbn. apply NoDup_singleton.
  - cbn. intros i ->%list_elem_of_singleton. by right; left.
Qed.

Lemma distinct_indices_returned_witness :
  (∃ mbs acts rws tp1 term inds t',
     store_get 2 plain_store
     = (Ok (Some mbs, Some acts, Some rws, Some tp1, Some term, Some inds),
        mkPrioritizedExperienceHandler (buffer plain_store) t')
     ∧ length inds = Z.to_nat 2
     ∧ NoDup ([2%Z] ++ inds)
     ∧ (entries (tree plain_store)).*2 = (entries t').*2 ++ reverse inds
     ∧ ∀ i, i ∈ [2%Z] ++ inds → i ∉ (entries t').*2)
  ∧ (∃ mbs acts rws tp1 term inds self',
       store_get 2 (store_add_all [10; 11; 12; 13]%Z (store_init 5))
       = (Ok (Some mbs, Some acts, Some rws, Some tp1, Some term, Some inds), self')
       ∧ length inds = Z.to_nat 2
       ∧ NoDup inds
       ∧ ∀ i, i ∈ inds → (0 ≤ i < Z.of_nat 4 - 1)%Z).
Proof.
  destruct (distinct_indices_returned priority_geb Infinity (λ _ _, 0%Z)
              float_astype float_astype) as [Hcall Hfirst].
  split.
  - apply (Hcall plain_store [2%Z] 2%Z float32).
    + exact plain_store_plain.
    + lia.
    + vm_compute. reflexivity.
    + vm_compute. lia.
  - apply (Hfirst 5%Z [(10, 0, 0); (11, 0, 0); (12, 0, 0); (13, 0, 0)]%Z 2%Z float32).
    cbn. lia.
Defined.

Lemma Z_ltb_irrefl (x : Z) : (x <? x)%Z = false.
Proof. apply Z.ltb_irrefl. Qed.

Lemma Z_leb_total (x y : Z) : (x <=? y)%Z = true ∨ (y <=? x)%Z = true.
Proof. rewrite !Z.leb_le. lia. Qed.

Lemma Z_leb_trans (x y z : Z) :
  (x <=? y)%Z = true → (y <=? z)%Z = true → (x <=? z)%Z = true.
Proof. rewrite !Z.leb_le. lia. Qed.

Lemma priority_leb_total (a b : priority) :
  priority_leb a b = true ∨ priority_leb b a = true.
Proof. unfold priority_leb. destruct (priority_geb_total a b); auto. Qed.


Lemma anneal_floor_witness :
  (ActionHandlers.randVal
     (Nat.iter 5 (ActionHandlers.anneal Z.ltb Z.sub) toy_handler)
   <? ActionHandlers.lowestRandVal toy_handler)%Z = false
  ∧ ActionHandlers.lowestRandVal
      (Nat.iter 5 (ActionHandlers.anneal Z.ltb Z.sub) toy_handler)
    = ActionHandlers.lowestRandVal toy_handler.
Proof.
  apply (anneal_floor Z.ltb Z.sub Z_ltb_irrefl toy_handler 5). lia.
Defined.

Lemma greedy_get_action_witness :
  ∃ (a : nat) x,
    ActionHandlers.get_action Z.leb 0%Z (λ av _ _, ActionHandlers.Return av)
      toy_handler [3; 9; 2; 9]%Z false (ActionHandlers.mkDraws 0%Z 0%Z [])
    = (ActionHandlers.Return (Z.of_nat a),
       ActionHandlers.mkActionHandler
         (ActionHandlers.actionPolicy toy_handler) (ActionHandlers.randVal toy_handler)
         (ActionHandlers.lowestRandVal toy_handler) (ActionHandlers.diff toy_handler)
         (ActionHandlers.countRand toy_handler)
         (ActionHandlers.actionCount toy_handler + 1)%Z
         (ActionHandlers.actions toy_handler) (ActionHandlers.numActions toy_handler),
       [3; 9; 2; 9]%Z)
    ∧ [3; 9; 2; 9]%Z !! a = Some x
    ∧ (∀ y, y ∈ [3; 9; 2; 9]%Z → (y <=? x)%Z = true)
    ∧ (∀ j y, j < a → [3; 9; 2; 9]%Z !! j = Some y → (x <=? y)%Z = false).
Proof.
  exact (greedy_get_action Z.leb 0%Z (λ av _ _, ActionHandlers.Return av)
           Z_leb_total Z_leb_trans toy_handler [3; 9; 2; 9]%Z
           (ActionHandlers.mkDraws 0%Z 0%Z [])).
Defined.


Lemma priority_leb_refl (x : priority) : priority_leb x x = true.
Proof. by destruct (priority_leb_total x x). Qed.

Lemma counters_invariant_witness :
  (ActionHandlers.countRand toy_policy_handler
   ≤ ActionHandlers.countRand
       (foldl (ActionHandlers.after_call priority_leb priority_leb
                 (λ x _, x) Infinity (λ av _ _, ActionHandlers.Return av))
          toy_policy_handler toy_calls))%Z
  ∧ (ActionHandlers.actionCount toy_policy_handler
     ≤ ActionHandlers.actionCount
         (foldl (ActionHandlers.after_call priority_leb priority_leb
                   (λ x _, x) Infinity (λ av _ _, ActionHandlers.Return av))
            toy_policy_handler toy_calls))%Z
  ∧ (ActionHandlers.countRand
       (foldl (ActionHandlers.after_call priority_leb priority_leb
                 (λ x _, x) Infinity (λ av _ _, ActionHandlers.Return av))
          toy_policy_handler toy_calls)
     ≤ ActionHandlers.actionCount
         (foldl (ActionHandlers.after_call priority_leb priority_leb
                   (λ x _, x) Infinity (λ av _ _, ActionHandlers.Return av))
            toy_policy_handler toy_calls))%Z.
Proof.
  destruct (counters_invariant priority_leb priority_leb (λ x _, x) Infinity
              (λ av _ _, ActionHandlers.Return av) toy_calls toy_policy_handler)
    as (H1 & H2 & H3).
  split_and!; [exact H1|exact H2|apply H3].
  - exact priority_leb_refl.
  - cbn. lia.
Defined.

Lemma nan_get_action_raises_witness :
  ActionHandlers.get_action float_leb PosInf (λ av _ _, ActionHandlers.Return av)
    nan_handler [Num 3; NaN; Num 9] false (ActionHandlers.mkDraws (Num 0) 0%Z [])
  = (ActionHandlers.Raises ActionHandlers.IndexError, nan_handler, [Num 3; NaN; Num 9]).
Proof.
  apply (nan_get_action_raises float_leb PosInf
           (λ av _ _, ActionHandlers.Return av) nan_handler [Num 3; NaN; Num 9]
           (ActionHandlers.mkDraws (Num 0) 0%Z []) NaN).
  - intros [z| |] y; [|done|done]. unfold ActionHandlers.isnan. cbn.
    by rewrite bool_decide_eq_true_2.
  - right. left.
  - reflexivity.
Defined.

(** With the eGreedy policy the same array makes the call count its
    random pick and then raise before it counts the action. *)
Lemma nan_random_pick_counted :
  ActionHandlers.get_action float_leb PosInf (λ av _ _, ActionHandlers.Return av)
    nan_handler [Num 3; NaN; Num 9] true (ActionHandlers.mkDraws (Num 0) 0%Z [])
  = (ActionHandlers.Raises ActionHandlers.IndexError,
     ActionHandlers.mkActionHandler ActionHandlers.eGreedy (Num 1) (Num 0) (Num 0)
       1%Z 0%Z (Some [0; 1; 3; 4]%Z) 4%Z,
     [PosInf; NaN; Num 9]).
Proof. vm_compute. reflexivity. Qed.


Lemma frame_loop_bounds_witness :
  length [(); (); ()] = length (@nil unit) + 3
  ∧ (0 - Z.of_nat 3 ≤ -1 ≤ 0 + Z.of_nat 3)%Z
  ∧ ∃ lv', Some 1%Z = Some lv' ∧ (lv' ≤ 3)%Z ∧ (0 - (3 - lv') ≤ -1)%Z.
Proof.
  apply (frame_loop_bounds (λ _ : GameHandlers.toy_ale, ()) GameHandlers.toy_act
           (λ a : GameHandlers.toy_ale, [a.1]) (λ _, ()) 3 0%Z (Some 0%Z)
           (GameHandlers.mkFrameVars (3, [(5, 3); (0, 2); (0, 1)])%Z [] 0%Z (Some 3%Z))
           (GameHandlers.mkFrameVars (1, [])%Z [(); (); ()] (-1)%Z (Some 1%Z))).
  vm_compute. reflexivity.
Defined.

Lemma toy_run_early :
  GameHandlers.toy_run 10 toy_script 2 (Some 3%Z) (Some 0%Z) true
  = Some (Ok (0%Z, toy_game_early)).
Proof. vm_compute. reflexivity. Qed.

Lemma toy_run_plain :
  GameHandlers.toy_run 10 toy_script 2 None None true = Some (Ok (2%Z, toy_game_plain)).
Proof. vm_compute. reflexivity. Qed.

Lemma run_one_game_accounting_witness :
  0%Z = foldr Z.add 0%Z ((λ s, s.1.2) <$> GameHandlers.steps toy_game_early)
  ∧ GameHandlers.total_reward toy_game_early = 0%Z
  ∧ GameHandlers.frameCount toy_game_early
    = (0 + 2 * Z.of_nat (length (GameHandlers.steps toy_game_early)))%Z
  ∧ GameHandlers.chained 0%Z (GameHandlers.steps toy_game_early).
Proof.
  apply (run_one_game_accounting (λ a, a)
           GameHandlers.toy_game_over
           (λ _, ()) GameHandlers.toy_act (λ a : GameHandlers.toy_ale, [a.1]) (λ _, ())
           (λ _ (fr : list unit), Ok fr)
           (λ (l : unit) _ _ _, l) (λ (l : unit) (inp : list unit), (7%Z, l))
           10 toy_script 2%Z 0%Z () (Some 3%Z) (Some 0%Z) true 0%Z toy_game_early).
  exact toy_run_early.
Defined.

Lemma run_one_game_rewards_witness :
  Forall (λ s, (- 2 ≤ s.1.2 ≤ 2)%Z) (GameHandlers.steps toy_game_plain)
  ∧ (@None Z = None ∨ @None Z = None →
     Forall (λ s, (0 ≤ s.1.2)%Z) (GameHandlers.steps toy_game_plain) ∧ (0 ≤ 2)%Z).
Proof.
  apply (run_one_game_rewards (λ a, a)
           GameHandlers.toy_game_over
           (λ _, ()) GameHandlers.toy_act (λ a : GameHandlers.toy_ale, [a.1]) (λ _, ())
           (λ _ (fr : list unit), Ok fr)
           (λ (l : unit) _ _ _, l) (λ (l : unit) (inp : list unit), (7%Z, l))
           10 toy_script 2%Z 0%Z () None None true 2%Z toy_game_plain).
  exact toy_run_plain.
Defined.

Lemma run_one_game_early_return_witness :
  (GameHandlers.toy_game_over (GameHandlers.g_ale toy_game_early) = true
   ∨ true = true
     ∧ ∃ s, last (GameHandlers.steps toy_game_early) = Some s ∧ (s.1.2 < 0)%Z)
  ∧ (true = true →
     ∀ k s, GameHandlers.steps toy_game_early !! k = Some s →
       S k < length (GameHandlers.steps toy_game_early) → (0 ≤ s.1.2)%Z).
Proof.
  apply (run_one_game_early_return (λ a, a)
           GameHandlers.toy_game_over
           (λ _, ()) GameHandlers.toy_act (λ a : GameHandlers.toy_ale, [a.1]) (λ _, ())
           (λ _ (fr : list unit), Ok fr)
           (λ (l : unit) _ _ _, l) (λ (l : unit) (inp : list unit), (7%Z, l))
           10 toy_script 2%Z 0%Z () (Some 3%Z) (Some 0%Z) true 0%Z toy_game_early).
  exact toy_run_early.
Defined.

Lemma run_one_game_no_frames_witness :
  GameHandlers.toy_run 1 toy_script 0 None None false = Some (Raise IndexError).
Proof.
  apply (run_one_game_no_frames (λ a, a)
           GameHandlers.toy_game_over
           (λ _, ()) GameHandlers.toy_act (λ a : GameHandlers.toy_ale, [a.1]) (λ _, ())
           (λ _ (fr : list unit), Ok fr)
           (λ (l : unit) _ _ _, l) (λ (l : unit) (inp : list unit), (7%Z, l))
           0 toy_script 0%Z 0%Z () None None false).
  - lia.
  - reflexivity.
Defined.

Lemma run_one_game_early_return_needs_lives_witness :
  GameHandlers.toy_run 10 toy_script 2 None None true
  = GameHandlers.toy_run 10 toy_script 2 None None false.
Proof.
  apply (run_one_game_early_return_needs_lives (λ a, a)
           GameHandlers.toy_game_over
           (λ _, ()) GameHandlers.toy_act (λ a : GameHandlers.toy_ale, [a.1]) (λ _, ())
           (λ _ (fr : list unit), Ok fr)
           (λ (l : unit) _ _ _, l) (λ (l : unit) (inp : list unit), (7%Z, l))
           10 toy_script 2%Z 0%Z () None None).
  by left.
Defined.
